(** * nco-control: the merge / diff / plan engine

    A shallow embedding of the pure core of [@nco-control/core]:

    - [merge/deep-merge.ts]   ([deepMerge], [mergeValues], [cloneValue])
    - [merge/hierarchy.ts]    ([shouldInherit], [schemasCompatible], [mergeConfigs])
    - [diff/differ.ts]        ([diffConfigs], [isRelevantDiff], [convertDiff], [configsEqual])
    - [plan/service.ts]       ([generatePlan], [generateChannelPlan],
                               [generateConfigPlan], [calculateSummary])
    - [compare/service.ts]    ([compareChannels], [compareConfig], [calculateSummary])

    JSON-like values are a tagged union; a JavaScript object is the list of
    its own enumerable entries in enumeration order (keys are unique in a
    JavaScript object, which is the well-formedness predicate [wf_obj]).
    Every object the engine reads or builds starts with [Object.prototype]
    as its prototype: the [in] operator and an assignment to [__proto__]
    go through it, and an object enumerates its array-index keys first.
    Exceptions are a sum type threaded through a small error monad.  The
    structural comparison of the third-party package [deep-diff], which
    [differ.ts] calls, is modelled in [Module DeepDiff]. *)

From stdpp Require Import base strings list gmap.
From Stdlib Require Import ZArith DecimalString Ascii.

#[local] Set Warnings "-register-all".
#[local] Open Scope string_scope.

(** ** JSON values *)

(** Numbers are modelled by the integers: every number the engine handles
    is compared with [===] only, and [NaN] never comes out of a JSON or
    YAML document of the store. *)
Inductive json : Type :=
  | JNull
  | JBool (b : bool)
  | JNum (n : Z)
  | JStr (s : string)
  | JArr (items : list json)
  | JObj (fields : list (string * json)).

(** [Record<string, unknown>]: own entries in enumeration order. *)
Abbreviation obj := (list (string * json)).

#[global] Instance json_inhabited : Inhabited json := populate JNull.

(** Structural induction that also reaches the elements of arrays and the
    values of object fields. *)
Section json_induction.
Variable P : json → Prop.
Hypothesis Hnull : P JNull.
Hypothesis Hbool : ∀ b, P (JBool b).
Hypothesis Hnum : ∀ n, P (JNum n).
Hypothesis Hstr : ∀ s, P (JStr s).
Hypothesis Harr : ∀ items, Forall P items → P (JArr items).
Hypothesis Hobj : ∀ fields, Forall (λ kv, P kv.2) fields → P (JObj fields).

Fixpoint json_ind' (v : json) : P v :=
  match v with
  | JNull => Hnull
  | JBool b => Hbool b
  | JNum n => Hnum n
  | JStr s => Hstr s
  | JArr items =>
      Harr items
        ((fix go (l : list json) : Forall P l :=
            match l with
            | [] => Forall_nil_2 P
            | x :: l' => Forall_cons_2 P x l' (json_ind' x) (go l')
            end) items)
  | JObj fields =>
      Hobj fields
        ((fix go (l : obj) : Forall (λ kv, P kv.2) l :=
            match l with
            | [] => Forall_nil_2 _
            | kv :: l' => Forall_cons_2 (λ kv, P kv.2) kv l' (json_ind' kv.2) (go l')
            end) fields)
  end.
End json_induction.

(** Decidable equality ([===] on primitives, structural on trees). *)
Fixpoint json_eqb (a b : json) {struct a} : bool :=
  match a, b with
  | JNull, JNull => true
  | JBool x, JBool y => bool_decide (x = y)
  | JNum x, JNum y => bool_decide (x = y)
  | JStr x, JStr y => bool_decide (x = y)
  | JArr xs, JArr ys =>
      (fix go (xs ys : list json) : bool :=
         match xs, ys with
         | [], [] => true
         | x :: xs', y :: ys' => json_eqb x y && go xs' ys'
         | _, _ => false
         end) xs ys
  | JObj xs, JObj ys =>
      (fix go (xs ys : obj) : bool :=
         match xs, ys with
         | [], [] => true
         | (k, x) :: xs', (k', y) :: ys' =>
             bool_decide (k = k') && json_eqb x y && go xs' ys'
         | _, _ => false
         end) xs ys
  | _, _ => false
  end.

(** ** JavaScript objects *)

(** [Object.keys(o)] *)
Definition obj_keys (o : obj) : list string := o.*1.

(** The own property [key] of [o]; [None]: there is none.  For a [key]
    that names no member of [Object.prototype] this is [o[key]], [None]
    being [undefined]. *)
Fixpoint obj_get (key : string) (o : obj) : option json :=
  match o with
  | [] => None
  | (k, v) :: o' => if decide (k = key) then Some v else obj_get key o'
  end.

(** [key] is an own property of [o]. *)
Definition obj_has (key : string) (o : obj) : bool :=
  bool_decide (key ∈ obj_keys o).

(** The entries with the value of [key] overwritten in place, or with the
    entry added last. *)
Fixpoint obj_set (key : string) (value : json) (o : obj) : obj :=
  match o with
  | [] => [(key, value)]
  | (k, v) :: o' =>
      if decide (k = key) then (k, value) :: o' else (k, v) :: obj_set key value o'
  end.

(** Keys are unique, at every depth. *)
Fixpoint wf_json (v : json) : bool :=
  match v with
  | JArr items => forallb wf_json items
  | JObj fields =>
      bool_decide (NoDup (fields.*1)) && forallb (λ kv, wf_json kv.2) fields
  | _ => true
  end.

Definition wf_obj (o : obj) : bool := wf_json (JObj o).

(** The members every plain object inherits from [Object.prototype]. *)
Definition object_prototype_members : list string :=
  [ "constructor"; "__defineGetter__"; "__defineSetter__"; "hasOwnProperty";
    "__lookupGetter__"; "__lookupSetter__"; "isPrototypeOf"; "propertyIsEnumerable";
    "toString"; "valueOf"; "__proto__"; "toLocaleString" ].

(** [key in o], for an object whose prototype is [Object.prototype]: an
    own property or an inherited member. *)
Definition in_object (key : string) (o : obj) : bool :=
  obj_has key o || bool_decide (key ∈ object_prototype_members).

(** An array index: the canonical decimal form of an integer below
    [2^32 - 1].  An object enumerates its array-index keys first, in
    ascending order, and its other keys after them in insertion order. *)
Definition array_index (key : string) : option N :=
  match NilZero.uint_of_string key with
  | Some digits =>
      let n := N.of_uint digits in
      if bool_decide (NilZero.string_of_uint (N.to_uint n) = key)
         && bool_decide (n < 4294967295)%N
      then Some n
      else None
  | None => None
  end.

(** A new array-index key takes its place among the array-index keys. *)
Fixpoint insert_index (n : N) (key : string) (value : json) (o : obj) : obj :=
  match o with
  | [] => [(key, value)]
  | (k, v) :: o' =>
      match array_index k with
      | Some m =>
          if bool_decide (m < n)%N then (k, v) :: insert_index n key value o'
          else (key, value) :: o
      | None => (key, value) :: o
      end
  end.

(** The own entries of [result] after [result[key] = value], for a
    [result] that was created as [{}] and filled by such assignments.
    The key [__proto__] is the accessor of [Object.prototype]: the
    assignment calls its setter and adds no own entry (an object or
    [null] becomes the prototype of [result], any other value is
    ignored).  Every other key becomes an own property: an existing one
    keeps its place, a new array index is placed by [insert_index], any
    other new key comes last. *)
Definition assign (key : string) (value : json) (result : obj) : obj :=
  if bool_decide (key = "__proto__") then result
  else if obj_has key result then obj_set key value result
  else match array_index key with
       | Some n => insert_index n key value result
       | None => (result ++ [(key, value)])%list
       end.

(** ** merge/deep-merge.ts *)

(** [typeof] *)
Inductive js_type := TObject | TBoolean | TNumber | TString.

#[global] Instance js_type_eq_dec : EqDecision js_type.
Proof. solve_decision. Defined.

Definition typeof (v : json) : js_type :=
  match v with
  | JNull | JArr _ | JObj _ => TObject
  | JBool _ => TBoolean
  | JNum _ => TNumber
  | JStr _ => TString
  end.

(** [Array.isArray] *)
Definition isArray (v : json) : bool :=
  match v with JArr _ => true | _ => false end.

(** What a call of the merge gives back: a value of the data model, or
    the fact that the code left it.  The code leaves it in two ways, both
    through [Object.prototype]: it stores a function it read from there as
    the value of a key, or it assigns an object to [__proto__] of the
    object under construction, whose later [key in result] tests then
    consult that object. *)
Inductive outcome (A : Type) :=
  | Value (a : A)
  | Escapes.
Arguments Value {A} a.
Arguments Escapes {A}.

#[global] Instance outcome_ret : MRet outcome := λ A a, Value a.
#[global] Instance outcome_bind : MBind outcome := λ A B k m,
  match m with
  | Value a => k a
  | Escapes => Escapes
  end.
#[global] Instance outcome_fmap : FMap outcome := λ A B f m,
  match m with
  | Value a => Value (f a)
  | Escapes => Escapes
  end.

(** [cloneValue]: a fresh copy, entry by entry.  The copy is described by
    its own entries: an entry [__proto__] of the original is not among
    them. *)
Fixpoint cloneValue (value : json) : json :=
  match value with
  | JArr items => JArr (map cloneValue items)
  | JObj fields =>
      JObj (foldl (λ result '(key, val), assign key (cloneValue val) result) [] fields)
  | _ => value
  end.

(** The body of [deepMerge], with the call to [mergeValues] abstracted so
    that the two mutually recursive functions pass the termination check.
    The first loop walks [Object.keys(base)] reading [base[key]], that is
    the entries of [base].  [overlay[key]] is the own value of the key,
    or else the member of that name [overlay] inherits: such a member is
    not [null], [key in overlay] holds for it, and [mergeValues] gives it
    back as it is (a function), or makes an object of it (under
    [__proto__], where the member is [Object.prototype] itself), which
    the assignment then stores or installs as prototype. *)
Definition deepMerge_body (mergeValues : json → json → outcome json)
    (base overlay : obj) : outcome obj :=
  result ←
    foldl (λ (acc : outcome obj) '(key, baseValue),
             result ← acc;
             match obj_get key overlay with
             | Some JNull => Value result                 (* overlayValue === null *)
             | Some overlayValue =>
                 merged ← mergeValues baseValue overlayValue;
                 if bool_decide (key = "__proto__") && bool_decide (typeof merged = TObject)
                 then Escapes
                 else Value (assign key merged result)
             | None =>
                 if bool_decide (key ∈ object_prototype_members)
                 then Escapes                             (* an inherited member *)
                 else Value (assign key (cloneValue baseValue) result)  (* !(key in overlay) *)
             end) (Value []) base;
  Value (foldl (λ result '(key, overlayValue),
                  if in_object key result then result
                  else if json_eqb overlayValue JNull then result   (* overlay[key] === null *)
                  else assign key (cloneValue overlayValue) result) result overlay).

Fixpoint mergeValues (base overlay : json) {struct base} : outcome json :=
  if negb (bool_decide (typeof base = typeof overlay)) then Value (cloneValue overlay)
  else if isArray base || isArray overlay then Value (cloneValue overlay)
  else match base, overlay with
       | JObj b, JObj o => JObj <$> deepMerge_body mergeValues b o
       | _, _ => Value overlay
       end.

Definition deepMerge (base overlay : obj) : outcome obj :=
  deepMerge_body mergeValues base overlay.

(** ** merge/hierarchy.ts *)

(** JavaScript truthiness of a value ([!v] is its negation). *)
Definition truthy (v : json) : bool :=
  match v with
  | JNull => false
  | JBool b => b
  | JNum n => negb (bool_decide (n = 0%Z))
  | JStr s => negb (bool_decide (s = ""))
  | JArr _ | JObj _ => true
  end.

(** [!v] for a possibly [undefined] value. *)
Definition falsy_opt (v : option json) : bool :=
  match v with None => true | Some x => negb (truthy x) end.

(** [a === b] for values read from two separately parsed documents:
    primitives compare by value, arrays and objects by identity (and two
    documents share none). *)
Definition strict_eq (a b : json) : bool :=
  match a, b with
  | JNull, JNull => true
  | JBool x, JBool y => bool_decide (x = y)
  | JNum x, JNum y => bool_decide (x = y)
  | JStr x, JStr y => bool_decide (x = y)
  | _, _ => false
  end.

Definition shouldInherit (channelConfig : obj) : bool :=
  obj_has "id" channelConfig && bool_decide (is_Some (obj_get "id" channelConfig)).

Definition schemasCompatible (rootConfig channelConfig : obj) : bool :=
  let rootSchema := obj_get "$schema" rootConfig in
  let channelSchema := obj_get "$schema" channelConfig in
  if falsy_opt rootSchema || falsy_opt channelSchema then true
  else match rootSchema, channelSchema with
       | Some r, Some c => strict_eq r c
       | _, _ => true
       end.

Definition mergeConfigs (rootConfig channelConfig : obj) : outcome obj :=
  deepMerge rootConfig channelConfig.

(** ** The [deep-diff] package (npm, 1.x), as [diff/differ.ts] uses it

    [differ.ts] imports [diff] from the third-party package [deep-diff].
    Its structural comparison is modelled here on JSON trees (no cycles,
    no [Date], no [RegExp], no [undefined] property values). *)
Module DeepDiff.

(** A path segment: an object key or an array index. *)
Inductive seg := Key (k : string) | Idx (i : nat).

(** The change records [DiffNew] (kind N), [DiffDeleted] (kind D),
    [DiffEdit] (kind E) and [DiffArray] (kind A).  The package defines
    the [path] property only for a non-empty path: [[]] is an absent path. *)
Inductive change :=
  | DiffNew (path : list seg) (rhs : json)
  | DiffDeleted (path : list seg) (lhs : json)
  | DiffEdit (path : list seg) (lhs rhs : json)
  | DiffArray (path : list seg) (index : nat) (item : change).

Definition path (d : change) : list seg :=
  match d with
  | DiffNew p _ | DiffDeleted p _ | DiffEdit p _ _ | DiffArray p _ _ => p
  end.

Inductive real_type := RNull | RBoolean | RNumber | RString | RArray | RObject.

Definition realTypeOf (subject : json) : real_type :=
  match subject with
  | JNull => RNull
  | JBool _ => RBoolean
  | JNum _ => RNumber
  | JStr _ => RString
  | JArr _ => RArray
  | JObj _ => RObject
  end.

Definition real_type_eqb (a b : real_type) : bool :=
  match a, b with
  | RNull, RNull | RBoolean, RBoolean | RNumber, RNumber
  | RString, RString | RArray, RArray | RObject, RObject => true
  | _, _ => false
  end.

(** [deepDiff(lhs, rhs, changes, _, path, key, ...)] for two defined
    values, [currentPath] being [path] with [key] pushed; the result is
    what the call pushes onto [changes].  A call with an [undefined] side
    pushes one [DiffDeleted] or [DiffNew] and is written out where the
    object loop makes it.

    Arrays: surplus elements of [rhs] are reported from the last index
    down, then surplus elements of [lhs], then the common indices are
    compared from the last one down to 0.  Objects: the keys of [lhs] in
    order, then the keys of [rhs] that [lhs] lacks; that second loop
    tests [if (k)] and so passes over an empty-string key. *)
Fixpoint deepDiff (lhs rhs : json) (currentPath : list seg) {struct lhs} : list change :=
  if negb (real_type_eqb (realTypeOf lhs) (realTypeOf rhs))
  then [DiffEdit currentPath lhs rhs]
  else match lhs, rhs with
       | JArr l, JArr r =>
           reverse (drop (length l)
                      (imap (λ i y, DiffArray currentPath i (DiffNew [] y)) r))
           ++ reverse (drop (length r)
                      (imap (λ j x, DiffArray currentPath j (DiffDeleted [] x)) l))
           ++ concat (reverse
                (zip_with (λ x iy, deepDiff x iy.2 (currentPath ++ [Idx iy.1]))
                   l (imap pair r)))
       | JObj l, JObj r =>
           concat (map (λ kx,
                     match obj_get kx.1 r with
                     | Some y => deepDiff kx.2 y (currentPath ++ [Key kx.1])
                     | None => [DiffDeleted (currentPath ++ [Key kx.1]) kx.2]
                     end) l)
           ++ concat (map (λ ky,
                     if obj_has ky.1 l then []
                     else if bool_decide (ky.1 = "") then []
                     else [DiffNew (currentPath ++ [Key ky.1]) ky.2]) r)
       | _, _ =>
           if json_eqb lhs rhs then [] else [DiffEdit currentPath lhs rhs]
       end.

(** [diff(lhs, rhs)] ([accumulateDiff] without accumulator): the changes,
    or [undefined] when there are none. *)
Definition diff (lhs rhs : json) : option (list change) :=
  match deepDiff lhs rhs [] with
  | [] => None
  | changes => Some changes
  end.

End DeepDiff.

(** ** plan/types.ts *)

Inductive diff_type := add | remove | change.

Record FieldDiff := {
  path : string;
  type : diff_type;
  oldValue : option json;
  newValue : option json;
}.

Inductive config_status := create | update | unchanged.

#[global] Instance config_status_eq_dec : EqDecision config_status.
Proof. solve_decision. Defined.

Record ConfigPlan := {
  cp_name : string;
  cp_status : config_status;
  cp_diffs : list FieldDiff;
}.

Record ChannelPlan := {
  channel : string;
  existsRemotely : bool;
  configs : list ConfigPlan;
}.

Record PlanSummary := {
  creates : nat;
  updates : nat;
  unchanged_count : nat;
  unmanaged : nat;
}.

Record Plan := {
  merchant : string;
  timestamp : string;
  channels : list ChannelPlan;
  summary : PlanSummary;
}.

(** ** diff/differ.ts *)

(** A path segment as [Array.prototype.join] prints it. *)
Definition seg_string (s : DeepDiff.seg) : string :=
  match s with
  | DeepDiff.Key k => k
  | DeepDiff.Idx i => NilZero.string_of_uint (Nat.to_uint i)
  end.

(** [d.path && d.path[0] === '$schema'] filters the change out. *)
Definition isRelevantDiff (d : DeepDiff.change) : bool :=
  match DeepDiff.path d with
  | DeepDiff.Key k :: _ => negb (bool_decide (k = "$schema"))
  | _ => true
  end.

Definition convertDiff (d : DeepDiff.change) : FieldDiff :=
  let path := "/" ++ String.concat "/" (map seg_string (DeepDiff.path d)) in
  match d with
  | DeepDiff.DiffNew _ rhs =>
      {| path := path; type := add; oldValue := None; newValue := Some rhs |}
  | DeepDiff.DiffDeleted _ lhs =>
      {| path := path; type := remove; oldValue := Some lhs; newValue := None |}
  | DeepDiff.DiffEdit _ lhs rhs =>
      {| path := path; type := change; oldValue := Some lhs; newValue := Some rhs |}
  | DeepDiff.DiffArray _ index item =>
      let arrayPath := path ++ "/" ++ NilZero.string_of_uint (Nat.to_uint index) in
      match item with
      | DeepDiff.DiffNew _ rhs =>
          {| path := arrayPath; type := add; oldValue := None; newValue := Some rhs |}
      | DeepDiff.DiffDeleted _ lhs =>
          {| path := arrayPath; type := remove; oldValue := Some lhs; newValue := None |}
      | DeepDiff.DiffEdit _ lhs rhs =>
          {| path := arrayPath; type := change; oldValue := Some lhs; newValue := Some rhs |}
      | DeepDiff.DiffArray _ _ _ =>
          {| path := arrayPath; type := change; oldValue := None; newValue := None |}
      end
  end.

Definition diffConfigs (local remote : obj) : list FieldDiff :=
  match DeepDiff.diff (JObj remote) (JObj local) with
  | None => []
  | Some differences => map convertDiff (filter (λ d, isRelevantDiff d = true) differences)
  end.

Definition configsEqual (local remote : obj) : bool :=
  bool_decide (length (diffConfigs local remote) = 0).

(** ** Exceptions *)

(** What the engine throws and catches.  [Error] stands for a plain
    [Error] and for the built-in errors that are not an [ApiError]
    (the [TypeError] of a failed [fetch], the [SyntaxError] of
    [JSON.parse]). *)
Inductive exn :=
  | ApiError (message : string) (statusCode : Z)
  | PlanValidationError (message : string) (errors : list (string * string))
  | MissingEnvVarError (message : string) (missingVars : list string)
  | Error (message : string).

Inductive result (A : Type) :=
  | Ok (a : A)
  | Throw (e : exn).
Arguments Ok {A} a.
Arguments Throw {A} e.

#[global] Instance result_ret : MRet result := λ A a, Ok a.
#[global] Instance result_bind : MBind result := λ A B k m,
  match m with
  | Ok a => k a
  | Throw e => Throw e
  end.

(** A loop whose body may throw: the first exception ends it. *)
Fixpoint mapM {A B} (f : A → result B) (l : list A) : result (list B) :=
  match l with
  | [] => Ok []
  | x :: l' => y ← f x; ys ← mapM f l'; Ok (y :: ys)
  end.

(** ** types/index.ts, api/types.ts *)

Record ChannelConfig := {
  cfg_name : string;
  cfg_path : string;
  raw : obj;
  merged : obj;
  schemaUrl : option string;
  id : option string;
  inheritsFromRoot : bool;
}.

(** [Channel], without the validation status the engine never reads. *)
Record Channel := {
  ch_name : string;
  ch_path : string;
  ch_configs : list ChannelConfig;
}.

Record ProjectConfig := {
  pc_merchant : string;
  api_baseUrl : string;
  api_token : option string;
}.

Record ValidationError := {
  filePath : string;
  fieldPath : string;
  ve_message : string;
}.

Record ChannelValidationResult := {
  cvr_name : string;
  cvr_valid : bool;
  cvr_errors : list ValidationError;
}.

Record ValidationResult := {
  valid : bool;
  vr_channels : list ChannelValidationResult;
}.

Record RemoteChannel := {
  rc_name : string;
  displayName : option string;
}.

(** [RemoteConfig] is an object with a string [id]; this reads it.  An
    object without one is outside the type, and as a [Map] key it could
    never answer a lookup, every lookup key being a string. *)
Definition remote_id (config : obj) : option string :=
  match obj_get "id" config with
  | Some (JStr s) => Some s
  | _ => None
  end.

(** [ConfigurationApiClient]: the answers of the remote store. *)
Record ConfigurationApiClient := {
  listChannels : result (list RemoteChannel);
  listConfigs : string → result (list obj);
}.

(** The collaborators of a run (spec §6), each with its answer or its
    exception: the validation service, the file system behind channel
    discovery and behind the loading of a channel's configs (already
    resolved against the root configs), the environment file, secret
    substitution, the remote store and the clock. *)
Record World := {
  validateProject : option string → result ValidationResult;
  discoverChannels : result (list Channel);
  loadChannelConfigs : Channel → result (list ChannelConfig);
  getEnvironment : result (gmap string string);
  substituteSecrets : obj → gmap string string → result obj;
  client : ConfigurationApiClient;
  now : string;
}.

(** Truthiness of an optional string ([if (options.channel)], [if (!token)]):
    it counts when it is there and is not the empty string. *)
Definition option_set (o : option string) : option string :=
  match o with
  | Some s => if bool_decide (s = "") then None else Some s
  | None => None
  end.

(** config/loader.ts *)
Definition loadAllChannelConfigs (w : World) (channels : list Channel) : result (list Channel) :=
  mapM (λ channel,
          configs ← loadChannelConfigs w channel;
          Ok {| ch_name := ch_name channel; ch_path := ch_path channel;
                ch_configs := configs |}) channels.

(** ** plan/service.ts *)
Module PlanService.

Record PlanOptions := {
  opt_channel : option string;
  verbose : bool;
}.

Definition substituteSecretsInChannels (w : World)
    (channels : list Channel) (env : gmap string string) : result (list Channel) :=
  mapM (λ channel,
          configs ← mapM (λ config,
              match substituteSecrets w (merged config) env with
              | Ok substituted =>
                  Ok {| cfg_name := cfg_name config; cfg_path := cfg_path config;
                        raw := raw config; merged := substituted;
                        schemaUrl := schemaUrl config; id := id config;
                        inheritsFromRoot := inheritsFromRoot config |}
              | Throw (MissingEnvVarError _ missingVars) =>
                  Throw (Error ("Missing environment variables in " ++ cfg_path config
                                ++ ": " ++ String.concat ", " missingVars))
              | Throw error => Throw error
              end) (ch_configs channel);
          Ok {| ch_name := ch_name channel; ch_path := ch_path channel;
                ch_configs := configs |}) channels.

Definition generateConfigPlan (localConfig : ChannelConfig)
    (remoteConfigs : gmap string obj) : ConfigPlan :=
  let configId := default (cfg_name localConfig) (id localConfig) in
  match remoteConfigs !! configId with
  | None =>
      {| cp_name := cfg_name localConfig; cp_status := create;
         cp_diffs := diffConfigs (merged localConfig) [] |}
  | Some remoteConfig =>
      let diffs := diffConfigs (merged localConfig) remoteConfig in
      if bool_decide (length diffs = 0)
      then {| cp_name := cfg_name localConfig; cp_status := unchanged; cp_diffs := [] |}
      else {| cp_name := cfg_name localConfig; cp_status := update; cp_diffs := diffs |}
  end.

(** [remoteConfigs.set(config.id, config)] for each listed config. *)
Definition index_by_id (configs : list obj) : gmap string obj :=
  foldl (λ remoteConfigs config,
           match remote_id config with
           | Some i => <[i := config]> remoteConfigs
           | None => remoteConfigs
           end) ∅ configs.

Definition generateChannelPlan (channel : Channel) (existsRemotely : bool)
    (client : ConfigurationApiClient) : result ChannelPlan :=
  remoteConfigs ←
    (if existsRemotely then
       match listConfigs client (ch_name channel) with
       | Ok configs => Ok (index_by_id configs)
       | Throw (ApiError message statusCode) =>
           if negb (bool_decide (statusCode = 404%Z))
           then Throw (Error ("Failed to list configs for channel '" ++ ch_name channel
                              ++ "': " ++ message))
           else Ok ∅
       | Throw _ => Ok ∅     (* the catch block ends without rethrowing *)
       end
     else Ok ∅);
  Ok {| channel := ch_name channel;
        existsRemotely := existsRemotely;
        configs := map (λ localConfig, generateConfigPlan localConfig remoteConfigs)
                       (ch_configs channel) |}.

Definition count_status (s : PlanSummary) (configPlan : ConfigPlan) : PlanSummary :=
  match cp_status configPlan with
  | create => {| creates := S (creates s); updates := updates s;
                 unchanged_count := unchanged_count s; unmanaged := unmanaged s |}
  | update => {| creates := creates s; updates := S (updates s);
                 unchanged_count := unchanged_count s; unmanaged := unmanaged s |}
  | unchanged => {| creates := creates s; updates := updates s;
                    unchanged_count := S (unchanged_count s); unmanaged := unmanaged s |}
  end.

Definition calculateSummary (channelPlans : list ChannelPlan)
    (remoteChannels : gset string) (localChannels : list Channel) : PlanSummary :=
  let counts :=
    foldl (λ s channelPlan, foldl count_status s (configs channelPlan))
          {| creates := 0; updates := 0; unchanged_count := 0; unmanaged := 0 |}
          channelPlans in
  let localChannelNames : gset string := list_to_set (map ch_name localChannels) in
  let unmanaged :=
    length (filter (λ name, name ∉ localChannelNames) (elements remoteChannels)) in
  {| creates := creates counts; updates := updates counts;
     unchanged_count := unchanged_count counts; unmanaged := unmanaged |}.

Definition validation_errors (validationResult : ValidationResult) : list (string * string) :=
  flat_map (λ ch, map (λ e, (cvr_name ch, filePath e ++ ": " ++ ve_message e)) (cvr_errors ch))
           (filter (λ ch, cvr_valid ch = false) (vr_channels validationResult)).

Definition generatePlan (w : World) (config : ProjectConfig) (options : PlanOptions)
    : result Plan :=
  (* Step 1: validate first *)
  validationResult ← validateProject w (opt_channel options);
  if negb (valid validationResult)
  then Throw (PlanValidationError "Validation failed. Fix errors before planning."
                (validation_errors validationResult))
  else
  (* Step 2: discover and load channels *)
  channels ← discoverChannels w;
  channels ←
    (match option_set (opt_channel options) with
     | Some c =>
         let channels := filter (λ ch, ch_name ch = c) channels in
         if bool_decide (length channels = 0)
         then Throw (Error ("Channel '" ++ c ++ "' not found"))
         else Ok channels
     | None => Ok channels
     end);
  channels ← loadAllChannelConfigs w channels;
  (* Step 3: environment and secrets *)
  env ← getEnvironment w;
  channelsWithSecrets ← substituteSecretsInChannels w channels env;
  (* Step 4: API token *)
  match option_set (match env !! "NCOCTL_API_TOKEN" with
                    | Some t => Some t
                    | None => api_token config
                    end) with
  | None => Throw (Error "API token required. Set NCOCTL_API_TOKEN environment variable or api.token in config.")
  | Some token =>
  (* Steps 5 and 6: remote state, then one plan per channel *)
  remoteChannels ←
    (match listChannels (client w) with
     | Ok remoteChannelList => Ok (list_to_set (map rc_name remoteChannelList) : gset string)
     | Throw (ApiError message _) =>
         Throw (Error ("Failed to list remote channels: " ++ message))
     | Throw error => Throw error
     end);
  channelPlans ←
    mapM (λ channel,
            generateChannelPlan channel
              (bool_decide (ch_name channel ∈ remoteChannels)) (client w))
         channelsWithSecrets;
  (* Step 7: summary *)
  let summary := calculateSummary channelPlans remoteChannels channelsWithSecrets in
  Ok {| merchant := pc_merchant config; timestamp := now w;
        channels := channelPlans; summary := summary |}
  end.

Definition planHasChanges (plan : Plan) : bool :=
  bool_decide (0 < creates (summary plan)) || bool_decide (0 < updates (summary plan)).

End PlanService.

(** ** compare/types.ts, compare/service.ts *)
Module CompareService.

Inductive compare_status := identical | different | only_in_a | only_in_b.

#[global] Instance compare_status_eq_dec : EqDecision compare_status.
Proof. solve_decision. Defined.

Record ConfigComparison := {
  cc_name : string;
  cc_status : compare_status;
  cc_diffs : list FieldDiff;
  configA : option obj;
  configB : option obj;
}.

Record CompareSummary := {
  sum_identical : nat;
  sum_different : nat;
  onlyInA : nat;
  onlyInB : nat;
}.

Record CompareResult := {
  channelA : string;
  channelB : string;
  cr_timestamp : string;
  cr_configs : list ConfigComparison;
  cr_summary : CompareSummary;
}.

Record CompareOptions := {
  differencesOnly : bool;
}.

(** A JavaScript [Map] with string keys: its entries in insertion order.
    [set] overwrites in place or appends; [size] is [length]. *)
Fixpoint map_set {V} (key : string) (value : V) (m : list (string * V)) : list (string * V) :=
  match m with
  | [] => [(key, value)]
  | (k, v) :: m' =>
      if decide (k = key) then (k, value) :: m' else (k, v) :: map_set key value m'
  end.

Fixpoint map_get {V} (key : string) (m : list (string * V)) : option V :=
  match m with
  | [] => None
  | (k, v) :: m' => if decide (k = key) then Some v else map_get key m'
  end.

(** [new Map(entries)] *)
Definition new_Map {V} (entries : list (string * V)) : list (string * V) :=
  foldl (λ m kv, map_set kv.1 kv.2 m) [] entries.

(** A JavaScript [Set] of strings: its elements in insertion order. *)
Definition set_add (x : string) (s : list string) : list string :=
  if bool_decide (x ∈ s) then s else (s ++ [x])%list.

Definition new_Set (xs : list string) : list string :=
  foldl (λ s x, set_add x s) [] xs.

Definition compareConfig (name : string) (configA configB : option obj) : ConfigComparison :=
  match configA, configB with
  | Some a, None =>
      {| cc_name := name; cc_status := only_in_a; cc_diffs := [];
         configA := Some a; configB := None |}
  | None, Some b =>
      {| cc_name := name; cc_status := only_in_b; cc_diffs := [];
         configA := None; configB := Some b |}
  | _, _ =>
      (* both exist: [allConfigNames] holds keys of the two maps only *)
      let diffs := diffConfigs (default [] configA) (default [] configB) in
      if bool_decide (length diffs = 0)
      then {| cc_name := name; cc_status := identical; cc_diffs := [];
              configA := configA; configB := configB |}
      else {| cc_name := name; cc_status := different; cc_diffs := diffs;
              configA := configA; configB := configB |}
  end.

Definition count_status (s : CompareSummary) (comparison : ConfigComparison) : CompareSummary :=
  match cc_status comparison with
  | identical => {| sum_identical := S (sum_identical s); sum_different := sum_different s;
                    onlyInA := onlyInA s; onlyInB := onlyInB s |}
  | different => {| sum_identical := sum_identical s; sum_different := S (sum_different s);
                    onlyInA := onlyInA s; onlyInB := onlyInB s |}
  | only_in_a => {| sum_identical := sum_identical s; sum_different := sum_different s;
                    onlyInA := S (onlyInA s); onlyInB := onlyInB s |}
  | only_in_b => {| sum_identical := sum_identical s; sum_different := sum_different s;
                    onlyInA := onlyInA s; onlyInB := S (onlyInB s) |}
  end.

Definition calculateSummary (comparisons : list ConfigComparison)
    (_totalA _totalB totalUnique : nat) : CompareSummary :=
  let counts :=
    foldl count_status
          {| sum_identical := 0; sum_different := 0; onlyInA := 0; onlyInB := 0 |}
          comparisons in
  let identical :=
    if bool_decide (length comparisons < totalUnique)
    then totalUnique - length comparisons
    else sum_identical counts in
  {| sum_identical := identical; sum_different := sum_different counts;
     onlyInA := onlyInA counts; onlyInB := onlyInB counts |}.

(** The loop over [allConfigNames]: one comparison per name, kept unless
    [differencesOnly] is set and it is [identical]. *)
Definition compare_all (options : CompareOptions)
    (configsA configsB : list (string * obj)) (allConfigNames : list string)
    : list ConfigComparison :=
  foldl (λ comparisons name,
           let comparison := compareConfig name (map_get name configsA) (map_get name configsB) in
           if differencesOnly options
              && match cc_status comparison with identical => true | _ => false end
           then comparisons
           else (comparisons ++ [comparison])%list) [] allConfigNames.

Definition compareChannels (w : World) (_config : ProjectConfig)
    (channelA channelB : string) (options : CompareOptions) : result CompareResult :=
  channels ← discoverChannels w;
  loadedChannels ← loadAllChannelConfigs w channels;
  match find (λ ch, bool_decide (ch_name ch = channelA)) loadedChannels with
  | None => Throw (Error ("Channel '" ++ channelA ++ "' not found"))
  | Some chA =>
  match find (λ ch, bool_decide (ch_name ch = channelB)) loadedChannels with
  | None => Throw (Error ("Channel '" ++ channelB ++ "' not found"))
  | Some chB =>
      let configsA := new_Map (map (λ c, (cfg_name c, merged c)) (ch_configs chA)) in
      let configsB := new_Map (map (λ c, (cfg_name c, merged c)) (ch_configs chB)) in
      let allConfigNames := new_Set (configsA.*1 ++ configsB.*1) in
      let comparisons := compare_all options configsA configsB allConfigNames in
      let summary :=
        calculateSummary comparisons (length configsA) (length configsB)
                         (length allConfigNames) in
      Ok {| channelA := channelA; channelB := channelB; cr_timestamp := now w;
            cr_configs := comparisons; cr_summary := summary |}
  end end.

End CompareService.

(** ** plan/service.ts: what an apply step takes from a plan *)

Record ApplyEntry := {
  ae_channel : string;
  configName : string;
  ae_status : config_status;
}.

Definition getConfigsToApply (plan : Plan) : list ApplyEntry :=
  foldl (λ result channelPlan,
           foldl (λ result configPlan,
                    match cp_status configPlan with
                    | create | update =>
                        (result ++ [ {| ae_channel := channel channelPlan;
                                        configName := cp_name configPlan;
                                        ae_status := cp_status configPlan |} ])%list
                    | unchanged => result
                    end) result (configs channelPlan))
        [] (channels plan).

(** ** config/loader.ts: the inheritance step of [loadChannelConfigs] *)

(** [a === b] for two possibly [undefined] values. *)
Definition strict_eq_opt (a b : option json) : bool :=
  match a, b with
  | Some x, Some y => strict_eq x y
  | None, None => true
  | _, _ => false
  end.

(** For one channel file with parsed content [raw]: [rootConfigPath] is
    what [rootConfigs.get(configName)] answers, and the root file is read
    only when the channel file opts in.  The result is the [merged]
    content and the [inheritsFromRoot] flag. *)
Definition resolveInheritance (rootConfigPath : option string)
    (loadYamlFile : string → result obj) (raw : obj) : result (outcome obj * bool) :=
  match option_set rootConfigPath with
  | Some rootPath =>
      if shouldInherit raw then
        rootConfig ← loadYamlFile rootPath;
        let rootSchema := obj_get "$schema" rootConfig in
        let channelSchema := obj_get "$schema" raw in
        if falsy_opt rootSchema || falsy_opt channelSchema
           || strict_eq_opt rootSchema channelSchema
        then Ok (mergeConfigs rootConfig raw, true)
        else Ok (Value raw, false)
      else Ok (Value raw, false)
  | None => Ok (Value raw, false)
  end.

(** ** secrets/substitute.ts *)
Module Secrets.

(** How the global pattern [/\$\{([^}]+)\}/g] cuts a string: a character
    outside every match, or a match with the name it captures.  A match
    starts at a [${], takes every character up to the next [}] as the
    name, which must not be empty, and needs that [}]; the search for the
    next match resumes behind it. *)
Inductive piece :=
  | Text (c : Ascii.ascii)
  | Placeholder (varName : string).

Inductive scan_state :=
  | Outside
  | AfterDollar
  | InName (name : string).

Fixpoint pieces_from (st : scan_state) (s : string) : list piece :=
  match s with
  | EmptyString =>
      match st with
      | Outside => []
      | AfterDollar => [Text "$"]
      | InName name => Text "$" :: Text "{" :: map Text (String.list_ascii_of_string name)
      end
  | String c s' =>
      match st with
      | Outside =>
          if decide (c = "$"%char) then pieces_from AfterDollar s'
          else Text c :: pieces_from Outside s'
      | AfterDollar =>
          if decide (c = "{"%char) then pieces_from (InName "") s'
          else if decide (c = "$"%char) then Text "$" :: pieces_from AfterDollar s'
          else Text "$" :: Text c :: pieces_from Outside s'
      | InName name =>
          if decide (c = "}"%char) then
            if decide (name = "") then
              Text "$" :: Text "{" :: Text "}" :: pieces_from Outside s'
            else Placeholder name :: pieces_from Outside s'
          else pieces_from (InName (name ++ String c "")) s'
      end
  end.

(** [val.matchAll(PLACEHOLDER_PATTERN)], with the text between matches. *)
Definition pieces (s : string) : list piece := pieces_from Outside s.

(** [value.replace(PLACEHOLDER_PATTERN, (_, varName) => f(varName))] *)
Definition replace (f : string → string) (s : string) : string :=
  String.concat ""
    (map (λ p, match p with
               | Text c => String c ""
               | Placeholder varName => f varName
               end) (pieces s)).

(** [traverse] of [findPlaceholders], the list [placeholders] threaded. *)
Fixpoint traverse (val : json) (placeholders : list string) : list string :=
  match val with
  | JStr s =>
      foldl (λ placeholders p,
               match p with
               | Placeholder varName =>
                   if negb (bool_decide (varName = ""))
                      && negb (bool_decide (varName ∈ placeholders))
                   then (placeholders ++ [varName])%list
                   else placeholders
               | Text _ => placeholders
               end) placeholders (pieces s)
  | JArr items => foldl (λ placeholders item, traverse item placeholders) placeholders items
  | JObj fields => foldl (λ placeholders kv, traverse kv.2 placeholders) placeholders fields
  | _ => placeholders
  end.

Definition findPlaceholders (value : json) : list string := traverse value [].

(** The members every plain object inherits from [Object.prototype]: the
    [in] operator finds them in any environment record. *)
Definition object_prototype_keys : list string := object_prototype_members.

(** [name in env] *)
Definition env_has (name : string) (env : gmap string string) : bool :=
  bool_decide (is_Some (env !! name)) || bool_decide (name ∈ object_prototype_keys).

(** [env[varName] ?? ''] as the replacement text; [prototype_text] is the
    text the engine gives an inherited member when it is spliced into a
    string. *)
Definition env_text (prototype_text : string → string)
    (env : gmap string string) (varName : string) : string :=
  match env !! varName with
  | Some value => value
  | None => if bool_decide (varName ∈ object_prototype_keys) then prototype_text varName else ""
  end.

Fixpoint substituteValue (prototype_text : string → string)
    (value : json) (env : gmap string string) : json :=
  match value with
  | JStr s => JStr (replace (env_text prototype_text env) s)
  | JArr items => JArr (map (λ item, substituteValue prototype_text item env) items)
  | JObj fields =>
      JObj (foldl (λ result '(key, val),
                     assign key (substituteValue prototype_text val env) result) [] fields)
  | _ => value
  end.

Definition checkMissingEnvVars (config : obj) (env : gmap string string) : list string :=
  filter (λ name, env_has name env = false) (findPlaceholders (JObj config)).

Definition substituteSecrets (prototype_text : string → string)
    (config : obj) (env : gmap string string) : result obj :=
  let placeholders := findPlaceholders (JObj config) in
  let missingVars := filter (λ name, env_has name env = false) placeholders in
  if bool_decide (0 < length missingVars)
  then Throw (MissingEnvVarError
                ("Missing environment variables: " ++ String.concat ", " missingVars)
                missingVars)
  else Ok (foldl (λ result '(key, val),
                    assign key (substituteValue prototype_text val env) result) [] config).

End Secrets.

(** ** validate/service.ts: secrets ahead of schema validation *)

(** [substituteSecretsForValidation]: a variable the environment lacks is
    given its own placeholder as value, in a copy of the environment. *)
Definition substituteSecretsForValidation (prototype_text : string → string)
    (config : ChannelConfig) (env : gmap string string) : result ChannelConfig :=
  let missingVars := Secrets.checkMissingEnvVars (merged config) env in
  if bool_decide (length missingVars = 0) then
    substituted ← Secrets.substituteSecrets prototype_text (merged config) env;
    Ok {| cfg_name := cfg_name config; cfg_path := cfg_path config;
          raw := raw config; merged := substituted;
          schemaUrl := schemaUrl config; id := id config;
          inheritsFromRoot := inheritsFromRoot config |}
  else
    let envWithPlaceholders :=
      foldl (λ envWithPlaceholders varName,
               <[varName := "${" ++ varName ++ "}"]> envWithPlaceholders)
            env missingVars in
    substituted ← Secrets.substituteSecrets prototype_text (merged config) envWithPlaceholders;
    Ok {| cfg_name := cfg_name config; cfg_path := cfg_path config;
          raw := raw config; merged := substituted;
          schemaUrl := schemaUrl config; id := id config;
          inheritsFromRoot := inheritsFromRoot config |}.

(** * Specification side *)

(** ** Plain keys

    The keys on which [Object.prototype] and the enumeration order of
    array indices play no part. *)

(** Every key of the value, at every depth, can be assigned and keeps its
    place: it is neither [__proto__] nor an array index. *)
Fixpoint ordinary_keys (v : json) : bool :=
  match v with
  | JArr items => forallb ordinary_keys items
  | JObj fields =>
      forallb (λ kv, negb (bool_decide (kv.1 = "__proto__"))
                     && negb (bool_decide (is_Some (array_index kv.1)))
                     && ordinary_keys kv.2) fields
  | _ => true
  end.

(** Every key of the value, at every depth, is plain: it names no member
    of [Object.prototype] and is no array index. *)
Fixpoint plain_keys (v : json) : bool :=
  match v with
  | JArr items => forallb plain_keys items
  | JObj fields =>
      forallb (λ kv, negb (bool_decide (kv.1 ∈ object_prototype_members))
                     && negb (bool_decide (is_Some (array_index kv.1)))
                     && plain_keys kv.2) fields
  | _ => true
  end.

(** What [cloneValue], [mergeValues] and [deepMerge] come to on plain
    keys, where [Object.prototype] is never met: [key in o] is an own-key
    test and an assignment sets an own entry.  These are the terms the
    proofs about plain objects go through ([deepMerge_plain]). *)
Fixpoint clone_own (value : json) : json :=
  match value with
  | JArr items => JArr (map clone_own items)
  | JObj fields =>
      JObj (foldl (λ result '(key, val), obj_set key (clone_own val) result) [] fields)
  | _ => value
  end.

Definition merge_own_body (merge_values : json → json → json) (base overlay : obj) : obj :=
  let result :=
    foldl (λ result '(key, baseValue),
             match obj_get key overlay with
             | Some JNull => result
             | None => obj_set key (clone_own baseValue) result
             | Some overlayValue => obj_set key (merge_values baseValue overlayValue) result
             end) [] base in
  foldl (λ result '(key, overlayValue),
           if obj_has key result then result
           else if json_eqb overlayValue JNull then result
           else obj_set key (clone_own overlayValue) result) result overlay.

Fixpoint merge_own_values (base overlay : json) {struct base} : json :=
  if negb (bool_decide (typeof base = typeof overlay)) then clone_own overlay
  else if isArray base || isArray overlay then clone_own overlay
  else match base, overlay with
       | JObj b, JObj o => JObj (merge_own_body merge_own_values b o)
       | _, _ => overlay
       end.

Definition merge_own (base overlay : obj) : obj :=
  merge_own_body merge_own_values base overlay.

(** ** The reference per-key definition of the merge (spec §4.1)

    For one key, [merge_ref_key R b o r] relates the value of the key in
    [base], in [overlay] and in the result ([None]: the key is absent);
    [R] is the rule for a key that both sides have. *)
Inductive merge_ref_key (R : json → json → json → Prop)
    : option json → option json → option json → Prop :=
  | ref_absent_from_overlay b :
      (* key absent from overlay: base's value, if any *)
      merge_ref_key R b None b
  | ref_null b :
      (* overlay value is null: the key is omitted, whatever base has *)
      merge_ref_key R b (Some JNull) None
  | ref_absent_from_base o :
      (* key absent from base: the non-null overlay value *)
      o ≠ JNull → merge_ref_key R None (Some o) (Some o)
  | ref_both b o r :
      o ≠ JNull → R b o r → merge_ref_key R (Some b) (Some o) (Some r).

Definition is_object_map (v : json) : Prop :=
  match v with JObj _ => True | _ => False end.

Inductive merge_ref_value : json → json → json → Prop :=
  | ref_type_mismatch b o :
      (* different types: the overlay value wins *)
      typeof b ≠ typeof o → merge_ref_value b o o
  | ref_sequence b o :
      (* either side is a sequence: the overlay value replaces *)
      typeof b = typeof o → isArray b = true ∨ isArray o = true →
      merge_ref_value b o o
  | ref_recurse b o r :
      (* both are non-null object maps: recurse, key by key *)
      NoDup (obj_keys r) →
      (∀ k, merge_ref_key merge_ref_value (obj_get k b) (obj_get k o) (obj_get k r)) →
      merge_ref_value (JObj b) (JObj o) (JObj r)
  | ref_scalar b o :
      (* otherwise: the overlay value wins *)
      typeof b = typeof o → isArray b = false → isArray o = false →
      ¬ (is_object_map b ∧ is_object_map o) →
      merge_ref_value b o o.

(** [result] is the merge of [base] and [overlay] by the reference
    definition: an object whose every key follows the per-key rule. *)
Definition merge_ref (base overlay result : obj) : Prop :=
  NoDup (obj_keys result) ∧
  ∀ k, merge_ref_key merge_ref_value (obj_get k base) (obj_get k overlay) (obj_get k result).

(** ** Vocabulary of the diff properties (spec §4.3, §8) *)

(** The object without its top-level [$schema] entry. *)
Definition without_schema (o : obj) : obj :=
  filter (λ kv, kv.1 ≠ "$schema") o.

(** Equality of two values up to the order of object keys (a
    ConfigObject is a mapping: the order of its keys is irrelevant). *)
Inductive json_equiv : json → json → Prop :=
  | equiv_null : json_equiv JNull JNull
  | equiv_bool b : json_equiv (JBool b) (JBool b)
  | equiv_num n : json_equiv (JNum n) (JNum n)
  | equiv_str s : json_equiv (JStr s) (JStr s)
  | equiv_arr xs ys :
      Forall2 json_equiv xs ys → json_equiv (JArr xs) (JArr ys)
  | equiv_obj xs ys :
      (∀ k, option_Forall2 json_equiv (obj_get k xs) (obj_get k ys)) →
      json_equiv (JObj xs) (JObj ys).

(** [a] and [b] differ at most in their top-level [$schema] value: every
    other key is present in both or in neither, with the same value. *)
Definition differ_only_in_schema (a b : obj) : Prop :=
  ∀ k, k ≠ "$schema" → option_Forall2 json_equiv (obj_get k a) (obj_get k b).

(** The [add] entry for one top-level field. *)
Definition add_of (kv : string * json) : FieldDiff :=
  {| path := "/" ++ kv.1; type := add; oldValue := None; newValue := Some kv.2 |}.

(** "Exactly one [add] per top-level key": the least it asks is that every
    top-level field of [local] has an [add] entry carrying its value. *)
Definition reports_add_per_key (local : obj) : Prop :=
  ∀ k v, obj_get k local = Some v →
         ∃ fd, fd ∈ diffConfigs local [] ∧ type fd = add ∧ newValue fd = Some v.

(** ** Vocabulary of the plan properties (spec §3, §4.4) *)

(** The local channels a run plans: the discovered ones, restricted to the
    single channel of the options when that option is set. *)
Definition planned_channels (discovered : list Channel)
    (options : PlanService.PlanOptions) : list Channel :=
  match option_set (PlanService.opt_channel options) with
  | Some c => filter (λ ch, ch_name ch = c) discovered
  | None => discovered
  end.

(** The first reading of "unmanaged": the remote channel names that no
    local channel of the project carries. *)
Definition counts_remote_only (discovered : list Channel) (remoteNames : list string)
    (plan : Plan) : Prop :=
  unmanaged (summary plan)
  = size ((list_to_set remoteNames : gset string) ∖ list_to_set (map ch_name discovered)).

(** The number of [ConfigPlan]s of a plan, over all its channels. *)
Definition total_configs (plan : Plan) : nat :=
  sum_list (map (λ chp, length (configs chp)) (channels plan)).

(** ** Worked examples (spec §8) *)

Definition local_ab : obj := [("a", JNum 1); ("b", JNum 2)].
Definition local_xab : obj := [("id", JStr "x"); ("a", JNum 1); ("b", JNum 2)].
Definition remote_xab : obj := [("id", JStr "x"); ("a", JNum 1); ("b", JNum 2)].
Definition remote_xab3 : obj := [("id", JStr "x"); ("a", JNum 1); ("b", JNum 3)].

(** The [ChannelConfig] the loader builds for a file [name].yaml whose
    resolved content is [merged]: [id] and [schemaUrl] are read off it. *)
Definition config_of (name : string) (merged : obj) : ChannelConfig :=
  {| cfg_name := name; cfg_path := name ++ ".yaml"; raw := merged; merged := merged;
     schemaUrl := match obj_get "$schema" merged with Some (JStr s) => Some s | _ => None end;
     id := match obj_get "id" merged with Some (JStr s) => Some s | _ => None end;
     inheritsFromRoot := false |}.

(** A project whose validation passes, with the given local channels
    (already loaded), no secret placeholder, a token in the environment
    and the given remote store. *)
Definition example_world (locals : list Channel) (remote : ConfigurationApiClient) : World :=
  {| validateProject := λ _, Ok {| valid := true; vr_channels := [] |};
     discoverChannels :=
       Ok (map (λ ch, {| ch_name := ch_name ch; ch_path := ch_path ch; ch_configs := [] |})
               locals);
     loadChannelConfigs := λ channel,
       Ok (default [] (ch_configs <$>
             find (λ ch, bool_decide (ch_name ch = ch_name channel)) locals));
     getEnvironment := Ok {[ "NCOCTL_API_TOKEN" := "secret" ]};
     substituteSecrets := λ config _, Ok config;
     client := remote;
     now := "2026-01-30T12:00:00.000Z" |}.

Definition example_config : ProjectConfig :=
  {| pc_merchant := "acme"; api_baseUrl := "https://acme.api-se.norce.tech/checkout/configuration";
     api_token := None |}.

Definition local_channel (name : string) (configs : list ChannelConfig) : Channel :=
  {| ch_name := name; ch_path := "/project/" ++ name; ch_configs := configs |}.

Definition remote_channel (name : string) : RemoteChannel :=
  {| rc_name := name; displayName := None |}.

(** ** Vocabulary of the further properties *)


(** The overlay sets key [k] to [null]. *)
Definition nulled_by (overlay : obj) (k : string) : bool :=
  match obj_get k overlay with
  | Some JNull => true
  | _ => false
  end.

(** No object of the value, at any depth, has the empty string as a key
    (the one key the [deep-diff] package passes over). *)
Fixpoint no_empty_key (v : json) : bool :=
  match v with
  | JArr items => forallb no_empty_key items
  | JObj fields =>
      negb (bool_decide ("" ∈ fields.*1)) && forallb (λ kv, no_empty_key kv.2) fields
  | _ => true
  end.

(** What a [FieldDiff] must carry for its type (plan/types.ts). *)
Definition field_diff_ok (fd : FieldDiff) : Prop :=
  match type fd with
  | add => oldValue fd = None ∧ is_Some (newValue fd)
  | remove => is_Some (oldValue fd) ∧ newValue fd = None
  | change => is_Some (oldValue fd) ∧ is_Some (newValue fd)
  end.

(** No object map of the value, at any depth outside arrays, holds a
    [null] field. *)
Fixpoint no_null_field (v : json) : bool :=
  match v with
  | JObj fields =>
      forallb (λ kv, negb (json_eqb kv.2 JNull) && no_null_field kv.2) fields
  | _ => true
  end.

(** A value that is neither an array nor an object. *)
Definition is_scalar (v : json) : bool :=
  match v with
  | JArr _ | JObj _ => false
  | _ => true
  end.

(** The [remove] entry of a top-level key. *)
Definition remove_of (kv : string * json) : FieldDiff :=
  {| path := "/" ++ kv.1; type := remove; oldValue := Some kv.2; newValue := None |}.

(** The same run against another remote store. *)
Definition with_client (w : World) (c : ConfigurationApiClient) : World :=
  {| validateProject := validateProject w; discoverChannels := discoverChannels w;
     loadChannelConfigs := loadChannelConfigs w; getEnvironment := getEnvironment w;
     substituteSecrets := substituteSecrets w; client := c; now := now w |}.

(** The same run with the substitution of secrets/substitute.ts. *)
Definition with_secrets (w : World) (prototype_text : string → string) : World :=
  {| validateProject := validateProject w; discoverChannels := discoverChannels w;
     loadChannelConfigs := loadChannelConfigs w; getEnvironment := getEnvironment w;
     substituteSecrets := Secrets.substituteSecrets prototype_text;
     client := client w; now := now w |}.

(** A comparison status with the two channels exchanged. *)
Definition swap_status (s : CompareService.compare_status) : CompareService.compare_status :=
  match s with
  | CompareService.only_in_a => CompareService.only_in_b
  | CompareService.only_in_b => CompareService.only_in_a
  | s => s
  end.

(** * Properties *)

(** ** Objects *)

Lemma json_eqb_spec (a b : json) : json_eqb a b = true ↔ a = b.
Proof.
  revert b. induction a as [| | | |xs IH|xs IH] using json_ind';
    intros [| | | |ys|ys]; simpl; try (split; [done | congruence]);
    try (rewrite bool_decide_eq_true; split; congruence).
  - revert ys. induction IH as [|x xs' Hx _ IHxs]; intros [|y ys']; try (split; [done | congruence]).
    rewrite andb_true_iff, Hx. specialize (IHxs ys'). split.
    + intros [-> H2]. apply IHxs in H2. congruence.
    + intros [= -> ->]. split; [done|]. apply IHxs. done.
  - revert ys. induction IH as [|[k x] xs' Hx _ IHxs]; intros [|[k' y] ys']; try (split; [done | congruence]).
    simpl in Hx. rewrite !andb_true_iff, bool_decide_eq_true, Hx. specialize (IHxs ys'). split.
    + intros [[-> ->] H2]. apply IHxs in H2. congruence.
    + intros [= -> -> ->]. split; [done|]. apply IHxs. done.
Qed.

Lemma json_eqb_refl (a : json) : json_eqb a a = true.
Proof. by apply json_eqb_spec. Qed.

Lemma json_eqb_null (v : json) : json_eqb v JNull = true ↔ v = JNull.
Proof. apply json_eqb_spec. Qed.

Lemma obj_get_None (k : string) (o : obj) : obj_get k o = None ↔ k ∉ obj_keys o.
Proof.
  unfold obj_keys. induction o as [|[k' v] o IH]; simpl.
  - split; [intros _; apply not_elem_of_nil | done].
  - rewrite not_elem_of_cons. destruct (decide (k' = k)) as [->|Hne].
    + split; [done | intros [? _]; done].
    + rewrite IH. split; [intros ?; split; [congruence | done] | intros [_ ?]; done].
Qed.

Lemma obj_has_get (k : string) (o : obj) : obj_has k o = true ↔ is_Some (obj_get k o).
Proof.
  unfold obj_has. rewrite bool_decide_eq_true, <- not_eq_None_Some, obj_get_None.
  split; [tauto | apply dec_stable].
Qed.

Lemma obj_has_false (k : string) (o : obj) : obj_has k o = false ↔ obj_get k o = None.
Proof.
  unfold obj_has. rewrite bool_decide_eq_false, obj_get_None. done.
Qed.

Lemma obj_get_elem_of (k : string) (v : json) (o : obj) :
  obj_get k o = Some v → (k, v) ∈ o.
Proof.
  induction o as [|[k' v'] o IH]; simpl; [done|].
  destruct (decide (k' = k)) as [->|Hne].
  - intros [= ->]. apply list_elem_of_here.
  - intros H. apply list_elem_of_further. eauto.
Qed.

Lemma obj_get_NoDup (k : string) (v : json) (o : obj) :
  NoDup (obj_keys o) → (k, v) ∈ o → obj_get k o = Some v.
Proof.
  unfold obj_keys. induction o as [|[k' v'] o IH]; simpl; intros Hnd Hin.
  - by apply elem_of_nil in Hin.
  - apply NoDup_cons in Hnd as [Hk' Hnd]. apply elem_of_cons in Hin as [[= -> ->]|Hin].
    + by rewrite decide_True.
    + destruct (decide (k' = k)) as [->|Hne]; [|eauto].
      exfalso. apply Hk'. apply list_elem_of_fmap. by exists (k, v).
Qed.

Lemma obj_get_set (k key : string) (value : json) (o : obj) :
  obj_get k (obj_set key value o) = if decide (key = k) then Some value else obj_get k o.
Proof.
  induction o as [|[k' v'] o IH]; simpl.
  - done.
  - destruct (decide (k' = key)) as [->|Hne]; simpl.
    + destruct (decide (key = k)); done.
    + rewrite IH. destruct (decide (k' = k)) as [->|]; [|done].
      by rewrite decide_False.
Qed.

Lemma obj_keys_set (key : string) (value : json) (o : obj) :
  obj_keys (obj_set key value o)
  = if bool_decide (key ∈ obj_keys o) then obj_keys o else (obj_keys o ++ [key])%list.
Proof.
  unfold obj_keys. induction o as [|[k' v'] o IH]; [done|]. csimpl.
  - destruct (decide (k' = key)) as [->|Hne]; csimpl.
    + rewrite bool_decide_eq_true_2; [done | apply list_elem_of_here].
    + rewrite IH. destruct (bool_decide (key ∈ o.*1)) eqn:E.
      * apply bool_decide_eq_true in E. rewrite bool_decide_eq_true_2; [done|].
        by apply list_elem_of_further.
      * apply bool_decide_eq_false in E. rewrite bool_decide_eq_false_2; [done|].
        rewrite not_elem_of_cons. split; [congruence | done].
Qed.

Lemma obj_set_NoDup (key : string) (value : json) (o : obj) :
  NoDup (obj_keys o) → NoDup (obj_keys (obj_set key value o)).
Proof.
  intros Hnd. rewrite obj_keys_set. case_bool_decide as Hin; [done|].
  apply NoDup_app. split_and!; [done | | apply NoDup_singleton].
  intros x Hx Hx'. apply list_elem_of_singleton in Hx'. by subst.
Qed.

Lemma obj_set_fresh (key : string) (value : json) (o : obj) :
  key ∉ obj_keys o → obj_set key value o = (o ++ [(key, value)])%list.
Proof.
  unfold obj_keys. induction o as [|[k' v'] o IH]; simpl; [done|].
  rewrite not_elem_of_cons. intros [Hne Hin].
  rewrite decide_False by congruence. by rewrite IH.
Qed.

Lemma wf_obj_NoDup (o : obj) : wf_obj o = true → NoDup (obj_keys o).
Proof.
  unfold wf_obj. simpl. rewrite andb_true_iff, bool_decide_eq_true. by intros [? _].
Qed.

Lemma wf_obj_values (o : obj) : wf_obj o = true → Forall (λ kv, wf_json kv.2 = true) o.
Proof.
  unfold wf_obj. simpl. rewrite andb_true_iff, forallb_forall.
  intros [_ H]. apply Forall_forall. intros x Hx. apply H. by apply list_elem_of_In.
Qed.

Lemma wf_obj_get (k : string) (v : json) (o : obj) :
  wf_obj o = true → obj_get k o = Some v → wf_json v = true.
Proof.
  intros Hwf Hget. apply obj_get_elem_of in Hget.
  apply wf_obj_values in Hwf. rewrite Forall_forall in Hwf. by apply (Hwf (k, v)).
Qed.

Lemma wf_obj_intro (o : obj) :
  NoDup (obj_keys o) → Forall (λ kv, wf_json kv.2 = true) o → wf_obj o = true.
Proof.
  intros Hnd Hall. unfold wf_obj. simpl. rewrite andb_true_iff, bool_decide_eq_true.
  split; [done|]. apply forallb_forall. intros x Hx.
  rewrite Forall_forall in Hall. apply Hall. by apply list_elem_of_In.
Qed.

(** ** Merge

    The merge on plain keys, [merge_own], key by key. *)

Lemma clone_fields (clone : json → json) (fields acc : obj) :
  Forall (λ kv, clone kv.2 = kv.2) fields →
  NoDup (obj_keys acc ++ obj_keys fields) →
  foldl (λ result '(key, val), obj_set key (clone val) result) acc fields
  = (acc ++ fields)%list.
Proof.
  revert acc. induction fields as [|[k v] fields IH]; intros acc Hall Hnd; simpl.
  - by rewrite app_nil_r.
  - apply Forall_cons in Hall as [Hv Hall]. simpl in Hv. rewrite Hv.
    unfold obj_keys in *. csimpl in Hnd.
    rewrite obj_set_fresh.
    + rewrite IH; [by rewrite <- app_assoc | done |].
      unfold obj_keys. rewrite fmap_app. csimpl. by rewrite <- app_assoc.
    + apply NoDup_app in Hnd as (_ & Hdisj & _). intros Hin.
      apply (Hdisj k Hin). apply list_elem_of_here.
Qed.

(** On a well-formed value the clone is structurally the value itself. *)
Lemma cloneValue_id (v : json) : wf_json v = true → clone_own v = v.
Proof.
  induction v as [| | | |items IH|fields IH] using json_ind'; simpl; try done.
  - intros Hwf. f_equal. rewrite forallb_forall in Hwf.
    induction IH as [|x items Hx _ IHitems]; [done|]. simpl. f_equal.
    + apply Hx, Hwf. by left.
    + apply IHitems. intros y Hy. apply Hwf. by right.
  - rewrite andb_true_iff, bool_decide_eq_true, forallb_forall. intros [Hnd Hall].
    f_equal. rewrite clone_fields; [done | | done].
    apply Forall_forall. intros kv Hkv. rewrite Forall_forall in IH.
    apply IH; [done|]. apply Hall. by apply list_elem_of_In.
Qed.

(** What the first loop of [merge_own] leaves under each key. *)
Lemma deepMerge_first_loop (mv : json → json → json) (overlay base acc : obj) (k : string) :
  NoDup (obj_keys base) →
  obj_get k
    (foldl (λ result '(key, baseValue),
              match obj_get key overlay with
              | Some JNull => result
              | None => obj_set key (clone_own baseValue) result
              | Some overlayValue => obj_set key (mv baseValue overlayValue) result
              end) acc base)
  = match obj_get k base with
    | None => obj_get k acc
    | Some baseValue =>
        match obj_get k overlay with
        | Some JNull => obj_get k acc
        | None => Some (clone_own baseValue)
        | Some overlayValue => Some (mv baseValue overlayValue)
        end
    end.
Proof.
  unfold obj_keys. revert acc. induction base as [|[k0 v0] base IH]; intros acc Hnd; [done|].
  csimpl in *. apply NoDup_cons in Hnd as [Hk0 Hnd]. rewrite IH by done.
  destruct (decide (k0 = k)) as [->|Hne].
  - assert (obj_get k base = None) as -> by by apply obj_get_None.
    destruct (obj_get k overlay) as [[]|]; by rewrite ?obj_get_set, ?decide_True.
  - destruct (obj_get k0 overlay) as [[]|]; by rewrite ?obj_get_set, ?decide_False.
Qed.

Lemma deepMerge_first_loop_NoDup (mv : json → json → json) (overlay base acc : obj) :
  NoDup (obj_keys acc) →
  NoDup (obj_keys
    (foldl (λ result '(key, baseValue),
              match obj_get key overlay with
              | Some JNull => result
              | None => obj_set key (clone_own baseValue) result
              | Some overlayValue => obj_set key (mv baseValue overlayValue) result
              end) acc base)).
Proof.
  revert acc. induction base as [|[k0 v0] base IH]; intros acc Hnd; [done|].
  simpl. apply IH. destruct (obj_get k0 overlay) as [[]|]; by try apply obj_set_NoDup.
Qed.

(** What the second loop adds. *)
Lemma deepMerge_second_loop (overlay acc : obj) (k : string) :
  NoDup (obj_keys overlay) →
  obj_get k
    (foldl (λ result '(key, overlayValue),
              if obj_has key result then result
              else if json_eqb overlayValue JNull then result
              else obj_set key (clone_own overlayValue) result) acc overlay)
  = match obj_get k acc with
    | Some v => Some v
    | None =>
        match obj_get k overlay with
        | Some JNull | None => None
        | Some overlayValue => Some (clone_own overlayValue)
        end
    end.
Proof.
  unfold obj_keys. revert acc. induction overlay as [|[k0 v0] overlay IH]; intros acc Hnd.
  - simpl. by destruct (obj_get k acc).
  - csimpl in *. apply NoDup_cons in Hnd as [Hk0 Hnd]. rewrite IH by done.
    destruct (obj_has k0 acc) eqn:Hhas.
    + destruct (obj_get k acc) as [v|] eqn:Hacc; [done|].
      destruct (decide (k0 = k)) as [->|Hne]; [|done].
      apply obj_has_get in Hhas as [? ?]. congruence.
    + apply obj_has_false in Hhas.
      destruct (json_eqb v0 JNull) eqn:Hnull.
      * apply json_eqb_null in Hnull as ->.
        destruct (obj_get k acc) as [v|] eqn:Hacc; [done|].
        destruct (decide (k0 = k)) as [->|Hne]; [|done].
        assert (obj_get k overlay = None) as -> by by apply obj_get_None. done.
      * rewrite obj_get_set. destruct (decide (k0 = k)) as [->|Hne].
        -- rewrite Hhas. destruct v0; try done.
        -- done.
Qed.

Lemma deepMerge_second_loop_NoDup (overlay acc : obj) :
  NoDup (obj_keys acc) →
  NoDup (obj_keys
    (foldl (λ result '(key, overlayValue),
              if obj_has key result then result
              else if json_eqb overlayValue JNull then result
              else obj_set key (clone_own overlayValue) result) acc overlay)).
Proof.
  revert acc. induction overlay as [|[k0 v0] overlay IH]; intros acc Hnd; [done|].
  simpl. apply IH. destruct (obj_has k0 acc); [done|].
  destruct (json_eqb v0 JNull); [done|]. by apply obj_set_NoDup.
Qed.

(** The value [merge_own] leaves under every key. *)
Lemma deepMerge_body_get (mv : json → json → json) (base overlay : obj) (k : string) :
  NoDup (obj_keys base) → NoDup (obj_keys overlay) →
  obj_get k (merge_own_body mv base overlay)
  = match obj_get k overlay with
    | None => clone_own <$> obj_get k base
    | Some JNull => None
    | Some overlayValue =>
        match obj_get k base with
        | None => Some (clone_own overlayValue)
        | Some baseValue => Some (mv baseValue overlayValue)
        end
    end.
Proof.
  intros Hb Ho. unfold merge_own_body.
  rewrite deepMerge_second_loop, deepMerge_first_loop by done. simpl.
  destruct (obj_get k base) as [bv|], (obj_get k overlay) as [[]|]; done.
Qed.

Lemma deepMerge_body_NoDup (mv : json → json → json) (base overlay : obj) :
  NoDup (obj_keys (merge_own_body mv base overlay)).
Proof.
  unfold merge_own_body. apply deepMerge_second_loop_NoDup, deepMerge_first_loop_NoDup.
  apply NoDup_nil_2.
Qed.

Lemma mergeValues_eq (base overlay : json) :
  merge_own_values base overlay
  = if negb (bool_decide (typeof base = typeof overlay)) then clone_own overlay
    else if isArray base || isArray overlay then clone_own overlay
    else match base, overlay with
         | JObj b, JObj o => JObj (merge_own b o)
         | _, _ => overlay
         end.
Proof. by destruct base. Qed.

Lemma deepMerge_ref_keys (base overlay : obj) :
  wf_obj base = true → wf_obj overlay = true →
  Forall (λ kv, ∀ o, wf_json kv.2 = true → wf_json o = true →
                     merge_ref_value kv.2 o (merge_own_values kv.2 o)) base →
  merge_ref base overlay (merge_own base overlay).
Proof.
  intros Hb Ho IH.
  pose proof (wf_obj_NoDup _ Hb) as Hndb. pose proof (wf_obj_NoDup _ Ho) as Hndo.
  split; [apply deepMerge_body_NoDup|].
  intros k. unfold merge_own. rewrite deepMerge_body_get by done.
  destruct (obj_get k overlay) as [ov|] eqn:Hov.
  - pose proof (wf_obj_get _ _ _ Ho Hov) as Hwfo.
    destruct (json_eqb ov JNull) eqn:Hnn; [apply json_eqb_null in Hnn as ->; apply ref_null|].
    assert (ov ≠ JNull) by (intros ->; by rewrite json_eqb_refl in Hnn).
    destruct (obj_get k base) as [bv|] eqn:Hbv.
    + pose proof (wf_obj_get _ _ _ Hb Hbv) as Hwfb.
      assert (merge_ref_key merge_ref_value (Some bv) (Some ov) (Some (merge_own_values bv ov))).
      { apply ref_both; [done|]. rewrite Forall_forall in IH.
        apply (IH (k, bv)); [by apply obj_get_elem_of | done | done]. }
      by destruct ov.
    + rewrite cloneValue_id by done.
      assert (merge_ref_key merge_ref_value None (Some ov) (Some ov))
        by by apply ref_absent_from_base.
      by destruct ov.
  - destruct (obj_get k base) as [bv|] eqn:Hbv; simpl.
    + rewrite cloneValue_id by eauto using wf_obj_get. apply ref_absent_from_overlay.
    + apply ref_absent_from_overlay.
Qed.

Lemma mergeValues_ref (base : json) :
  ∀ overlay, wf_json base = true → wf_json overlay = true →
  merge_ref_value base overlay (merge_own_values base overlay).
Proof.
  induction base as [| | | |items IH|fields IH] using json_ind';
    intros overlay Hb Ho; rewrite mergeValues_eq;
    (case_bool_decide as Hty; simpl negb; cbv iota;
      [| rewrite cloneValue_id by done; by apply ref_type_mismatch]);
    (destruct (isArray _ || isArray overlay) eqn:Harr;
      [ rewrite cloneValue_id by done; apply ref_sequence; [done|];
        apply orb_true_iff in Harr; tauto |]);
    apply orb_false_iff in Harr as [Ha1 Ha2];
    try (destruct overlay; apply ref_scalar; simpl in *; tauto).
  destruct overlay as [| | | |oitems|ofields];
    try (apply ref_scalar; simpl in *; tauto).
  destruct (deepMerge_ref_keys fields ofields Hb Ho) as [Hnd Hkeys].
  { eapply Forall_impl; [apply IH|]. simpl. eauto. }
  by apply ref_recurse.
Qed.

(** ** The merge on plain keys

    On objects whose keys are plain the code never meets
    [Object.prototype]: it computes [merge_own]. *)

Lemma foldl_ext_in {A B} (f g : B → A → B) (l : list A) (acc : B) :
  (∀ b a, a ∈ l → f b a = g b a) → foldl f acc l = foldl g acc l.
Proof.
  revert acc. induction l as [|a l IH]; intros acc Hfg; [done|]. cbn [foldl].
  rewrite (Hfg acc a) by apply list_elem_of_here.
  apply IH. intros b a' Ha'. apply Hfg. by apply list_elem_of_further.
Qed.

Lemma foldl_Value {A B} (f : outcome B → A → outcome B) (g : B → A → B)
    (l : list A) (acc : B) :
  (∀ b a, a ∈ l → f (Value b) a = Value (g b a)) →
  foldl f (Value acc) l = Value (foldl g acc l).
Proof.
  revert acc. induction l as [|a l IH]; intros acc Hfg; [done|]. cbn [foldl].
  rewrite (Hfg acc a) by apply list_elem_of_here.
  apply IH. intros b a' Ha'. apply Hfg. by apply list_elem_of_further.
Qed.

Lemma assign_ordinary (key : string) (value : json) (o : obj) :
  key ≠ "__proto__" → array_index key = None → assign key value o = obj_set key value o.
Proof.
  intros Hproto Hindex. unfold assign. rewrite bool_decide_eq_false_2 by done.
  destruct (obj_has key o) eqn:Hhas; [done|]. rewrite Hindex.
  symmetry. apply obj_set_fresh. by apply bool_decide_eq_false in Hhas.
Qed.

Lemma ordinary_keys_field (fields : obj) (k : string) (x : json) :
  ordinary_keys (JObj fields) = true → (k, x) ∈ fields →
  k ≠ "__proto__" ∧ array_index k = None ∧ ordinary_keys x = true.
Proof.
  cbn [ordinary_keys]. rewrite forallb_forall. intros Hall Hin.
  specialize (Hall (k, x) (proj1 (list_elem_of_In _ _) Hin)). cbn [fst snd] in Hall.
  apply andb_true_iff in Hall as [[Hproto Hindex]%andb_true_iff Hx].
  apply negb_true_iff, bool_decide_eq_false in Hproto, Hindex.
  split_and!; [done | | done]. by apply eq_None_not_Some.
Qed.

Lemma plain_keys_field (fields : obj) (k : string) (x : json) :
  plain_keys (JObj fields) = true → (k, x) ∈ fields →
  (k ∉ object_prototype_members) ∧ k ≠ "__proto__" ∧ array_index k = None
  ∧ plain_keys x = true.
Proof.
  cbn [plain_keys]. rewrite forallb_forall. intros Hall Hin.
  specialize (Hall (k, x) (proj1 (list_elem_of_In _ _) Hin)). cbn [fst snd] in Hall.
  apply andb_true_iff in Hall as [[Hproto Hindex]%andb_true_iff Hx].
  apply negb_true_iff, bool_decide_eq_false in Hproto, Hindex.
  split_and!; [done | | by apply eq_None_not_Some | done].
  intros ->. apply Hproto. unfold object_prototype_members.
  repeat (first [apply list_elem_of_here | apply list_elem_of_further]).
Qed.

Lemma plain_keys_ordinary (v : json) : plain_keys v = true → ordinary_keys v = true.
Proof.
  induction v as [| | | |items IH|fields IH] using json_ind'; try done.
  - cbn [plain_keys ordinary_keys]. rewrite !forallb_forall. intros Hall x Hx.
    rewrite Forall_forall in IH. apply IH; [by apply list_elem_of_In | by apply Hall].
  - intros Hplain. cbn [ordinary_keys]. apply forallb_forall. intros [k x] Hin.
    apply list_elem_of_In in Hin.
    destruct (plain_keys_field fields k x Hplain Hin) as (_ & Hproto & Hindex & Hx).
    rewrite Forall_forall in IH. pose proof (IH (k, x) Hin Hx) as Hx'.
    cbn [fst snd] in *.
    rewrite (bool_decide_eq_false_2 _ Hproto), Hindex, Hx'.
    by rewrite bool_decide_eq_false_2 by (by intros [? ?]).
Qed.

Lemma cloneValue_ordinary (v : json) : ordinary_keys v = true → cloneValue v = clone_own v.
Proof.
  induction v as [| | | |items IH|fields IH] using json_ind'; intros Hk; try done.
  - cbn [cloneValue clone_own]. f_equal.
    cbn [ordinary_keys] in Hk. rewrite forallb_forall in Hk. rewrite Forall_forall in IH.
    apply map_ext_in. intros x Hx. apply IH; [by apply list_elem_of_In | by apply Hk].
  - cbn [cloneValue clone_own]. f_equal. apply foldl_ext_in. intros acc [k x] Hin.
    destruct (ordinary_keys_field fields k x Hk Hin) as (Hproto & Hindex & Hx).
    rewrite Forall_forall in IH. pose proof (IH (k, x) Hin Hx) as Hx'.
    cbn [snd] in Hx'. rewrite Hx'. by apply assign_ordinary.
Qed.

Lemma mergeValues_unfold (base overlay : json) :
  mergeValues base overlay
  = if negb (bool_decide (typeof base = typeof overlay)) then Value (cloneValue overlay)
    else if isArray base || isArray overlay then Value (cloneValue overlay)
    else match base, overlay with
         | JObj b, JObj o => JObj <$> deepMerge b o
         | _, _ => Value overlay
         end.
Proof. by destruct base. Qed.

Lemma deepMerge_body_plain (mv : json → json → outcome json) (mv' : json → json → json)
    (base overlay : obj) :
  plain_keys (JObj base) = true → plain_keys (JObj overlay) = true →
  (∀ k bv ov, (k, bv) ∈ base → plain_keys ov = true → mv bv ov = Value (mv' bv ov)) →
  deepMerge_body mv base overlay = Value (merge_own_body mv' base overlay).
Proof.
  intros Hb Ho Hmv. unfold deepMerge_body, merge_own_body.
  rewrite (foldl_Value _
             (λ result '(key, baseValue),
                match obj_get key overlay with
                | Some JNull => result
                | None => obj_set key (clone_own baseValue) result
                | Some overlayValue => obj_set key (mv' baseValue overlayValue) result
                end)).
  - change (Value ?a ≫= ?k) with (k a). cbv beta. f_equal.
    apply foldl_ext_in. intros result [k ov] Hin.
    destruct (plain_keys_field overlay k ov Ho Hin) as (Hmember & Hproto & Hindex & Hov).
    unfold in_object. rewrite (bool_decide_eq_false_2 _ Hmember), orb_false_r.
    destruct (obj_has k result); [done|]. destruct (json_eqb ov JNull); [done|].
    rewrite cloneValue_ordinary by by apply plain_keys_ordinary.
    by apply assign_ordinary.
  - intros result [k bv] Hin.
    destruct (plain_keys_field base k bv Hb Hin) as (Hmember & Hproto & Hindex & Hbv).
    change (Value result ≫= ?f) with (f result). cbv beta.
    destruct (obj_get k overlay) as [ov|] eqn:Hget.
    + apply obj_get_elem_of in Hget.
      destruct (plain_keys_field overlay k ov Ho Hget) as (_ & _ & _ & Hov).
      assert (∀ merged : json,
                (if bool_decide (k = "__proto__") && bool_decide (typeof merged = TObject)
                 then Escapes else Value (assign k merged result))
                = Value (obj_set k merged result)) as Hassign.
      { intros merged. rewrite (bool_decide_eq_false_2 _ Hproto). cbn [andb].
        f_equal. by apply assign_ordinary. }
      destruct ov; [done | ..]; rewrite (Hmv k bv _ Hin Hov);
        change (Value ?a ≫= ?f) with (f a); cbv beta; apply Hassign.
    + rewrite (bool_decide_eq_false_2 _ Hmember). f_equal.
      rewrite cloneValue_ordinary by by apply plain_keys_ordinary.
      by apply assign_ordinary.
Qed.

Lemma mergeValues_plain (base overlay : json) :
  plain_keys base = true → plain_keys overlay = true →
  mergeValues base overlay = Value (merge_own_values base overlay).
Proof.
  revert overlay.
  induction base as [| | | |items IH|fields IH] using json_ind'; intros overlay Hb Ho;
    rewrite mergeValues_unfold, mergeValues_eq;
    try (repeat case_match; try done;
         by rewrite cloneValue_ordinary by by apply plain_keys_ordinary).
  destruct (negb (bool_decide (typeof (JObj fields) = typeof overlay)));
    [by rewrite cloneValue_ordinary by by apply plain_keys_ordinary|].
  destruct (isArray (JObj fields) || isArray overlay);
    [by rewrite cloneValue_ordinary by by apply plain_keys_ordinary|].
  destruct overlay as [| | | | |ofields]; try done.
  unfold deepMerge, merge_own.
  rewrite (deepMerge_body_plain mergeValues merge_own_values fields ofields Hb Ho); [done|].
  intros k bv ov Hin Hov. rewrite Forall_forall in IH.
  apply (IH (k, bv) Hin); [|done].
  by destruct (plain_keys_field fields k bv Hb Hin) as (_ & _ & _ & ?).
Qed.

(** On plain keys [deepMerge] stays inside the data model, and what it
    gives is [merge_own]. *)
Lemma deepMerge_plain (base overlay : obj) :
  plain_keys (JObj base) = true → plain_keys (JObj overlay) = true →
  deepMerge base overlay = Value (merge_own base overlay).
Proof.
  intros Hb Ho. apply deepMerge_body_plain; [done | done |].
  intros k bv ov Hin Hov. apply mergeValues_plain; [|done].
  by destruct (plain_keys_field base k bv Hb Hin) as (_ & _ & _ & ?).
Qed.

(** ** Diff *)

Lemma filter_concat {A} (P : A → Prop) `{∀ x, Decision (P x)} (ls : list (list A)) :
  filter P (concat ls) = concat (map (filter P) ls).
Proof.
  induction ls as [|l ls IH]; [done|]. simpl. by rewrite filter_app, IH.
Qed.

Lemma concat_nil_Forall {A} (ls : list (list A)) :
  Forall (λ l, l = []) ls → concat ls = [].
Proof. induction 1 as [|l ls -> _ IH]; [done|]. done. Qed.

Lemma elem_of_concat {A} (x : A) (ls : list (list A)) :
  x ∈ concat ls ↔ ∃ l, l ∈ ls ∧ x ∈ l.
Proof.
  rewrite list_elem_of_In, in_concat. split; intros (l & H1 & H2); exists l.
  - by rewrite !list_elem_of_In.
  - by rewrite <- !list_elem_of_In.
Qed.

(** [diff] answers [undefined] exactly when there is no change, which
    [diffConfigs] turns back into the empty list. *)
Lemma diffConfigs_eq (local remote : obj) :
  diffConfigs local remote
  = map convertDiff
      (filter (λ d, isRelevantDiff d = true)
              (DeepDiff.deepDiff (JObj remote) (JObj local) [])).
Proof.
  unfold diffConfigs, DeepDiff.diff.
  by destruct (DeepDiff.deepDiff (JObj remote) (JObj local) []).
Qed.

Lemma deepDiff_objects (l r : obj) (currentPath : list DeepDiff.seg) :
  DeepDiff.deepDiff (JObj l) (JObj r) currentPath
  = (concat (map (λ kx,
               match obj_get kx.1 r with
               | Some y => DeepDiff.deepDiff kx.2 y (currentPath ++ [DeepDiff.Key kx.1])
               | None => [DeepDiff.DiffDeleted (currentPath ++ [DeepDiff.Key kx.1]) kx.2]
               end) l)
     ++ concat (map (λ ky,
               if obj_has ky.1 l then []
               else if bool_decide (ky.1 = "") then []
               else [DeepDiff.DiffNew (currentPath ++ [DeepDiff.Key ky.1]) ky.2]) r))%list.
Proof. done. Qed.

(** Every change reported below [currentPath] carries a path that extends it. *)
Lemma deepDiff_path_prefix (lhs : json) :
  ∀ rhs currentPath d,
    d ∈ DeepDiff.deepDiff lhs rhs currentPath → currentPath `prefix_of` DeepDiff.path d.
Proof.
  induction lhs as [| | | |items IH|fields IH] using json_ind'; intros rhs p d;
    try (destruct rhs; simpl; repeat case_match;
         rewrite ?elem_of_nil, ?list_elem_of_singleton; try done; by intros ->).
  - destruct rhs as [| | | |ritems|rfields];
      try (simpl; rewrite list_elem_of_singleton; by intros ->).
    simpl. rewrite !elem_of_app, !elem_of_reverse. intros [Hd|[Hd|Hd]].
    + apply subseteq_drop, elem_of_lookup_imap in Hd as (i & y & -> & _). done.
    + apply subseteq_drop, elem_of_lookup_imap in Hd as (i & y & -> & _). done.
    + apply elem_of_concat in Hd as (ds & Hds & Hd). rewrite elem_of_reverse in Hds.
      apply elem_of_zip_with in Hds as (x & iy & -> & Hx & _).
      rewrite Forall_forall in IH. apply IH in Hd; [|done].
      etrans; [|apply Hd]. by apply prefix_app_r.
  - destruct rhs as [| | | |ritems|rfields];
      try (simpl; rewrite list_elem_of_singleton; by intros ->).
    rewrite deepDiff_objects, elem_of_app, !elem_of_concat.
    intros [(ds & Hds & Hd)|(ds & Hds & Hd)];
      apply list_elem_of_fmap in Hds as (kx & -> & Hkx).
    + destruct (obj_get kx.1 rfields) as [y|].
      * rewrite Forall_forall in IH. apply IH in Hd; [|done].
        etrans; [|apply Hd]. by apply prefix_app_r.
      * apply list_elem_of_singleton in Hd as ->. by apply prefix_app_r.
    + repeat case_match; try by apply elem_of_nil in Hd.
      apply list_elem_of_singleton in Hd as ->. by apply prefix_app_r.
Qed.

(** Below a non-empty path, relevance is decided by the path's first segment. *)
Lemma isRelevantDiff_below (lhs rhs : json) (s : DeepDiff.seg) (p : list DeepDiff.seg) :
  filter (λ d, isRelevantDiff d = true) (DeepDiff.deepDiff lhs rhs (s :: p))
  = if isRelevantDiff (DeepDiff.DiffEdit [s] JNull JNull)
    then DeepDiff.deepDiff lhs rhs (s :: p) else [].
Proof.
  assert (∀ d, d ∈ DeepDiff.deepDiff lhs rhs (s :: p) →
               isRelevantDiff d = isRelevantDiff (DeepDiff.DiffEdit [s] JNull JNull)) as Hrel.
  { intros d Hd. apply deepDiff_path_prefix in Hd as [q Hq].
    unfold isRelevantDiff. rewrite Hq. done. }
  induction (DeepDiff.deepDiff lhs rhs (s :: p)) as [|d ds IHds].
  - by case_match.
  - rewrite filter_cons. rewrite (Hrel d) by apply list_elem_of_here.
    rewrite IHds by (intros; apply Hrel; by apply list_elem_of_further).
    by destruct (isRelevantDiff (DeepDiff.DiffEdit [s] JNull JNull)).
Qed.

Lemma obj_get_without_schema (k : string) (o : obj) :
  k ≠ "$schema" → obj_get k (without_schema o) = obj_get k o.
Proof.
  intros Hk. unfold without_schema. induction o as [|[k' v] o IH]; [done|].
  rewrite filter_cons. simpl. destruct (decide (k' ≠ "$schema")) as [Hk'|Hk']; simpl.
  - by rewrite IH.
  - apply dec_stable in Hk'. subst k'. by rewrite decide_False.
Qed.

Lemma obj_has_without_schema (k : string) (o : obj) :
  k ≠ "$schema" → obj_has k (without_schema o) = obj_has k o.
Proof.
  intros Hk. destruct (obj_has k o) eqn:E.
  - apply obj_has_get. rewrite obj_get_without_schema by done. by apply obj_has_get.
  - apply obj_has_false. rewrite obj_get_without_schema by done. by apply obj_has_false.
Qed.

Lemma differ_only_in_schema_without (a b : obj) :
  differ_only_in_schema a b →
  ∀ k, option_Forall2 json_equiv (obj_get k (without_schema a)) (obj_get k (without_schema b)).
Proof.
  intros Hab k. destruct (decide (k = "$schema")) as [->|Hk].
  - assert (∀ o, obj_get "$schema" (without_schema o) = None) as Hnone.
    { intros o. apply obj_get_None. unfold obj_keys, without_schema.
      intros ([k v] & Hk & Hin)%list_elem_of_fmap. simpl in Hk. subst k.
      by apply list_elem_of_filter in Hin as [Hne _]. }
    rewrite !Hnone. constructor.
  - rewrite !obj_get_without_schema by done. by apply Hab.
Qed.

Lemma without_schema_NoDup (o : obj) :
  NoDup (obj_keys o) → NoDup (obj_keys (without_schema o)).
Proof.
  unfold obj_keys, without_schema. induction o as [|[k v] o IH]; [done|].
  csimpl. intros [Hk Hnd]%NoDup_cons. rewrite filter_cons. case_decide; [|by apply IH].
  csimpl. apply NoDup_cons. split; [|by apply IH].
  intros (kv & Hkv & Hin)%list_elem_of_fmap. apply list_elem_of_filter in Hin as [_ Hin].
  apply Hk. apply list_elem_of_fmap. by exists kv.
Qed.

Lemma without_schema_cons (k : string) (v : json) (o : obj) :
  without_schema ((k, v) :: o)
  = if decide (k = "$schema") then without_schema o else (k, v) :: without_schema o.
Proof.
  unfold without_schema. rewrite filter_cons. simpl.
  destruct (decide (k = "$schema")) as [->|Hk].
  - by rewrite decide_False by (intros H; by apply H).
  - by rewrite decide_True.
Qed.

Lemma isRelevantDiff_key (d : DeepDiff.change) (k : string) (p : list DeepDiff.seg) :
  DeepDiff.path d = DeepDiff.Key k :: p → k ≠ "$schema" → isRelevantDiff d = true.
Proof.
  intros Hp Hk. unfold isRelevantDiff. rewrite Hp. by rewrite bool_decide_eq_false_2.
Qed.

(** The changes [isRelevantDiff] keeps are the changes between the two
    objects once their [$schema] entries are taken away. *)
Lemma relevant_changes (l r : obj) :
  filter (λ d, isRelevantDiff d = true) (DeepDiff.deepDiff (JObj l) (JObj r) [])
  = DeepDiff.deepDiff (JObj (without_schema l)) (JObj (without_schema r)) [].
Proof.
  rewrite !deepDiff_objects, filter_app, !filter_concat. f_equal.
  - generalize (without_schema r) (λ k, obj_get_without_schema k r). intros r' Hr'.
    induction l as [|[k x] l IH]; [done|].
    rewrite without_schema_cons, !map_cons, concat_cons, IH.
    destruct (decide (k = "$schema")) as [->|Hk]; cbn [fst snd app].
    + destruct (obj_get "$schema" r) as [y|]; [|done].
      by rewrite isRelevantDiff_below.
    + rewrite map_cons, concat_cons. cbn [fst snd app]. f_equal.
      rewrite Hr' by done. destruct (obj_get k r) as [y|].
      * rewrite isRelevantDiff_below. by rewrite (isRelevantDiff_key _ k []).
      * rewrite filter_cons, decide_True; [done|]. by apply (isRelevantDiff_key _ k []).
  - generalize (without_schema l) (λ k, obj_has_without_schema k l). intros l' Hl'.
    induction r as [|[k y] r IH]; [done|].
    rewrite without_schema_cons, !map_cons, concat_cons, IH.
    destruct (decide (k = "$schema")) as [->|Hk]; cbn [fst snd app].
    + destruct (obj_has "$schema" l); [done|]. done.
    + rewrite map_cons, concat_cons. cbn [fst snd app]. f_equal.
      rewrite Hl' by done.
      destruct (obj_has k l); [done|]. case_bool_decide; [done|].
      rewrite filter_cons, decide_True; [done|]. by apply (isRelevantDiff_key _ k []).
Qed.

(** A well-formed value has no change against itself. *)
Lemma deepDiff_refl (v : json) :
  wf_json v = true → ∀ currentPath, DeepDiff.deepDiff v v currentPath = [].
Proof.
  induction v as [| | | |items IH|fields IH] using json_ind'; intros Hwf p;
    try (simpl; by rewrite ?bool_decide_eq_true_2).
  - simpl. rewrite !drop_ge by (by rewrite length_imap). simpl. apply concat_nil_Forall.
    apply Forall_forall. intros ds Hds. rewrite elem_of_reverse in Hds.
    simpl in Hwf. rewrite forallb_forall in Hwf.
    assert (∀ f : nat → json → nat * json, (∀ i y, (f i y).2 = y) →
              ds ∈ zip_with (λ x iy, DeepDiff.deepDiff x iy.2 (p ++ [DeepDiff.Idx iy.1]))
                     items (imap f items) → ds = []) as Hgen; [|by apply (Hgen pair)].
    clear Hds.
    induction IH as [|x items Hx _ IHitems]; intros f Hf; simpl.
    + by intros ?%elem_of_nil.
    + intros [->|Hin]%elem_of_cons.
      * rewrite Hf. apply Hx. apply Hwf. by left.
      * eapply IHitems; [|by intros; apply Hf | done].
        intros y Hy. apply Hwf. by right.
  - rewrite deepDiff_objects.
    pose proof (wf_obj_NoDup _ Hwf) as Hnd. pose proof (wf_obj_values _ Hwf) as Hvals.
    rewrite !concat_nil_Forall; [done | |].
    + apply Forall_forall. intros ds ([k y] & -> & Hin)%list_elem_of_fmap. simpl.
      assert (obj_has k fields = true) as ->; [|done].
      apply obj_has_get. erewrite obj_get_NoDup; done.
    + apply Forall_forall. intros ds ([k x] & -> & Hin)%list_elem_of_fmap. simpl.
      erewrite obj_get_NoDup by done.
      rewrite Forall_forall in IH, Hvals. apply (IH (k, x)); [done|]. by apply (Hvals (k, x)).
Qed.

Lemma json_equiv_refl (v : json) : json_equiv v v.
Proof.
  induction v as [| | | |items IH|fields IH] using json_ind'; try by constructor.
  - constructor. induction IH; by constructor.
  - constructor. intros k. destruct (obj_get k fields) as [v|] eqn:Hk; constructor.
    rewrite Forall_forall in IH. by apply (IH (k, v)), obj_get_elem_of.
Qed.

Lemma json_equiv_sym (v : json) : ∀ w, json_equiv v w → json_equiv w v.
Proof.
  induction v as [| | | |items IH|fields IH] using json_ind';
    intros w Heq; inversion Heq as [| | | |? ys Hall|? ys Hkeys]; subst;
    try by constructor.
  - constructor. clear Heq. revert IH.
    induction Hall as [|x y items ys Hxy _ IHall]; intros IH; [constructor|].
    apply Forall_cons in IH as [Hx IH]. constructor; [by apply Hx | by apply IHall].
  - constructor. intros k. specialize (Hkeys k).
    inversion Hkeys as [x y Hxy Hx Hy|]; constructor.
    rewrite Forall_forall in IH. apply (IH (k, x)); [|done].
    by apply obj_get_elem_of.
Qed.

(** No change either between two well-formed values that are equal up to
    the order of object keys. *)
Lemma deepDiff_equiv (lhs : json) :
  ∀ rhs currentPath, wf_json lhs = true → wf_json rhs = true → json_equiv lhs rhs →
                     DeepDiff.deepDiff lhs rhs currentPath = [].
Proof.
  induction lhs as [| | | |items IH|fields IH] using json_ind';
    intros rhs p Hl Hr Heq; inversion Heq as [| | | |? ys Hall|? ys Hkeys]; subst;
    try (simpl; by rewrite ?bool_decide_eq_true_2).
  - simpl. rewrite !drop_ge
      by (rewrite length_imap; by rewrite (Forall2_length _ _ _ Hall)).
    simpl. apply concat_nil_Forall.
    apply Forall_forall. intros ds Hds. rewrite elem_of_reverse in Hds.
    simpl in Hl, Hr. rewrite forallb_forall in Hl, Hr.
    assert (∀ f : nat → json → nat * json, (∀ i y, (f i y).2 = y) →
              ds ∈ zip_with (λ x iy, DeepDiff.deepDiff x iy.2 (p ++ [DeepDiff.Idx iy.1]))
                     items (imap f ys) → ds = []) as Hgen; [|by apply (Hgen pair)].
    clear Hds Heq. revert IH Hl Hr.
    induction Hall as [|x y items ys Hxy _ IHall]; intros IH Hl Hr f Hf; simpl.
    + by intros ?%elem_of_nil.
    + apply Forall_cons in IH as [Hx IH]. intros [->|Hin]%elem_of_cons.
      * rewrite Hf. apply Hx; [apply Hl | apply Hr | done]; by left.
      * eapply (IHall IH); [| |by intros; apply Hf | done].
        -- intros z Hz. apply Hl. by right.
        -- intros z Hz. apply Hr. by right.
  - rewrite deepDiff_objects.
    pose proof (wf_obj_NoDup _ Hl) as Hndl. pose proof (wf_obj_NoDup _ Hr) as Hndr.
    rewrite !concat_nil_Forall; [done | |].
    + apply Forall_forall. intros ds ([k y] & -> & Hin)%list_elem_of_fmap. simpl.
      assert (obj_has k fields = true) as ->; [|done].
      apply obj_has_get. specialize (Hkeys k).
      rewrite (obj_get_NoDup k y ys) in Hkeys by done.
      inversion Hkeys. by eexists.
    + apply Forall_forall. intros ds ([k x] & -> & Hin)%list_elem_of_fmap. simpl.
      specialize (Hkeys k). rewrite (obj_get_NoDup k x fields) in Hkeys by done.
      inversion Hkeys as [? y Hxy Hx Hy|]; subst.
      rewrite Forall_forall in IH. apply (IH (k, x)); [done | | | done].
      * pose proof (wf_obj_values _ Hl) as Hvals.
        rewrite Forall_forall in Hvals. by apply (Hvals (k, x)).
      * by eapply wf_obj_get.
Qed.

Lemma without_schema_wf (o : obj) : wf_obj o = true → wf_obj (without_schema o) = true.
Proof.
  intros Hwf. apply wf_obj_intro.
  - by apply without_schema_NoDup, wf_obj_NoDup.
  - apply wf_obj_values in Hwf. unfold without_schema.
    rewrite Forall_forall in *. intros kv [_ Hin]%list_elem_of_filter. by apply Hwf.
Qed.

(** Against the empty object every field of [rhs] is new, but for the
    empty-string key that the package passes over. *)
Lemma deepDiff_from_empty (r : obj) (currentPath : list DeepDiff.seg) :
  DeepDiff.deepDiff (JObj []) (JObj r) currentPath
  = map (λ kv, DeepDiff.DiffNew (currentPath ++ [DeepDiff.Key kv.1]) kv.2)
        (filter (λ kv, kv.1 ≠ "") r).
Proof.
  rewrite deepDiff_objects. simpl. induction r as [|[k v] r IH]; [done|].
  rewrite map_cons, concat_cons, IH, filter_cons. simpl.
  case_bool_decide; [by rewrite decide_False by (intros H'; by apply H')|].
  by rewrite decide_True.
Qed.

Lemma convertDiff_new (k : string) (v : json) :
  convertDiff (DeepDiff.DiffNew [DeepDiff.Key k] v) = add_of (k, v).
Proof. done. Qed.

Lemma top_level_changes (l r : obj) (d : DeepDiff.change) :
  d ∈ DeepDiff.deepDiff (JObj l) (JObj r) [] →
  ∃ k p, DeepDiff.path d = DeepDiff.Key k :: p.
Proof.
  rewrite deepDiff_objects, elem_of_app, !elem_of_concat.
  intros [(ds & Hds & Hd)|(ds & Hds & Hd)];
    apply list_elem_of_fmap in Hds as ([k x] & -> & Hkx); simpl in Hd.
  - destruct (obj_get k r) as [y|].
    + apply deepDiff_path_prefix in Hd as [q ->]. by exists k, q.
    + apply list_elem_of_singleton in Hd as ->. by exists k, [].
  - repeat case_match; try by apply elem_of_nil in Hd.
    apply list_elem_of_singleton in Hd as ->. by exists k, [].
Qed.

(** ** Plan *)

Lemma bind_Ok {A B} (m : result A) (k : A → result B) (b : B) :
  (m ≫= k) = Ok b → ∃ a, m = Ok a ∧ k a = Ok b.
Proof. destruct m as [a|e]; [by exists a | done]. Qed.

Lemma mapM_Ok {A B} (f : A → result B) (l : list A) (l' : list B) :
  mapM f l = Ok l' → Forall2 (λ x y, f x = Ok y) l l'.
Proof.
  revert l'. induction l as [|x l IH]; intros l'; simpl.
  - intros [= <-]. constructor.
  - intros (y & Hy & (ys & Hys & [= <-])%bind_Ok)%bind_Ok. constructor; [done | by apply IH].
Qed.

Lemma mapM_Ok_map {A B C} (f : A → result B) (g : A → C) (h : B → C)
    (l : list A) (l' : list B) :
  (∀ x y, f x = Ok y → h y = g x) → mapM f l = Ok l' → map h l' = map g l.
Proof.
  intros Hf Hm. apply mapM_Ok in Hm. induction Hm as [|x y l l' Hxy _ IH]; [done|].
  simpl. by rewrite IH, (Hf x y).
Qed.

Lemma loadAllChannelConfigs_names (w : World) (channels loaded : list Channel) :
  loadAllChannelConfigs w channels = Ok loaded → map ch_name loaded = map ch_name channels.
Proof.
  apply mapM_Ok_map. intros x y (cs & _ & [= <-])%bind_Ok. done.
Qed.

Lemma substituteSecretsInChannels_names (w : World) (channels out : list Channel) env :
  PlanService.substituteSecretsInChannels w channels env = Ok out →
  map ch_name out = map ch_name channels.
Proof.
  apply mapM_Ok_map. intros x y (cs & _ & [= <-])%bind_Ok. done.
Qed.

Lemma generateChannelPlan_channel (ch : Channel) (b : bool) client (chp : ChannelPlan) :
  PlanService.generateChannelPlan ch b client = Ok chp →
  channel chp = ch_name ch.
Proof. intros (m & _ & [= <-])%bind_Ok. done. Qed.

(** The three counters after the loop of [calculateSummary]. *)
Lemma count_status_total (cps : list ConfigPlan) (s : PlanSummary) :
  let s' := foldl PlanService.count_status s cps in
  creates s' + updates s' + unchanged_count s'
  = creates s + updates s + unchanged_count s + length cps
  ∧ unmanaged s' = unmanaged s.
Proof.
  revert s. induction cps as [|cp cps IH]; intros s; simpl; [lia|].
  destruct (IH (PlanService.count_status s cp)) as [IH1 IH2]. simpl in IH1, IH2.
  rewrite IH1, IH2. unfold PlanService.count_status. destruct (cp_status cp); simpl; lia.
Qed.

Lemma count_channels_total (chps : list ChannelPlan) (s : PlanSummary) :
  let s' := foldl (λ s channelPlan, foldl PlanService.count_status s (configs channelPlan))
                  s chps in
  creates s' + updates s' + unchanged_count s'
  = creates s + updates s + unchanged_count s
    + sum_list (map (λ chp, length (configs chp)) chps).
Proof.
  revert s. induction chps as [|chp chps IH]; intros s; simpl; [lia|].
  specialize (IH (foldl PlanService.count_status s (configs chp))). simpl in IH.
  rewrite IH. destruct (count_status_total (configs chp) s) as [-> _]. lia.
Qed.

Lemma filter_elements_difference (remote locals : gset string) :
  length (filter (λ name, name ∉ locals) (elements remote)) = size (remote ∖ locals).
Proof.
  unfold size, set_size. simpl. apply Permutation_length, NoDup_Permutation.
  - apply NoDup_filter, NoDup_elements.
  - apply NoDup_elements.
  - intros x. rewrite list_elem_of_filter, !elem_of_elements, elem_of_difference. tauto.
Qed.

Lemma calculateSummary_spec (channelPlans : list ChannelPlan)
    (remoteChannels : gset string) (localChannels : list Channel) :
  let s := PlanService.calculateSummary channelPlans remoteChannels localChannels in
  creates s + updates s + unchanged_count s
  = sum_list (map (λ chp, length (configs chp)) channelPlans)
  ∧ unmanaged s = size (remoteChannels ∖ list_to_set (map ch_name localChannels)).
Proof.
  unfold PlanService.calculateSummary. simpl. split.
  - by rewrite count_channels_total.
  - apply filter_elements_difference.
Qed.

(** What a successful run went through. *)
Lemma generatePlan_Ok (w : World) (config : ProjectConfig)
    (options : PlanService.PlanOptions) (plan : Plan) :
  PlanService.generatePlan w config options = Ok plan →
  ∃ discovered loaded env channelsWithSecrets remoteChannelList channelPlans,
    discoverChannels w = Ok discovered ∧
    (option_set (PlanService.opt_channel options) ≠ None →
     planned_channels discovered options ≠ []) ∧
    loadAllChannelConfigs w (planned_channels discovered options) = Ok loaded ∧
    getEnvironment w = Ok env ∧
    PlanService.substituteSecretsInChannels w loaded env = Ok channelsWithSecrets ∧
    listChannels (client w) = Ok remoteChannelList ∧
    Forall2 (λ ch chp,
               PlanService.generateChannelPlan ch
                 (bool_decide (ch_name ch ∈
                     (list_to_set (map rc_name remoteChannelList) : gset string)))
                 (client w) = Ok chp)
            channelsWithSecrets channelPlans ∧
    plan = {| merchant := pc_merchant config; timestamp := now w;
              channels := channelPlans;
              summary := PlanService.calculateSummary channelPlans
                           (list_to_set (map rc_name remoteChannelList))
                           channelsWithSecrets |}.
Proof.
  unfold PlanService.generatePlan, planned_channels.
  intros (validation & _ & Hrun)%bind_Ok.
  destruct (valid validation); [|done]. cbn [negb] in Hrun.
  apply bind_Ok in Hrun as (discovered & Hdisc & Hrun).
  apply bind_Ok in Hrun as (selected & Hsel & Hrun).
  apply bind_Ok in Hrun as (loaded & Hload & Hrun).
  apply bind_Ok in Hrun as (env & Henv & Hrun).
  apply bind_Ok in Hrun as (secrets & Hsec & Hrun).
  destruct (option_set (match env !! "NCOCTL_API_TOKEN" with
                        | Some t => Some t | None => api_token config end)); [|done].
  apply bind_Ok in Hrun as (remote & Hremote & (plans & Hplans & [= <-])%bind_Ok).
  destruct (listChannels (client w)) as [remoteList|[]] eqn:Hlist; try done.
  injection Hremote as <-.
  exists discovered, loaded, env, secrets, remoteList, plans.
  assert (selected = match option_set (PlanService.opt_channel options) with
                     | Some c => filter (λ ch, ch_name ch = c) discovered
                     | None => discovered
                     end ∧
          (option_set (PlanService.opt_channel options) ≠ None → selected ≠ [])) as [-> Hne].
  { destruct (option_set (PlanService.opt_channel options)) as [c|].
    - case_bool_decide as Hlen; [done|]. injection Hsel as <-. split; [done|].
      intros _ Hnil. by rewrite Hnil in Hlen.
    - injection Hsel as <-. done. }
  split_and!; try done. by apply mapM_Ok.
Qed.

(** ** The reference definition of the merge is a definition

    Two results the reference per-key rule allows for the same inputs are
    equal up to the order of keys: the rule pins the merge down. *)
Lemma merge_ref_value_functional (base : json) :
  ∀ overlay r1 r2,
    merge_ref_value base overlay r1 → merge_ref_value base overlay r2 → json_equiv r1 r2.
Proof.
  induction base as [| | | |items IH|fields IH] using json_ind'; intros overlay r1 r2 H1 H2;
    try (inversion H1; inversion H2; subst; apply json_equiv_refl).
  inversion H1 as [| |? o r1' Hnd1 Hk1|]; subst; try apply json_equiv_refl;
    inversion H2 as [| |? ? r2' Hnd2 Hk2|]; subst;
    try apply json_equiv_refl; simpl in *; try tauto; try congruence;
    try (match goal with H : _ ∨ _ |- _ => destruct H; discriminate end).
  - constructor. intros k. specialize (Hk1 k). specialize (Hk2 k).
    destruct (obj_get k fields) as [bv|] eqn:Hb, (obj_get k o) as [ov|] eqn:Ho.
    + inversion Hk1 as [| | |? ? v1 Hn1 Hv1]; subst.
      * inversion Hk2; subst; [constructor | congruence].
      * inversion Hk2 as [| | |? ? v2 Hn2 Hv2]; subst; [congruence|].
        constructor. rewrite Forall_forall in IH.
        apply (IH (k, bv) (obj_get_elem_of _ _ _ Hb) ov); done.
    + inversion Hk1; subst. inversion Hk2; subst. constructor. apply json_equiv_refl.
    + inversion Hk1; subst.
      * inversion Hk2; subst; [constructor | congruence].
      * inversion Hk2; subst; [congruence|]. constructor. apply json_equiv_refl.
    + inversion Hk1; subst. inversion Hk2; subst. constructor.
Qed.

Lemma merge_ref_functional (base overlay r1 r2 : obj) :
  merge_ref base overlay r1 → merge_ref base overlay r2 →
  json_equiv (JObj r1) (JObj r2).
Proof.
  intros [Hnd1 Hk1] [Hnd2 Hk2].
  apply (merge_ref_value_functional (JObj base) (JObj overlay)); by apply ref_recurse.
Qed.

(** So whatever object follows the reference rule is [merge_own]'s result,
    up to the order of keys. *)
Lemma deepMerge_unique (base overlay r : obj) :
  wf_obj base = true → wf_obj overlay = true →
  merge_ref base overlay r → json_equiv (JObj r) (JObj (merge_own base overlay)).
Proof.
  intros Hb Ho Hr. apply (merge_ref_functional base overlay); [done|].
  apply deepMerge_ref_keys; [done | done |].
  apply Forall_forall. intros kv _ o Hkv Hwfo. by apply mergeValues_ref.
Qed.

(** A decidable, closed proposition, settled by evaluation. *)
Ltac by_compute := apply (bool_decide_unpack _); vm_compute; exact I.

(** * Properties of the specification *)

(** ** C2: deepMerge against the reference per-key definition *)

(** On objects with plain keys (unique, as in every object) the code
    follows the reference per-key definition over the union of the keys:
    a key absent from the overlay keeps the value of [base]; a key whose
    overlay value is [null] is omitted, whatever [base] has; a key absent
    from [base] takes the non-null overlay value; with both present,
    different types or a sequence on either side give the overlay value,
    two object maps are merged recursively, and otherwise the overlay
    value wins. *)
Lemma deepMerge_plain_matches_reference (base overlay : obj) :
  wf_obj base = true → wf_obj overlay = true →
  plain_keys (JObj base) = true → plain_keys (JObj overlay) = true →
  ∃ result, deepMerge base overlay = Value result ∧ merge_ref base overlay result.
Proof.
  intros Hb Ho Hpb Hpo. exists (merge_own base overlay). split; [by apply deepMerge_plain|].
  apply deepMerge_ref_keys; [done | done |].
  apply Forall_forall. intros kv _ o Hkv Hwfo. by apply mergeValues_ref.
Qed.

(** C2 fails in the code for a key that names a member of
    [Object.prototype].  Such a key that only the overlay has never
    reaches the result, [key in result] being true of the empty result
    already: the overlay [{toString: "x", a: 1}] merged into [{}] gives
    [{a: 1}], which the reference definition does not allow.  And such a
    key that only [base] has is not kept with its value: the overlay
    answers for it with the function it inherits, which the result then
    holds. *)
Theorem deepMerge_inherited_member :
  deepMerge [] [("toString", JStr "x"); ("a", JNum 1)] = Value [("a", JNum 1)]
  ∧ ¬ merge_ref [] [("toString", JStr "x"); ("a", JNum 1)] [("a", JNum 1)]
  ∧ deepMerge [("toString", JNum 1); ("a", JNum 1)] [] = Escapes.
Proof.
  split_and!; [reflexivity | | reflexivity].
  intros [_ Hkeys]. specialize (Hkeys "toString"). vm_compute in Hkeys.
  inversion Hkeys.
Qed.

(** The merge examples of spec §8, on the code. *)
Example merge_null_deletes :
  deepMerge [("a", JNum 1); ("b", JNum 2)] [("a", JNull)] = Value [("b", JNum 2)].
Proof. reflexivity. Qed.

Example merge_array_replacement :
  deepMerge [("items", JArr [JNum 1; JNum 2; JNum 3])] [("items", JArr [JNum 4])]
    = Value [("items", JArr [JNum 4])]
  ∧ deepMerge [("items", JArr [JNum 1; JNum 2])] [("items", JArr [])]
    = Value [("items", JArr [])].
Proof. split; reflexivity. Qed.

Example merge_nested :
  deepMerge [("a", JObj [("b", JNum 1); ("c", JNum 2)])] [("a", JObj [("b", JNull)])]
  = Value [("a", JObj [("c", JNum 2)])].
Proof. reflexivity. Qed.

(** An array-index key of the overlay is enumerated ahead of the keys of
    [base], whatever the order of the assignments. *)
Example merge_index_key :
  deepMerge [("b", JNum 1)] [("1", JNum 2)] = Value [("1", JNum 2); ("b", JNum 1)].
Proof. reflexivity. Qed.

(** ** C6, C7: the diff engine *)

(** C6 (as the code has it).  For every object [local] without an
    empty-string key, [diffConfigs local {}] is, in key order, exactly one
    [add] per top-level key other than [$schema], at path ["/" ++ key]
    with [newValue] the value of the key; it holds no [remove] and no
    [change] entry. *)
Theorem create_diff_is_adds (local : obj) :
  "" ∉ obj_keys local →
  diffConfigs local [] = map add_of (without_schema local).
Proof.
  intros Hempty. rewrite diffConfigs_eq, relevant_changes, deepDiff_from_empty.
  assert ("" ∉ obj_keys (without_schema local)) as Hempty'.
  { unfold obj_keys, without_schema in *.
    intros (kv & Hkv & [_ Hin]%list_elem_of_filter)%list_elem_of_fmap.
    apply Hempty, list_elem_of_fmap. by exists kv. }
  unfold obj_keys in Hempty'.
  induction (without_schema local) as [|[k v] o IH]; [done|].
  csimpl in Hempty'. apply not_elem_of_cons in Hempty' as [Hk Hempty'].
  rewrite filter_cons, decide_True by done. simpl. rewrite <- IH by done. done.
Qed.

Lemma create_diff_is_adds_witness :
  diffConfigs [("$schema", JStr "https://schemas.example/checkout.json");
               ("id", JStr "x"); ("a", JNum 1)] []
  = [add_of ("id", JStr "x"); add_of ("a", JNum 1)].
Proof.
  apply (create_diff_is_adds
           [("$schema", JStr "https://schemas.example/checkout.json");
            ("id", JStr "x"); ("a", JNum 1)]).
  unfold obj_keys. simpl.
  intros H. repeat (apply elem_of_cons in H as [H|H]; [discriminate H|]).
  by apply elem_of_nil in H.
Defined.

(** C6 as stated fails: a top-level [$schema] field gets no [add]. *)
Lemma create_diff_counterexample :
  ¬ reports_add_per_key
      [("$schema", JStr "https://schemas.example/checkout.json"); ("a", JNum 1)].
Proof.
  intros H.
  destruct (H "$schema" (JStr "https://schemas.example/checkout.json") eq_refl)
    as (fd & Hin & _ & Hnew).
  vm_compute in Hin. apply list_elem_of_singleton in Hin. subst fd. discriminate Hnew.
Qed.

(** C7.  [diffConfigs] never reports a diff for the top-level key
    [$schema]: its result is that of the two objects without their
    [$schema] entries, and every entry it reports comes from a change
    whose path starts at another top-level key.  Hence two well-formed
    objects that differ only in their top-level [$schema] value have an
    empty diff. *)
Theorem schema_suppression (local remote : obj) :
  diffConfigs local remote = diffConfigs (without_schema local) (without_schema remote)
  ∧ (∀ fd, fd ∈ diffConfigs local remote →
       ∃ d k p, fd = convertDiff d ∧
                d ∈ DeepDiff.deepDiff (JObj remote) (JObj local) [] ∧
                DeepDiff.path d = DeepDiff.Key k :: p ∧ k ≠ "$schema")
  ∧ (wf_obj local = true → wf_obj remote = true →
     differ_only_in_schema local remote → diffConfigs local remote = []).
Proof.
  split_and!.
  - rewrite !diffConfigs_eq, !relevant_changes.
    assert (∀ o, without_schema (without_schema o) = without_schema o) as Hidem.
    { intros o. unfold without_schema. induction o as [|[k v] o IH]; [done|].
      rewrite filter_cons. case_decide; [|done]. rewrite filter_cons, decide_True by done.
      by rewrite IH. }
    by rewrite !Hidem.
  - rewrite diffConfigs_eq. intros fd (d & -> & [Hrel Hd]%list_elem_of_filter)%list_elem_of_fmap.
    destruct (top_level_changes _ _ _ Hd) as (k & p & Hp).
    exists d, k, p. split_and!; try done.
    intros ->. unfold isRelevantDiff in Hrel. rewrite Hp in Hrel. done.
  - intros Hl Hr Hsame. rewrite diffConfigs_eq, relevant_changes.
    rewrite deepDiff_equiv; [done | by apply (without_schema_wf remote)
                            | by apply (without_schema_wf local) |].
    constructor. intros k.
    destruct (differ_only_in_schema_without _ _ Hsame k); constructor.
    (* the diff runs from [remote] to [local] *)
    by apply json_equiv_sym.
Qed.

Lemma schema_suppression_witness :
  diffConfigs [("$schema", JStr "https://schemas.example/v2.json"); ("a", JNum 1)]
              [("a", JNum 1); ("$schema", JStr "https://schemas.example/v1.json")]
  = [].
Proof.
  apply (schema_suppression
           [("$schema", JStr "https://schemas.example/v2.json"); ("a", JNum 1)]
           [("a", JNum 1); ("$schema", JStr "https://schemas.example/v1.json")]);
    [reflexivity | reflexivity |].
  intros k Hk. cbn [obj_get].
  destruct (decide ("$schema" = k)) as [<-|_]; [done|].
  destruct (decide ("a" = k)); repeat constructor.
Defined.

(** The diff emptiness law of spec §8, first half. *)
Lemma diffConfigs_refl (x : obj) : wf_obj x = true → diffConfigs x x = [].
Proof.
  intros Hwf. rewrite diffConfigs_eq, relevant_changes.
  by rewrite deepDiff_refl by by apply (without_schema_wf x).
Qed.

(** ** C1, C4: classification of one configuration *)

(** C1 (as the code has it).  The remote object is compared whole, its
    [id] field included.  With the local configuration [{id:x,a:1,b:2}]:
    against the remote [{id:x,a:1,b:2}] the status is [unchanged]; against
    the remote [{id:x,a:1,b:3}] it is [update] with the single [change] at
    [/b] (old 3, new 2).  With the local configuration [{a:1,b:2}] and no
    matching remote the status is [create] with exactly two [add] diffs;
    matched by its name against those two remotes it is [update] both
    times, the remote [id] being reported as a [remove] at [/id]. *)
Theorem plan_classification :
  PlanService.generateConfigPlan (config_of "x" local_xab) (PlanService.index_by_id [remote_xab])
  = {| cp_name := "x"; cp_status := unchanged; cp_diffs := [] |}
  ∧ PlanService.generateConfigPlan (config_of "x" local_xab) (PlanService.index_by_id [remote_xab3])
    = {| cp_name := "x"; cp_status := update;
         cp_diffs := [ {| path := "/b"; type := change;
                          oldValue := Some (JNum 3); newValue := Some (JNum 2) |} ] |}
  ∧ PlanService.generateConfigPlan (config_of "x" local_ab) (PlanService.index_by_id [])
    = {| cp_name := "x"; cp_status := create;
         cp_diffs := [ add_of ("a", JNum 1); add_of ("b", JNum 2) ] |}
  ∧ PlanService.generateConfigPlan (config_of "x" local_ab) (PlanService.index_by_id [remote_xab])
    = {| cp_name := "x"; cp_status := update;
         cp_diffs := [ {| path := "/id"; type := remove;
                          oldValue := Some (JStr "x"); newValue := None |} ] |}
  ∧ PlanService.generateConfigPlan (config_of "x" local_ab) (PlanService.index_by_id [remote_xab3])
    = {| cp_name := "x"; cp_status := update;
         cp_diffs := [ {| path := "/id"; type := remove;
                          oldValue := Some (JStr "x"); newValue := None |};
                       {| path := "/b"; type := change;
                          oldValue := Some (JNum 3); newValue := Some (JNum 2) |} ] |}.
Proof. split_and!; vm_compute; reflexivity. Qed.

(** C1 as stated fails: the local configuration [{a:1,b:2}], whether it
    matches the remote [{id:x,a:1,b:2}] by its name or by an [id] given
    apart, is not [unchanged]. *)
Lemma plan_classification_counterexample :
  cp_status (PlanService.generateConfigPlan (config_of "x" local_ab)
               (PlanService.index_by_id [remote_xab])) ≠ unchanged
  ∧ cp_status (PlanService.generateConfigPlan
                 {| cfg_name := "checkout"; cfg_path := "checkout.yaml";
                    raw := local_ab; merged := local_ab; schemaUrl := None;
                    id := Some "x"; inheritsFromRoot := false |}
                 (PlanService.index_by_id [remote_xab])) ≠ unchanged.
Proof. split; vm_compute; discriminate. Qed.

(** C4 (as the code has it).  For the plan of one configuration, with
    [key] its [id] or else its name: the status is [create] exactly when
    no remote object is found under [key], and the diffs are then those
    against the empty object; when one is found, the status is [unchanged]
    exactly when the diffs are empty, and [update] otherwise.  So
    [unchanged] always comes with empty diffs. *)
Theorem config_plan_status (localConfig : ChannelConfig) (remoteConfigs : gmap string obj) :
  let p := PlanService.generateConfigPlan localConfig remoteConfigs in
  let key := default (cfg_name localConfig) (id localConfig) in
  (cp_status p = create ↔ remoteConfigs !! key = None)
  ∧ (cp_status p = create → cp_diffs p = diffConfigs (merged localConfig) [])
  ∧ (∀ remoteConfig, remoteConfigs !! key = Some remoteConfig →
       cp_diffs p = diffConfigs (merged localConfig) remoteConfig
       ∧ (cp_status p = unchanged ↔ cp_diffs p = [])
       ∧ (cp_status p = update ↔ cp_diffs p ≠ []))
  ∧ (cp_status p = unchanged → cp_diffs p = []).
Proof.
  unfold PlanService.generateConfigPlan. simpl.
  destruct (remoteConfigs !! default (cfg_name localConfig) (id localConfig)) as [rc|] eqn:Hrc.
  - destruct (diffConfigs (merged localConfig) rc) as [|fd fds] eqn:Hdiffs; simpl.
    + split_and!; try done. intros rc' [= <-]. by rewrite Hdiffs.
    + split_and!; try done. intros rc' [= <-]. by rewrite Hdiffs.
  - simpl. split_and!; done.
Qed.

Lemma config_plan_status_witness :
  cp_status (PlanService.generateConfigPlan (config_of "x" local_xab)
               (PlanService.index_by_id [remote_xab])) = unchanged
  ↔ cp_diffs (PlanService.generateConfigPlan (config_of "x" local_xab)
                (PlanService.index_by_id [remote_xab])) = [].
Proof.
  apply (config_plan_status (config_of "x" local_xab)
           (PlanService.index_by_id [remote_xab]) ) with (remoteConfig := remote_xab).
  vm_compute. reflexivity.
Defined.

(** C4 as stated fails: a configuration that is empty, or holds nothing
    but [$schema], and has no remote counterpart gets status [create]
    with an empty diff list. *)
Lemma config_plan_status_counterexample :
  ¬ (cp_status (PlanService.generateConfigPlan (config_of "checkout" []) ∅) = unchanged
     ↔ cp_diffs (PlanService.generateConfigPlan (config_of "checkout" []) ∅) = [])
  ∧ ¬ (cp_status (PlanService.generateConfigPlan
                    (config_of "checkout" [("$schema", JStr "https://schemas.example/v1.json")])
                    ∅) = unchanged
       ↔ cp_diffs (PlanService.generateConfigPlan
                    (config_of "checkout" [("$schema", JStr "https://schemas.example/v1.json")])
                    ∅) = []).
Proof.
  split; intros [_ H]; specialize (H eq_refl); vm_compute in H; discriminate H.
Qed.

(** ** C8: schema compatibility *)

(** C8 at its failing input: root and channel both carry a [$schema]
    field, the two strings differ, and [schemasCompatible] answers [true],
    the empty string being taken for a missing field. *)
Theorem schemasCompatible_empty_string :
  let root := [("$schema", JStr "")] in
  let chan := [("$schema", JStr "https://schemas.example/v1.json")] in
  obj_has "$schema" root = true ∧ obj_has "$schema" chan = true
  ∧ obj_get "$schema" root ≠ obj_get "$schema" chan
  ∧ schemasCompatible root chan = true.
Proof. split_and!; try reflexivity. discriminate. Qed.

(** Away from falsy values the predicate is as documented. *)
Lemma schemasCompatible_missing (root chan : obj) :
  obj_get "$schema" root = None ∨ obj_get "$schema" chan = None →
  schemasCompatible root chan = true.
Proof.
  unfold schemasCompatible. intros [-> | ->]; simpl; [done|].
  by destruct (falsy_opt _).
Qed.

Lemma schemasCompatible_strings (root chan : obj) (r c : string) :
  obj_get "$schema" root = Some (JStr r) → obj_get "$schema" chan = Some (JStr c) →
  r ≠ "" → c ≠ "" →
  schemasCompatible root chan = true ↔ r = c.
Proof.
  unfold schemasCompatible. intros -> -> Hr Hc. simpl.
  rewrite !bool_decide_eq_false_2 by done. simpl. apply bool_decide_eq_true.
Qed.

(** ** C3: remote failures during planning *)

(** What the [catch] of [generateChannelPlan] does with each failure. *)
Lemma generateChannelPlan_not_found (ch : Channel) client (message : string) :
  listConfigs client (ch_name ch) = Throw (ApiError message 404) →
  PlanService.generateChannelPlan ch true client
  = Ok {| channel := ch_name ch; existsRemotely := true;
          configs := map (λ c, PlanService.generateConfigPlan c ∅) (ch_configs ch) |}.
Proof. unfold PlanService.generateChannelPlan. by intros ->. Qed.

Lemma generateChannelPlan_api_error (ch : Channel) client (message : string) (status : Z) :
  listConfigs client (ch_name ch) = Throw (ApiError message status) → status ≠ 404%Z →
  PlanService.generateChannelPlan ch true client
  = Throw (Error ("Failed to list configs for channel '" ++ ch_name ch ++ "': " ++ message)).
Proof.
  unfold PlanService.generateChannelPlan. intros -> Hs.
  by rewrite bool_decide_eq_false_2.
Qed.

Lemma generateChannelPlan_other_error (ch : Channel) client (message : string) :
  listConfigs client (ch_name ch) = Throw (Error message) →
  PlanService.generateChannelPlan ch true client
  = Ok {| channel := ch_name ch; existsRemotely := true;
          configs := map (λ c, PlanService.generateConfigPlan c ∅) (ch_configs ch) |}.
Proof. unfold PlanService.generateChannelPlan. by intros ->. Qed.

(** A failure of the initial channel listing ends the run: no plan. *)
Lemma generatePlan_listing_failure (w : World) config options (e : exn) :
  listChannels (client w) = Throw e →
  ∃ e', PlanService.generatePlan w config options = Throw e'.
Proof.
  intros Hlist. destruct (PlanService.generatePlan w config options) as [plan|e'] eqn:Hplan.
  - apply generatePlan_Ok in Hplan as (? & ? & ? & ? & l & ? & _ & _ & _ & _ & _ & Hl & _).
    congruence.
  - by exists e'.
Qed.

(** C3 at its failing input: channel [se] exists remotely and listing its
    configs fails with an error that is not an [ApiError] (a failed
    [fetch]).  The run does not abort: it returns a plan in which the
    configuration of [se] is a [create], as if the channel held no remote
    config. *)
Theorem fetch_failure_swallowed :
  let remote :=
    {| listChannels := Ok [remote_channel "se"];
       listConfigs := λ _, Throw (Error "fetch failed") |} in
  let w := example_world [local_channel "se" [config_of "x" local_xab]] remote in
  PlanService.generatePlan w example_config
    {| PlanService.opt_channel := None; PlanService.verbose := false |}
  = Ok {| merchant := "acme"; timestamp := "2026-01-30T12:00:00.000Z";
          channels :=
            [ {| channel := "se"; existsRemotely := true;
                 configs := [ {| cp_name := "x"; cp_status := create;
                                 cp_diffs := [ add_of ("id", JStr "x"); add_of ("a", JNum 1);
                                               add_of ("b", JNum 2) ] |} ] |} ];
          summary := {| creates := 1; updates := 0; unchanged_count := 0; unmanaged := 0 |} |}.
Proof. vm_compute. reflexivity. Qed.

(** ** C5, C10: the summary *)

Lemma generatePlan_channel_names (w : World) config options (plan : Plan) :
  PlanService.generatePlan w config options = Ok plan →
  ∃ discovered,
    discoverChannels w = Ok discovered ∧
    map channel (channels plan) = map ch_name (planned_channels discovered options).
Proof.
  intros (discovered & loaded & env & secrets & remoteList & plans
          & Hdisc & _ & Hload & _ & Hsec & _ & Hplans & ->)%generatePlan_Ok.
  exists discovered. split; [done|].
  cbn [channels]. apply loadAllChannelConfigs_names in Hload.
  apply substituteSecretsInChannels_names in Hsec. rewrite <- Hload, <- Hsec.
  clear -Hplans. induction Hplans as [|ch chp chs chps H _ IH]; [done|].
  simpl. by rewrite IH, (generateChannelPlan_channel _ _ _ _ H).
Qed.

Lemma generatePlan_summary (w : World) config options (plan : Plan) :
  PlanService.generatePlan w config options = Ok plan →
  creates (summary plan) + updates (summary plan) + unchanged_count (summary plan)
  = total_configs plan
  ∧ ∃ discovered remoteChannelList,
      discoverChannels w = Ok discovered ∧
      listChannels (client w) = Ok remoteChannelList ∧
      unmanaged (summary plan)
      = size ((list_to_set (map rc_name remoteChannelList) : gset string)
              ∖ list_to_set (map ch_name (planned_channels discovered options))).
Proof.
  intros (discovered & loaded & env & secrets & remoteList & plans
          & Hdisc & _ & Hload & _ & Hsec & Hlist & Hplans & ->)%generatePlan_Ok.
  destruct (calculateSummary_spec plans (list_to_set (map rc_name remoteList)) secrets)
    as [Htotal Hunmanaged].
  split; [done|]. exists discovered, remoteList. split_and!; [done | done |].
  cbn [summary]. rewrite Hunmanaged.
  apply loadAllChannelConfigs_names in Hload.
  apply substituteSecretsInChannels_names in Hsec. by rewrite Hsec, Hload.
Qed.

(** C5 (as the code has it).  For every plan [generatePlan] returns: the
    three status counters add up to the number of [ConfigPlan]s over all
    channels; [unmanaged] is the number of remote channel names outside
    the names of the local channels the run plans, which are all local
    channels of the project, or the one channel of the single-channel
    option when it is set; and the plan's channels are those planned
    channels, so a remote-only channel is never among them. *)
Theorem plan_summary_invariants (w : World) (config : ProjectConfig)
    (options : PlanService.PlanOptions) (plan : Plan) :
  PlanService.generatePlan w config options = Ok plan →
  creates (summary plan) + updates (summary plan) + unchanged_count (summary plan)
  = total_configs plan
  ∧ ∃ discovered remoteChannelList,
      discoverChannels w = Ok discovered ∧
      listChannels (client w) = Ok remoteChannelList ∧
      let remote : gset string := list_to_set (map rc_name remoteChannelList) in
      let locals : gset string :=
        list_to_set (map ch_name (planned_channels discovered options)) in
      map channel (channels plan) = map ch_name (planned_channels discovered options)
      ∧ unmanaged (summary plan) = size (remote ∖ locals)
      ∧ ∀ name, name ∈ remote → name ∉ locals → name ∉ map channel (channels plan).
Proof.
  intros Hplan.
  destruct (generatePlan_channel_names _ _ _ _ Hplan) as (discovered & Hdisc & Hnames).
  destruct (generatePlan_summary _ _ _ _ Hplan) as (Htotal & d & l & Hd & Hl & Hunmanaged).
  assert (d = discovered) as -> by congruence.
  split; [done|]. exists discovered, l. split; [done|]. split; [done|].
  cbn zeta. split_and!; try done.
  intros name _ Hlocal. rewrite Hnames. by rewrite elem_of_list_to_set in Hlocal.
Qed.

(** Spec §8: local channels se and no, remote channels se, no and demo. *)
Lemma plan_summary_invariants_witness :
  let remote :=
    {| listChannels := Ok [remote_channel "se"; remote_channel "no"; remote_channel "demo"];
       listConfigs := λ _, Ok [remote_xab3] |} in
  let w := example_world [local_channel "no" [config_of "x" local_xab];
                          local_channel "se" [config_of "x" local_ab]] remote in
  ∃ plan,
    PlanService.generatePlan w example_config
      {| PlanService.opt_channel := None; PlanService.verbose := false |} = Ok plan
    ∧ unmanaged (summary plan) = 1
    ∧ ("demo" ∉ map channel (channels plan))
    ∧ creates (summary plan) + updates (summary plan) + unchanged_count (summary plan) = 2.
Proof.
  intros remote w.
  destruct (PlanService.generatePlan w example_config
              {| PlanService.opt_channel := None; PlanService.verbose := false |})
    as [plan|e] eqn:Hplan; [|vm_compute in Hplan; discriminate Hplan].
  exists plan. split; [reflexivity|].
  destruct (plan_summary_invariants _ _ _ _ Hplan)
    as (Htotal & d & l & Hd & Hl & Hnames & Hunm & Hnot).
  injection Hd as <-. injection Hl as <-. split_and!.
  - rewrite Hunm. vm_compute. reflexivity.
  - apply Hnot; by_compute.
  - rewrite Htotal. unfold total_configs. vm_compute in Hplan. injection Hplan as <-.
    reflexivity.
Defined.

(** C5 as stated fails on a single-channel run: with the local channels
    no and se, the remote channels se, no and demo and the option
    [--channel se], [unmanaged] is 2, the remote channel no counted with
    demo although the project has a local channel no. *)
Lemma plan_summary_invariants_counterexample :
  let remote :=
    {| listChannels := Ok [remote_channel "se"; remote_channel "no"; remote_channel "demo"];
       listConfigs := λ _, Ok [remote_xab3] |} in
  let locals := [local_channel "no" [config_of "x" local_xab];
                 local_channel "se" [config_of "x" local_ab]] in
  ∃ plan,
    PlanService.generatePlan (example_world locals remote) example_config
      {| PlanService.opt_channel := Some "se"; PlanService.verbose := false |} = Ok plan
    ∧ unmanaged (summary plan) = 2
    ∧ ¬ counts_remote_only locals ["se"; "no"; "demo"] plan.
Proof.
  intros remote locals. eexists. split; [vm_compute; reflexivity|].
  split; [reflexivity|]. unfold counts_remote_only. vm_compute. discriminate.
Qed.

Lemma filter_eq_NoDup (a : string) (l : list string) :
  NoDup l → (length (filter (λ x, x = a) l) ≤ 1)%nat.
Proof.
  induction 1 as [|x l Hx Hnd IH]; [simpl; lia|].
  rewrite filter_cons. case_decide as Hxa; [|done]. subst x. simpl.
  assert (filter (λ x, x = a) l = []) as ->; [|simpl; lia].
  destruct (filter (λ x, x = a) l) as [|y ys] eqn:Hf; [done|]. exfalso.
  assert (y ∈ filter (λ x, x = a) l) as [-> Hin]%list_elem_of_filter
    by (rewrite Hf; apply list_elem_of_here).
  done.
Qed.

Lemma map_filter_name (c : string) (l : list Channel) :
  map ch_name (filter (λ ch, ch_name ch = c) l) = filter (λ x, x = c) (map ch_name l).
Proof.
  induction l as [|ch l IH]; [done|]. simpl. rewrite !filter_cons.
  case_decide; simpl; by rewrite IH.
Qed.

(** C10.  With the single-channel option set to a (non-empty) name [X],
    over discovered channels of distinct names: the plan holds one
    [ChannelPlan], that of [X], and [unmanaged] counts every remote
    channel name other than [X], whether or not a local channel of that
    name exists. *)
Theorem single_channel_plan (w : World) (config : ProjectConfig)
    (options : PlanService.PlanOptions) (X : string)
    (discovered : list Channel) (plan : Plan) :
  PlanService.opt_channel options = Some X → X ≠ "" →
  discoverChannels w = Ok discovered → NoDup (map ch_name discovered) →
  PlanService.generatePlan w config options = Ok plan →
  (length (channels plan) ≤ 1)%nat
  ∧ map channel (channels plan) = [X]
  ∧ ∃ remoteChannelList,
      listChannels (client w) = Ok remoteChannelList ∧
      unmanaged (summary plan)
      = size ((list_to_set (map rc_name remoteChannelList) : gset string) ∖ {[ X ]}).
Proof.
  intros HX Hne Hdisc Hnd Hplan.
  destruct (generatePlan_channel_names _ _ _ _ Hplan) as (d & Hd & Hnames).
  assert (d = discovered) as -> by congruence. clear Hd.
  destruct (generatePlan_summary _ _ _ _ Hplan) as (_ & d & l & Hd & Hl & Hunm).
  assert (d = discovered) as -> by congruence. clear Hd.
  apply generatePlan_Ok in Hplan as (d & ? & ? & ? & ? & ? & Hd & Hnonempty & _).
  assert (d = discovered) as -> by congruence. clear Hd.
  assert (option_set (PlanService.opt_channel options) = Some X) as Hset.
  { rewrite HX. simpl. by rewrite bool_decide_eq_false_2. }
  assert (map ch_name (planned_channels discovered options) = [X]) as Hplanned.
  { specialize (Hnonempty ltac:(by rewrite Hset)). revert Hnonempty.
    unfold planned_channels. rewrite Hset. intros Hnonempty.
    pose proof (filter_eq_NoDup X _ Hnd) as Hlen. rewrite <- map_filter_name in Hlen.
    destruct (filter (λ ch, ch_name ch = X) discovered) as [|ch [|ch' chs]] eqn:Hf;
      [done | | simpl in Hlen; lia].
    assert (ch ∈ filter (λ ch, ch_name ch = X) discovered) as Hin
      by (rewrite Hf; apply list_elem_of_here).
    apply list_elem_of_filter in Hin as [Hch _]. simpl. by rewrite Hch. }
  rewrite Hplanned in Hnames, Hunm. split_and!.
  - apply (f_equal length) in Hnames. rewrite length_map in Hnames. simpl in Hnames. lia.
  - done.
  - exists l. split; [done|]. rewrite Hunm. f_equal. simpl. by rewrite union_empty_r_L.
Qed.

(** Local channels no and se, remote channels se, no and demo, option
    [--channel se]: no and demo both count as unmanaged. *)
Lemma single_channel_plan_witness :
  let remote :=
    {| listChannels := Ok [remote_channel "se"; remote_channel "no"; remote_channel "demo"];
       listConfigs := λ _, Ok [remote_xab3] |} in
  let w := example_world [local_channel "no" [config_of "x" local_xab];
                          local_channel "se" [config_of "x" local_ab]] remote in
  ∃ plan,
    PlanService.generatePlan w example_config
      {| PlanService.opt_channel := Some "se"; PlanService.verbose := false |} = Ok plan
    ∧ map channel (channels plan) = ["se"]
    ∧ unmanaged (summary plan) = 2.
Proof.
  intros remote w.
  destruct (PlanService.generatePlan w example_config
              {| PlanService.opt_channel := Some "se"; PlanService.verbose := false |})
    as [plan|e] eqn:Hplan; [|vm_compute in Hplan; discriminate Hplan].
  exists plan. split; [reflexivity|].
  edestruct (single_channel_plan w example_config
               {| PlanService.opt_channel := Some "se"; PlanService.verbose := false |}
               "se") as (_ & Hnames & l & Hl & Hunm);
    [reflexivity | discriminate | reflexivity | by_compute | exact Hplan |].
  injection Hl as <-. split; [exact Hnames|]. rewrite Hunm. vm_compute. reflexivity.
Defined.

(** ** C9: the summary of a comparison *)

Lemma compare_all_full (configsA configsB : list (string * obj)) (names : list string) :
  CompareService.compare_all {| CompareService.differencesOnly := false |}
    configsA configsB names
  = map (λ name, CompareService.compareConfig name
                   (CompareService.map_get name configsA)
                   (CompareService.map_get name configsB)) names.
Proof.
  unfold CompareService.compare_all. cbn [CompareService.differencesOnly andb].
  set (cmp := λ name, CompareService.compareConfig name _ _).
  enough (∀ acc, foldl (λ comparisons name, (comparisons ++ [cmp name])%list) acc names
                 = (acc ++ map cmp names)%list) as Hgen by apply (Hgen []).
  induction names as [|name names IH]; intros acc; simpl; [by rewrite app_nil_r|].
  by rewrite IH, <- app_assoc.
Qed.

Lemma compare_all_differences (configsA configsB : list (string * obj)) (names : list string) :
  CompareService.compare_all {| CompareService.differencesOnly := true |}
    configsA configsB names
  = filter (λ c, CompareService.cc_status c ≠ CompareService.identical)
      (map (λ name, CompareService.compareConfig name
                      (CompareService.map_get name configsA)
                      (CompareService.map_get name configsB)) names).
Proof.
  unfold CompareService.compare_all. cbn [CompareService.differencesOnly andb].
  set (cmp := λ name, CompareService.compareConfig name _ _).
  enough (∀ acc,
    foldl (λ comparisons name,
             if match CompareService.cc_status (cmp name) with
                | CompareService.identical => true
                | _ => false
                end
             then comparisons else (comparisons ++ [cmp name])%list) acc names
    = (acc ++ filter (λ c, CompareService.cc_status c ≠ CompareService.identical)
                (map cmp names))%list) as Hgen by apply (Hgen []).
  induction names as [|name names IH]; intros acc; simpl; [by rewrite app_nil_r|].
  rewrite IH, filter_cons.
  destruct (decide (CompareService.cc_status (cmp name) ≠ CompareService.identical)) as [Hk|Hk].
  - destruct (CompareService.cc_status (cmp name)); [done | by rewrite <- app_assoc ..].
  - apply dec_stable in Hk. by rewrite Hk.
Qed.

Lemma compare_count_status (cs : list CompareService.ConfigComparison)
    (s : CompareService.CompareSummary) :
  let s' := foldl CompareService.count_status s cs in
  CompareService.sum_identical s'
  = CompareService.sum_identical s
    + length (filter (λ c, CompareService.cc_status c = CompareService.identical) cs)
  ∧ CompareService.sum_different s'
    = CompareService.sum_different s
      + length (filter (λ c, CompareService.cc_status c = CompareService.different) cs)
  ∧ CompareService.onlyInA s'
    = CompareService.onlyInA s
      + length (filter (λ c, CompareService.cc_status c = CompareService.only_in_a) cs)
  ∧ CompareService.onlyInB s'
    = CompareService.onlyInB s
      + length (filter (λ c, CompareService.cc_status c = CompareService.only_in_b) cs).
Proof.
  revert s. induction cs as [|c cs IH]; intros s; simpl; [lia|].
  destruct (IH (CompareService.count_status s c)) as (-> & -> & -> & ->).
  rewrite !filter_cons. unfold CompareService.count_status.
  destruct (CompareService.cc_status c); simpl; lia.
Qed.

Lemma length_filter_split {A} (P : A → Prop) `{∀ x, Decision (P x)} (l : list A) :
  length (filter P l) + length (filter (λ x, ¬ P x) l) = length l.
Proof.
  induction l as [|x l IH]; [done|]. rewrite !filter_cons.
  destruct (decide (P x)); [rewrite decide_False by tauto | rewrite decide_True by tauto];
    simpl; lia.
Qed.

(** C9.  With [differencesOnly] set, against the run without it (which
    emits one comparison for each of the [totalUnique] configuration
    names): the emitted list is the full list without its [identical]
    entries; [summary.identical] is still the number of [identical]
    comparisons of the full list, being [totalUnique] minus the number of
    emitted entries whenever entries were removed; and the three other
    counts are those of the emitted entries. *)
Theorem differences_only_summary (w : World) (config : ProjectConfig) (a b : string)
    (r : CompareService.CompareResult) :
  CompareService.compareChannels w config a b {| CompareService.differencesOnly := true |}
    = Ok r →
  ∃ r0,
    CompareService.compareChannels w config a b {| CompareService.differencesOnly := false |}
      = Ok r0
    ∧ let full := CompareService.cr_configs r0 in
      let emitted := CompareService.cr_configs r in
      let s := CompareService.cr_summary r in
      emitted = filter (λ c, CompareService.cc_status c ≠ CompareService.identical) full
      ∧ Forall (λ c, CompareService.cc_status c ≠ CompareService.identical) emitted
      ∧ CompareService.sum_identical s
        = length (filter (λ c, CompareService.cc_status c = CompareService.identical) full)
      ∧ (length emitted < length full →
         CompareService.sum_identical s = length full - length emitted)
      ∧ CompareService.sum_different s
        = length (filter (λ c, CompareService.cc_status c = CompareService.different) emitted)
      ∧ CompareService.onlyInA s
        = length (filter (λ c, CompareService.cc_status c = CompareService.only_in_a) emitted)
      ∧ CompareService.onlyInB s
        = length (filter (λ c, CompareService.cc_status c = CompareService.only_in_b) emitted).
Proof.
  unfold CompareService.compareChannels.
  destruct (discoverChannels w) as [discovered|e]; [|done]. simpl.
  destruct (loadAllChannelConfigs w discovered) as [loaded|e]; [|done]. simpl.
  destruct (find _ loaded) as [chA|]; [|done].
  destruct (find _ loaded) as [chB|]; [|done].
  set (configsA := CompareService.new_Map _).
  set (configsB := CompareService.new_Map _).
  set (names := CompareService.new_Set _).
  intros [= <-]. eexists. split; [reflexivity|]. cbn zeta.
  cbn [CompareService.cr_configs CompareService.cr_summary].
  rewrite compare_all_full, compare_all_differences.
  set (all := map _ names).
  set (emitted := filter _ all).
  assert (length (filter (λ c, CompareService.cc_status c = CompareService.identical) all)
          + length emitted = length all) as Hsplit
    by apply (length_filter_split
                (λ c, CompareService.cc_status c = CompareService.identical) all).
  assert (length (filter (λ c, CompareService.cc_status c = CompareService.identical) emitted) = 0)
    as Hnone.
  { apply length_zero_iff_nil.
    destruct (filter _ emitted) as [|c cs] eqn:Hf; [done|]. exfalso.
    assert (c ∈ filter (λ c, CompareService.cc_status c = CompareService.identical) emitted)
      as [Hc [Hc' _]%list_elem_of_filter]%list_elem_of_filter
      by (rewrite Hf; apply list_elem_of_here).
    done. }
  assert (length names = length all) as Hlen by (unfold all; by rewrite length_map).
  unfold CompareService.calculateSummary.
  destruct (compare_count_status emitted
              {| CompareService.sum_identical := 0; CompareService.sum_different := 0;
                 CompareService.onlyInA := 0; CompareService.onlyInB := 0 |})
    as (Hi & Hd & Ha & Hb).
  cbn [CompareService.sum_identical CompareService.sum_different
       CompareService.onlyInA CompareService.onlyInB] in *.
  rewrite Hlen. split_and!; try done.
  - apply Forall_forall. by intros c [? _]%list_elem_of_filter.
  - case_bool_decide; [lia|]. rewrite Hi, Hnone. lia.
  - intros Hlt. rewrite bool_decide_eq_true_2 by done. done.
Qed.

(** Channel se against channel no: [shared] is identical in both,
    [payments] differs, [shipping] is only in se. *)
Lemma differences_only_summary_witness :
  let locals :=
    [ local_channel "no" [config_of "payments" remote_xab3; config_of "shared" local_ab];
      local_channel "se" [config_of "payments" local_xab; config_of "shared" local_ab;
                          config_of "shipping" local_ab] ] in
  let w := example_world locals {| listChannels := Ok []; listConfigs := λ _, Ok [] |} in
  ∃ r,
    CompareService.compareChannels w example_config "se" "no"
      {| CompareService.differencesOnly := true |} = Ok r
    ∧ map CompareService.cc_name (CompareService.cr_configs r) = ["payments"; "shipping"]
    ∧ CompareService.sum_identical (CompareService.cr_summary r) = 1.
Proof.
  intros locals w.
  destruct (CompareService.compareChannels w example_config "se" "no"
              {| CompareService.differencesOnly := true |}) as [r|e] eqn:Hr;
    [|vm_compute in Hr; discriminate Hr].
  exists r. split; [reflexivity|].
  destruct (differences_only_summary w example_config "se" "no" r Hr)
    as (r0 & Hr0 & Hemitted & _ & Hidentical & _).
  vm_compute in Hr0. injection Hr0 as <-.
  cbn [CompareService.cr_configs] in Hemitted, Hidentical.
  split; [rewrite Hemitted | rewrite Hidentical]; vm_compute; reflexivity.
Defined.

(** * Further properties of the code *)

(** ** merge/deep-merge.ts *)

(** A clone is structurally the value it was made from, when none of the
    value's keys is [__proto__] or an array index. *)
Theorem cloneValue_same (v : json) :
  wf_json v = true → ordinary_keys v = true → cloneValue v = v.
Proof. intros Hwf Hkeys. rewrite cloneValue_ordinary by done. by apply cloneValue_id. Qed.

Lemma cloneValue_same_witness :
  cloneValue (JObj [("a", JArr [JNum 1; JNull]); ("toString", JObj [("c", JStr "x")])])
  = JObj [("a", JArr [JNum 1; JNull]); ("toString", JObj [("c", JStr "x")])].
Proof. apply cloneValue_same; reflexivity. Defined.

(** The two keys the property leaves out: a copy has no entry for
    [__proto__], and it enumerates an array index first. *)
Example cloneValue_proto_and_index :
  cloneValue (JObj [("__proto__", JNum 5); ("a", JNum 1)]) = JObj [("a", JNum 1)]
  ∧ cloneValue (JObj [("b", JNum 1); ("7", JNum 2); ("3", JNum 3)])
    = JObj [("3", JNum 3); ("7", JNum 2); ("b", JNum 1)].
Proof. split; reflexivity. Qed.

Lemma deepMerge_second_loop_fresh (overlay acc : obj) :
  NoDup (obj_keys acc ++ obj_keys overlay) →
  Forall (λ kv, wf_json kv.2 = true) overlay →
  foldl (λ result '(key, overlayValue),
           if obj_has key result then result
           else if json_eqb overlayValue JNull then result
           else obj_set key (clone_own overlayValue) result) acc overlay
  = (acc ++ filter (λ kv, json_eqb kv.2 JNull = false) overlay)%list.
Proof.
  unfold obj_keys. revert acc.
  induction overlay as [|[k v] overlay IH]; intros acc Hnd Hwf; simpl.
  - by rewrite app_nil_r.
  - apply Forall_cons in Hwf as [Hv Hwf]. simpl in Hv.
    assert (k ∉ acc.*1) as Hk.
    { apply NoDup_app in Hnd as (_ & Hdisj & _). intros Hin.
      apply (Hdisj k Hin). csimpl. apply list_elem_of_here. }
    assert (obj_has k acc = false) as -> by by apply bool_decide_eq_false.
    rewrite filter_cons. simpl. destruct (json_eqb v JNull) eqn:Hnull.
    + rewrite decide_False by done. apply IH; [|done].
      csimpl in Hnd. apply NoDup_app in Hnd as (Hacc & Hdisj & [_ Ho]%NoDup_cons).
      apply NoDup_app. split_and!; [done | | done].
      intros x Hx Hx'. apply (Hdisj x Hx). by apply list_elem_of_further.
    + rewrite decide_True by done. rewrite cloneValue_id by done.
      rewrite obj_set_fresh by done. rewrite IH; [by rewrite <- app_assoc | | done].
      rewrite fmap_app. csimpl. rewrite <- app_assoc. done.
Qed.

Lemma deepMerge_empty_overlay_loop (base acc : obj) :
  NoDup (obj_keys acc ++ obj_keys base) →
  Forall (λ kv, wf_json kv.2 = true) base →
  foldl (λ result '(key, baseValue),
           match obj_get key [] with
           | Some JNull => result
           | None => obj_set key (clone_own baseValue) result
           | Some overlayValue => obj_set key (merge_own_values baseValue overlayValue) result
           end) acc base
  = (acc ++ base)%list.
Proof.
  unfold obj_keys. revert acc.
  induction base as [|[k v] base IH]; intros acc Hnd Hwf; simpl.
  - by rewrite app_nil_r.
  - apply Forall_cons in Hwf as [Hv Hwf]. simpl in Hv.
    assert (k ∉ acc.*1) as Hk.
    { apply NoDup_app in Hnd as (_ & Hdisj & _). intros Hin.
      apply (Hdisj k Hin). csimpl. apply list_elem_of_here. }
    rewrite cloneValue_id by done. rewrite obj_set_fresh by done.
    rewrite IH; [by rewrite <- app_assoc | | done].
    rewrite fmap_app. csimpl. rewrite <- app_assoc. done.
Qed.

(** For an object with plain keys: merging an empty overlay gives the
    object back; merging it into an empty base gives it without its
    top-level [null] entries (a [null] deeper inside a value stays). *)
Theorem deepMerge_empty (o : obj) :
  wf_obj o = true → plain_keys (JObj o) = true →
  deepMerge o [] = Value o
  ∧ deepMerge [] o = Value (filter (λ kv, json_eqb kv.2 JNull = false) o).
Proof.
  intros Hwf Hplain. pose proof (wf_obj_NoDup _ Hwf) as Hnd.
  pose proof (wf_obj_values _ Hwf) as Hvals.
  rewrite !deepMerge_plain by done. split; f_equal.
  - unfold merge_own, merge_own_body. cbn [foldl].
    by rewrite (deepMerge_empty_overlay_loop o []).
  - unfold merge_own, merge_own_body. cbn [foldl].
    by rewrite (deepMerge_second_loop_fresh o []).
Qed.

Lemma deepMerge_empty_witness :
  deepMerge [("a", JNum 1); ("b", JNull)] [] = Value [("a", JNum 1); ("b", JNull)]
  ∧ deepMerge [] [("a", JNull); ("b", JObj [("c", JNull)])]
    = Value [("b", JObj [("c", JNull)])].
Proof.
  split.
  - apply (deepMerge_empty [("a", JNum 1); ("b", JNull)]); reflexivity.
  - apply (deepMerge_empty [("a", JNull); ("b", JObj [("c", JNull)])]); reflexivity.
Defined.

Lemma deepMerge_first_loop_keys (mv : json → json → json) (overlay base acc : obj) :
  NoDup (obj_keys acc ++ obj_keys base) →
  obj_keys
    (foldl (λ result '(key, baseValue),
              match obj_get key overlay with
              | Some JNull => result
              | None => obj_set key (clone_own baseValue) result
              | Some overlayValue => obj_set key (mv baseValue overlayValue) result
              end) acc base)
  = (obj_keys acc ++ obj_keys (filter (λ kv, nulled_by overlay kv.1 = false) base))%list.
Proof.
  unfold obj_keys. revert acc.
  induction base as [|[k v] base IH]; intros acc Hnd; simpl.
  - by rewrite app_nil_r.
  - assert (k ∉ acc.*1) as Hk.
    { apply NoDup_app in Hnd as (_ & Hdisj & _). intros Hin.
      apply (Hdisj k Hin). csimpl. apply list_elem_of_here. }
    assert (NoDup (acc.*1 ++ base.*1)) as Hnd'.
    { csimpl in Hnd. apply NoDup_app in Hnd as (Hacc & Hdisj & [_ Ho]%NoDup_cons).
      apply NoDup_app. split_and!; [done | | done].
      intros x Hx Hx'. apply (Hdisj x Hx). by apply list_elem_of_further. }
    assert (∀ x : json, NoDup ((acc ++ [(k, x)])%list.*1 ++ base.*1)) as Hnd''.
    { intros x. rewrite fmap_app. csimpl. by rewrite <- app_assoc. }
    rewrite filter_cons. cbn [fst].
    destruct (decide (nulled_by overlay k = false)) as [Hn|Hn]; unfold nulled_by in Hn;
      destruct (obj_get k overlay) as [[]|]; try done; try (by apply IH);
      rewrite obj_set_fresh by done;
      rewrite IH by done; rewrite fmap_app; csimpl; by rewrite <- app_assoc.
Qed.

Lemma filter_ext_in {A} (P Q : A → Prop) `{∀ x, Decision (P x)} `{∀ x, Decision (Q x)}
    (l : list A) :
  (∀ x, x ∈ l → (P x ↔ Q x)) → filter P l = filter Q l.
Proof.
  induction l as [|x l IH]; intros Hpq; [done|].
  rewrite !filter_cons. rewrite IH by (intros; apply Hpq; by apply list_elem_of_further).
  destruct (decide (P x)) as [HP|HP], (decide (Q x)) as [HQ|HQ]; try done;
    exfalso; apply (Hpq x (list_elem_of_here _ _)) in HP || apply HP, (Hpq x (list_elem_of_here _ _)), HQ;
    done.
Qed.

Lemma deepMerge_second_loop_keys (overlay acc : obj) :
  NoDup (obj_keys overlay) →
  obj_keys
    (foldl (λ result '(key, overlayValue),
              if obj_has key result then result
              else if json_eqb overlayValue JNull then result
              else obj_set key (clone_own overlayValue) result) acc overlay)
  = (obj_keys acc
     ++ obj_keys (filter (λ kv, (kv.1 ∉ obj_keys acc) ∧ json_eqb kv.2 JNull = false) overlay))%list.
Proof.
  unfold obj_keys. revert acc.
  induction overlay as [|[k v] overlay IH]; intros acc Hnd; simpl.
  - by rewrite app_nil_r.
  - csimpl in Hnd. apply NoDup_cons in Hnd as [Hk Hnd].
    rewrite filter_cons. cbn [fst snd].
    destruct (obj_has k acc) eqn:Hhas.
    + apply bool_decide_eq_true in Hhas.
      rewrite decide_False by (by intros [? _]). by apply IH.
    + apply bool_decide_eq_false in Hhas. destruct (json_eqb v JNull) eqn:Hnull.
      * rewrite decide_False by (by intros [_ ?]). by apply IH.
      * rewrite decide_True by done. rewrite obj_set_fresh by done.
        rewrite IH by done. rewrite fmap_app. csimpl. rewrite <- app_assoc. do 3 f_equal.
        apply filter_ext_in. intros [k' v'] Hin. cbn [fst snd].
        rewrite not_elem_of_app, list_elem_of_singleton.
        assert (k' ≠ k).
        { intros ->. apply Hk. apply list_elem_of_fmap. by exists (k, v'). }
        tauto.
Qed.

(** The keys of the merged object, in order, for two objects with plain
    keys (no array index among them, which would be enumerated first):
    the keys of [base] that the overlay does not set to [null], in the
    order of [base], then the keys only the overlay has, with a non-null
    value, in the order of the overlay. *)
Theorem deepMerge_key_order (base overlay : obj) :
  NoDup (obj_keys base) → NoDup (obj_keys overlay) →
  plain_keys (JObj base) = true → plain_keys (JObj overlay) = true →
  obj_keys <$> deepMerge base overlay
  = Value (obj_keys (filter (λ kv, nulled_by overlay kv.1 = false) base)
           ++ obj_keys (filter (λ kv, (kv.1 ∉ obj_keys base) ∧ json_eqb kv.2 JNull = false)
                               overlay))%list.
Proof.
  intros Hb Ho Hpb Hpo. rewrite deepMerge_plain by done.
  change (obj_keys <$> Value ?r) with (Value (obj_keys r)). f_equal.
  unfold merge_own, merge_own_body.
  rewrite deepMerge_second_loop_keys by done.
  rewrite deepMerge_first_loop_keys by done. cbn [obj_keys fmap list_fmap app].
  f_equal. f_equal. apply filter_ext_in. intros [k v] Hin. cbn [fst snd].
  split; intros [Hk Hv]; (split; [|done]); intros Hin'; apply Hk.
  - unfold obj_keys in *. apply list_elem_of_fmap in Hin' as ([k' v'] & Hk' & Hin').
    cbn in Hk'. subst k'. apply list_elem_of_fmap. exists (k, v'). split; [done|].
    apply list_elem_of_filter. split; [|done]. cbn [fst]. unfold nulled_by.
    rewrite (obj_get_NoDup k v overlay) by done. destruct v; done.
  - unfold obj_keys in *. apply list_elem_of_fmap in Hin' as ([k' v'] & Hk' & Hin').
    cbn in Hk'. subst k'. apply list_elem_of_filter in Hin' as [_ Hin'].
    apply list_elem_of_fmap. by exists (k, v').
Qed.

Lemma deepMerge_key_order_witness :
  obj_keys <$> deepMerge [("a", JNum 1); ("b", JNum 2); ("c", JNum 3)]
                         [("z", JNum 0); ("b", JNull); ("a", JNum 9); ("y", JNull)]
  = Value ["a"; "c"; "z"].
Proof.
  rewrite (deepMerge_key_order [("a", JNum 1); ("b", JNum 2); ("c", JNum 3)]
             [("z", JNum 0); ("b", JNull); ("a", JNum 9); ("y", JNull)]);
    [reflexivity | by_compute | by_compute | reflexivity | reflexivity].
Defined.

Lemma deepMerge_overlay_value (base overlay : obj) (k : string) (v : json) :
  wf_obj base = true → wf_obj overlay = true →
  obj_get k overlay = Some v → v ≠ JNull → ¬ is_object_map v →
  obj_get k (merge_own base overlay) = Some v.
Proof.
  intros Hb Ho Hv Hnull Hobj.
  pose proof (wf_obj_NoDup _ Hb) as Hndb. pose proof (wf_obj_NoDup _ Ho) as Hndo.
  pose proof (wf_obj_get _ _ _ Ho Hv) as Hwf.
  unfold merge_own. rewrite deepMerge_body_get, Hv by done.
  assert (match obj_get k base with
          | Some baseValue => Some (merge_own_values baseValue v)
          | None => Some (clone_own v)
          end = Some v) as Hres.
  { destruct (obj_get k base) as [bv|]; [|by rewrite cloneValue_id].
    rewrite mergeValues_eq. case_bool_decide; simpl negb; cbv iota;
      [|by rewrite cloneValue_id].
    destruct (isArray bv || isArray v); [by rewrite cloneValue_id|].
    destruct bv, v; simpl in *; try done; tauto. }
  destruct v; done.
Qed.

(** For two objects with plain keys, a value of the overlay that is
    neither [null] nor an object map (a scalar or a sequence) is the value
    of its key in the result, whatever the base holds there. *)
Theorem deepMerge_overlay_value_wins (base overlay : obj) (k : string) (v : json) :
  wf_obj base = true → wf_obj overlay = true →
  plain_keys (JObj base) = true → plain_keys (JObj overlay) = true →
  obj_get k overlay = Some v → v ≠ JNull → ¬ is_object_map v →
  obj_get k <$> deepMerge base overlay = Value (Some v).
Proof.
  intros Hb Ho Hpb Hpo Hv Hnull Hobj. rewrite deepMerge_plain by done.
  change (obj_get k <$> Value ?r) with (Value (obj_get k r)). f_equal.
  by apply deepMerge_overlay_value.
Qed.

Lemma deepMerge_overlay_value_wins_witness :
  obj_get "id" <$> deepMerge [("id", JObj [("x", JNum 1)]); ("a", JNum 1)]
                             [("id", JStr "checkout"); ("a", JNull)]
  = Value (Some (JStr "checkout")).
Proof.
  apply deepMerge_overlay_value_wins;
    [reflexivity | reflexivity | reflexivity | reflexivity | reflexivity | done | ].
  simpl. tauto.
Defined.

Lemma deepMerge_self_first_loop (mv : json → json → json) (overlay suffix acc : obj) :
  NoDup (obj_keys acc ++ obj_keys suffix) →
  (∀ k v, (k, v) ∈ suffix → obj_get k overlay = Some v ∧ v ≠ JNull ∧ mv v v = v) →
  foldl (λ result '(key, baseValue),
           match obj_get key overlay with
           | Some JNull => result
           | None => obj_set key (clone_own baseValue) result
           | Some overlayValue => obj_set key (mv baseValue overlayValue) result
           end) acc suffix
  = (acc ++ suffix)%list.
Proof.
  revert acc. induction suffix as [|[k v] suffix IH]; intros acc Hnd Hall; cbn [foldl].
  - by rewrite app_nil_r.
  - destruct (Hall k v (list_elem_of_here _ _)) as (-> & Hnull & Hmv).
    assert (match v with
            | JNull => acc
            | _ => obj_set k (mv v v) acc
            end = (acc ++ [(k, v)])%list) as Hstep.
    { rewrite Hmv, <- obj_set_fresh; [by destruct v|].
      unfold obj_keys in Hnd. csimpl in Hnd.
      apply NoDup_app in Hnd as (_ & Hdisj & _). intros Hin.
      apply (Hdisj k Hin). apply list_elem_of_here. }
    transitivity (foldl (λ result '(key, baseValue),
                           match obj_get key overlay with
                           | Some JNull => result
                           | None => obj_set key (clone_own baseValue) result
                           | Some overlayValue => obj_set key (mv baseValue overlayValue) result
                           end) (acc ++ [(k, v)])%list suffix).
    { f_equal. rewrite <- Hstep. by destruct v. }
    rewrite IH.
    + by rewrite <- app_assoc.
    + unfold obj_keys in *. rewrite fmap_app. csimpl. rewrite <- app_assoc. exact Hnd.
    + intros k' v' Hin. apply Hall. by apply list_elem_of_further.
Qed.

Lemma deepMerge_self_second_loop (overlay acc : obj) :
  (∀ kv, kv ∈ overlay → obj_has kv.1 acc = true) →
  foldl (λ result '(key, overlayValue),
           if obj_has key result then result
           else if json_eqb overlayValue JNull then result
           else obj_set key (clone_own overlayValue) result) acc overlay
  = acc.
Proof.
  induction overlay as [|[k v] overlay IH]; intros Hall; cbn [foldl]; [done|].
  pose proof (Hall (k, v) (list_elem_of_here _ _)) as Hk. cbn [fst] in Hk.
  rewrite Hk. apply IH.
  intros kv Hkv. apply Hall. by apply list_elem_of_further.
Qed.

Lemma mergeValues_self (v : json) :
  wf_json v = true → no_null_field v = true → merge_own_values v v = v.
Proof.
  induction v as [| | | |items IH|fields IH] using json_ind'; intros Hwf Hnn; try done.
  - change (merge_own_values (JArr items) (JArr items)) with (clone_own (JArr items)).
    by apply cloneValue_id.
  - rewrite mergeValues_eq. cbn [typeof isArray orb negb].
    rewrite bool_decide_eq_true_2 by done. cbn [negb]. f_equal.
    pose proof (wf_obj_NoDup fields Hwf) as Hnd.
    pose proof (wf_obj_values fields Hwf) as Hvals.
    cbn [no_null_field] in Hnn. rewrite forallb_forall in Hnn.
    rewrite Forall_forall in IH, Hvals.
    unfold merge_own, merge_own_body.
    rewrite (deepMerge_self_first_loop merge_own_values fields fields []).
    + apply deepMerge_self_second_loop. intros [k x] Hin. cbn [app fst].
      apply bool_decide_eq_true. apply list_elem_of_fmap. by exists (k, x).
    + done.
    + intros k x Hin.
      specialize (Hnn (k, x) (proj1 (list_elem_of_In _ _) Hin)).
      apply andb_true_iff in Hnn as [Hnull Hdeep]. cbn [snd] in Hnull, Hdeep.
      split_and!.
      * by apply obj_get_NoDup.
      * intros ->. by rewrite json_eqb_refl in Hnull.
      * apply (IH (k, x) Hin); [by apply (Hvals (k, x)) | done].
Qed.

(** Merging an object with plain keys into itself changes nothing, when
    no object map in it holds a [null] field: a channel file that repeats
    its root file resolves to that very content. *)
Theorem deepMerge_self (o : obj) :
  wf_obj o = true → plain_keys (JObj o) = true → no_null_field (JObj o) = true →
  deepMerge o o = Value o.
Proof.
  intros Hwf Hplain Hnn. rewrite deepMerge_plain by done. f_equal.
  pose proof (mergeValues_self (JObj o) Hwf Hnn) as Hself.
  rewrite mergeValues_eq in Hself. cbn [typeof isArray orb negb] in Hself.
  rewrite bool_decide_eq_true_2 in Hself by done. cbn [negb] in Hself.
  by injection Hself.
Qed.

Lemma deepMerge_self_witness :
  let o : obj := [("id", JStr "klarna");
                  ("options", JObj [("modes", JArr [JNull; JStr "live"]); ("retries", JNum 3)])] in
  deepMerge o o = Value o.
Proof. intros o. apply deepMerge_self; reflexivity. Defined.

(** ** config/loader.ts and merge/hierarchy.ts *)

Lemma inline_schema_check (rootConfig raw : obj) :
  falsy_opt (obj_get "$schema" rootConfig) || falsy_opt (obj_get "$schema" raw)
  || strict_eq_opt (obj_get "$schema" rootConfig) (obj_get "$schema" raw)
  = schemasCompatible rootConfig raw.
Proof.
  unfold schemasCompatible.
  destruct (obj_get "$schema" rootConfig) as [r|], (obj_get "$schema" raw) as [c|]; simpl;
    try done; try by rewrite orb_true_r.
Qed.

(** The loader's gate.  A channel file inherits exactly when a root file
    of its name exists, the channel file has an [id] key, and the check
    the loader writes inline, which is [schemasCompatible], passes; the
    merged content is then [deepMerge root raw].  In every other case the
    channel's content is used as it is, and without an [id] key (or
    without a root file) the root file is not even read, so its being
    unreadable cannot fail the load. *)
Theorem resolveInheritance_gate (rootConfigPath : option string)
    (loadYamlFile : string → result obj) (raw : obj) :
  (option_set rootConfigPath = None ∨ shouldInherit raw = false →
   resolveInheritance rootConfigPath loadYamlFile raw = Ok (Value raw, false))
  ∧ (∀ rootPath, option_set rootConfigPath = Some rootPath → shouldInherit raw = true →
       match loadYamlFile rootPath with
       | Ok rootConfig =>
           resolveInheritance rootConfigPath loadYamlFile raw
           = Ok (if schemasCompatible rootConfig raw
                 then (deepMerge rootConfig raw, true) else (Value raw, false))
       | Throw e => resolveInheritance rootConfigPath loadYamlFile raw = Throw e
       end).
Proof.
  unfold resolveInheritance. split.
  - intros [-> | Hno]; [done|]. destruct (option_set rootConfigPath); [|done].
    by rewrite Hno.
  - intros rootPath -> ->. destruct (loadYamlFile rootPath) as [rootConfig|e]; [|done].
    simpl. rewrite inline_schema_check. by destruct (schemasCompatible rootConfig raw).
Qed.

Lemma resolveInheritance_gate_witness :
  resolveInheritance (Some "/project/checkout.yaml") (λ _, Throw (Error "EACCES"))
    [("a", JNum 1)]
  = Ok (Value [("a", JNum 1)], false).
Proof.
  apply (resolveInheritance_gate (Some "/project/checkout.yaml")
           (λ _, Throw (Error "EACCES")) [("a", JNum 1)]).
  right. reflexivity.
Defined.

(** For a channel file and root files with plain keys: whatever the
    loader resolves, the channel file's own [id] is the [id] of the merged
    content when it is a string; a root file never overrides it. *)
Theorem resolveInheritance_keeps_id (rootConfigPath : option string)
    (loadYamlFile : string → result obj) (raw merged : obj) (inherits : bool) (i : string) :
  wf_obj raw = true → plain_keys (JObj raw) = true →
  (∀ p rootConfig, loadYamlFile p = Ok rootConfig →
                   wf_obj rootConfig = true ∧ plain_keys (JObj rootConfig) = true) →
  obj_get "id" raw = Some (JStr i) →
  resolveInheritance rootConfigPath loadYamlFile raw = Ok (Value merged, inherits) →
  obj_get "id" merged = Some (JStr i).
Proof.
  intros Hraw Hplain Hroot Hid. unfold resolveInheritance.
  destruct (option_set rootConfigPath) as [rootPath|]; [|by intros [= <- <-]].
  destruct (shouldInherit raw); [|by intros [= <- <-]].
  destruct (loadYamlFile rootPath) as [rootConfig|e] eqn:Hload; [|done]. simpl.
  destruct (Hroot _ _ Hload) as [Hwfroot Hplainroot].
  destruct (_ || _); [|by intros [= <- <-]].
  unfold mergeConfigs. rewrite deepMerge_plain by done. intros [= <- <-].
  apply deepMerge_overlay_value; try done. simpl. tauto.
Qed.

Lemma resolveInheritance_keeps_id_witness :
  ∃ merged,
    resolveInheritance (Some "/project/checkout.yaml")
      (λ _, Ok [("id", JStr "root"); ("a", JNum 1)])
      [("id", JStr "channel"); ("b", JNum 2)]
    = Ok (Value merged, true)
    ∧ obj_get "id" merged = Some (JStr "channel").
Proof.
  eexists. split; [reflexivity|].
  apply (resolveInheritance_keeps_id (Some "/project/checkout.yaml")
           (λ _, Ok [("id", JStr "root"); ("a", JNum 1)])
           [("id", JStr "channel"); ("b", JNum 2)] _ true "channel");
    [reflexivity | reflexivity | by intros p rootConfig [= <-] | reflexivity | reflexivity].
Defined.

(** ** diff/differ.ts *)

(** An array change of the package wraps a new or a deleted element. *)
Lemma deepDiff_array_items (lhs : json) :
  ∀ rhs currentPath d,
    d ∈ DeepDiff.deepDiff lhs rhs currentPath →
    match d with
    | DeepDiff.DiffArray _ _ (DeepDiff.DiffNew _ _)
    | DeepDiff.DiffArray _ _ (DeepDiff.DiffDeleted _ _) => True
    | DeepDiff.DiffArray _ _ _ => False
    | _ => True
    end.
Proof.
  induction lhs as [| | | |items IH|fields IH] using json_ind'; intros rhs p d;
    try (destruct rhs; simpl; repeat case_match;
         rewrite ?elem_of_nil, ?list_elem_of_singleton; try done; by intros ->).
  - destruct rhs as [| | | |ritems|rfields];
      try (simpl; rewrite list_elem_of_singleton; by intros ->).
    simpl. rewrite !elem_of_app, !elem_of_reverse. intros [Hd|[Hd|Hd]].
    + apply subseteq_drop, elem_of_lookup_imap in Hd as (i & y & -> & _). done.
    + apply subseteq_drop, elem_of_lookup_imap in Hd as (i & y & -> & _). done.
    + apply elem_of_concat in Hd as (ds & Hds & Hd). rewrite elem_of_reverse in Hds.
      apply elem_of_zip_with in Hds as (x & iy & -> & Hx & _).
      rewrite Forall_forall in IH. by apply IH in Hd.
  - destruct rhs as [| | | |ritems|rfields];
      try (simpl; rewrite list_elem_of_singleton; by intros ->).
    rewrite deepDiff_objects, elem_of_app, !elem_of_concat.
    intros [(ds & Hds & Hd)|(ds & Hds & Hd)];
      apply list_elem_of_fmap in Hds as (kx & -> & Hkx).
    + destruct (obj_get kx.1 rfields) as [y|].
      * rewrite Forall_forall in IH. by apply IH in Hd.
      * by apply list_elem_of_singleton in Hd as ->.
    + destruct (obj_has kx.1 fields); [by apply elem_of_nil in Hd|].
      case_bool_decide; [by apply elem_of_nil in Hd|].
      by apply list_elem_of_singleton in Hd as ->.
Qed.

(** Every entry [diffConfigs] reports is well formed for its type: an
    [add] carries a new value and no old one, a [remove] an old value and
    no new one, a [change] both. *)
Theorem diffConfigs_entries_ok (local remote : obj) :
  Forall field_diff_ok (diffConfigs local remote).
Proof.
  rewrite diffConfigs_eq. apply Forall_forall.
  intros fd (d & -> & [_ Hd]%list_elem_of_filter)%list_elem_of_fmap.
  apply deepDiff_array_items in Hd. unfold field_diff_ok.
  destruct d as [| | |? ? []]; simpl; try done; split; by eexists.
Qed.

Lemma concat_nil_inv {A} (ls : list (list A)) : concat ls = [] → Forall (λ l, l = []) ls.
Proof.
  induction ls as [|l ls IH]; [constructor|]. simpl.
  intros [-> Hls]%app_eq_nil. constructor; [done | by apply IH].
Qed.

Lemma reverse_nil_inv {A} (l : list A) : reverse l = [] → l = [].
Proof.
  intros H. apply (f_equal length) in H. rewrite length_reverse in H.
  by apply length_zero_iff_nil.
Qed.

(** Conversely, an empty list of changes means the two values are equal
    up to the order of keys, provided the right-hand value has no
    empty-string key. *)
Lemma deepDiff_nil_equiv (lhs : json) :
  ∀ rhs currentPath,
    wf_json lhs = true → wf_json rhs = true → no_empty_key rhs = true →
    DeepDiff.deepDiff lhs rhs currentPath = [] → json_equiv lhs rhs.
Proof.
  induction lhs as [| | | |items IH|fields IH] using json_ind';
    intros rhs p Hl Hr Hne;
    try (destruct rhs; simpl; try done; case_bool_decide; try done; subst; by constructor).
  - by destruct rhs; simpl; try done; constructor.
  - destruct rhs as [| | | |ritems|rfields]; try done.
    simpl. intros (Hnew%reverse_nil_inv & (Hdel%reverse_nil_inv
                   & Hcommon%concat_nil_inv)%app_eq_nil)%app_eq_nil.
    assert (length items = length ritems) as Hlen.
    { apply (f_equal length) in Hnew, Hdel.
      rewrite length_drop, length_imap in Hnew, Hdel. simpl in *. lia. }
    constructor. simpl in Hl, Hr, Hne. rewrite forallb_forall in Hl, Hr, Hne.
    clear Hnew Hdel. rewrite Forall_forall in Hcommon.
    assert (∀ ds, ds ∈ zip_with (λ x iy, DeepDiff.deepDiff x iy.2 (p ++ [DeepDiff.Idx iy.1]))
                         items (imap pair ritems) → ds = []) as Hzip.
    { intros ds Hds. apply Hcommon. by apply elem_of_reverse. }
    clear Hcommon.
    assert (∀ (f : nat → json → nat * json), (∀ i y, (f i y).2 = y) →
              (∀ ds, ds ∈ zip_with (λ x iy, DeepDiff.deepDiff x iy.2 (p ++ [DeepDiff.Idx iy.1]))
                            items (imap f ritems) → ds = []) →
              Forall2 json_equiv items ritems) as Hgen; [|by apply (Hgen pair)].
    clear -IH Hl Hr Hne Hlen. revert ritems Hlen Hr Hne.
    induction IH as [|x items Hx _ IHitems]; intros [|y ritems] Hlen Hr Hne f Hf Hzip;
      try done.
    constructor.
    + apply (Hx y (p ++ [DeepDiff.Idx (f 0 y).1])%list);
        [apply Hl; by left | apply Hr; by left | apply Hne; by left|].
      specialize (Hzip (DeepDiff.deepDiff x (f 0 y).2 (p ++ [DeepDiff.Idx (f 0 y).1])%list)).
      rewrite Hf in Hzip. apply Hzip. simpl. rewrite Hf. apply list_elem_of_here.
    + assert (length items = length ritems) as Hlen' by by injection Hlen.
      apply (IHitems (λ z Hz, Hl z (or_intror Hz)) ritems Hlen'
               (λ z Hz, Hr z (or_intror Hz)) (λ z Hz, Hne z (or_intror Hz)) (f ∘ S)).
      * intros i z. apply Hf.
      * intros ds Hds. apply Hzip. simpl. by apply list_elem_of_further.
  - destruct rhs as [| | | |ritems|rfields]; try done.
    rewrite deepDiff_objects.
    intros [Hleft%concat_nil_inv Hright%concat_nil_inv]%app_eq_nil.
    rewrite Forall_forall in Hleft, Hright.
    pose proof (wf_obj_NoDup _ Hl) as Hndl. pose proof (wf_obj_NoDup _ Hr) as Hndr.
    simpl in Hne. apply andb_true_iff in Hne as [Hne Hnes]. rewrite forallb_forall in Hnes.
    apply negb_true_iff, bool_decide_eq_false in Hne.
    constructor. intros k. destruct (obj_get k fields) as [x|] eqn:Hx.
    + pose proof (obj_get_elem_of _ _ _ Hx) as Hin.
      specialize (Hleft _ (list_elem_of_fmap_2 _ _ _ Hin)). cbn [fst snd] in Hleft.
      destruct (obj_get k rfields) as [y|] eqn:Hy; [|done]. constructor.
      rewrite Forall_forall in IH.
      apply (IH (k, x) Hin y (p ++ [DeepDiff.Key k])%list); try done.
      * by apply (wf_obj_get k x fields).
      * by apply (wf_obj_get k y rfields).
      * apply (Hnes (k, y)). apply list_elem_of_In. by apply obj_get_elem_of.
    + destruct (obj_get k rfields) as [y|] eqn:Hy; [|constructor]. exfalso.
      pose proof (obj_get_elem_of _ _ _ Hy) as Hin.
      specialize (Hright _ (list_elem_of_fmap_2 _ _ _ Hin)). cbn [fst snd] in Hright.
      apply obj_has_false in Hx. rewrite Hx in Hright.
      case_bool_decide as Hk; [|done]. subst k. apply Hne.
      apply list_elem_of_fmap. by exists ("", y).
Qed.

Lemma without_schema_no_empty_key (o : obj) :
  no_empty_key (JObj o) = true → no_empty_key (JObj (without_schema o)) = true.
Proof.
  simpl. rewrite !andb_true_iff, !negb_true_iff, !bool_decide_eq_false, !forallb_forall.
  intros [Hne Hall]. split.
  - intros (kv & Hk & [_ Hin]%list_elem_of_filter)%list_elem_of_fmap.
    apply Hne. apply list_elem_of_fmap. by exists kv.
  - intros kv Hin. apply Hall. apply list_elem_of_In.
    apply list_elem_of_In in Hin. by apply list_elem_of_filter in Hin as [_ ?].
Qed.

Lemma differ_only_in_schema_sym (a b : obj) :
  differ_only_in_schema a b → differ_only_in_schema b a.
Proof.
  intros Hab k Hk. destruct (Hab k Hk); constructor. by apply json_equiv_sym.
Qed.

Lemma diffConfigs_nil_iff (local remote : obj) :
  wf_obj local = true → wf_obj remote = true → no_empty_key (JObj local) = true →
  diffConfigs local remote = [] ↔ differ_only_in_schema local remote.
Proof.
  intros Hl Hr Hne. rewrite diffConfigs_eq, relevant_changes. split.
  - intros Hnil%fmap_nil_inv.
    apply deepDiff_nil_equiv in Hnil;
      [| by apply (without_schema_wf remote) | by apply (without_schema_wf local)
       | by apply without_schema_no_empty_key].
    inversion Hnil as [| | | | |? ? Hkeys]; subst. intros k Hk. specialize (Hkeys k).
    rewrite !obj_get_without_schema in Hkeys by done.
    destruct Hkeys; constructor. by apply json_equiv_sym.
  - intros Hsame. rewrite deepDiff_equiv;
      [done | by apply (without_schema_wf remote) | by apply (without_schema_wf local) |].
    constructor. intros k.
    destruct (differ_only_in_schema_without _ _ Hsame k); constructor.
    by apply json_equiv_sym.
Qed.

(** [configsEqual] decides equality of the two objects outside their
    top-level [$schema], up to the order of keys at every depth, when
    [local] has no empty-string key. *)
Theorem configsEqual_iff (local remote : obj) :
  wf_obj local = true → wf_obj remote = true → no_empty_key (JObj local) = true →
  configsEqual local remote = true ↔ differ_only_in_schema local remote.
Proof.
  intros Hl Hr Hne. unfold configsEqual.
  rewrite bool_decide_eq_true, length_zero_iff_nil. by apply diffConfigs_nil_iff.
Qed.

Lemma configsEqual_iff_witness :
  configsEqual [("a", JObj [("x", JNum 1); ("y", JNum 2)]); ("$schema", JStr "v2")]
               [("$schema", JStr "v1"); ("a", JObj [("y", JNum 2); ("x", JNum 1)])] = true
  ↔ differ_only_in_schema
      [("a", JObj [("x", JNum 1); ("y", JNum 2)]); ("$schema", JStr "v2")]
      [("$schema", JStr "v1"); ("a", JObj [("y", JNum 2); ("x", JNum 1)])].
Proof. apply configsEqual_iff; reflexivity. Defined.

Lemma deepDiff_common_prefix (l k1 k2 : list json) (p : list DeepDiff.seg)
    (f : nat → json → nat * json) (ds : list DeepDiff.change) :
  (∀ i y, (f i y).2 = y) → Forall (λ x, wf_json x = true) l → k1 = [] ∨ k2 = [] →
  ds ∈ zip_with (λ x iy, DeepDiff.deepDiff x iy.2 (p ++ [DeepDiff.Idx iy.1])%list)
         (l ++ k1)%list (imap f (l ++ k2)%list) →
  ds = [].
Proof.
  intros Hf Hwf Hk. revert f Hf. induction Hwf as [|x l Hx _ IH]; intros f Hf; simpl.
  - destruct Hk as [-> | ->]; simpl; [by intros ?%elem_of_nil|].
    destruct k1; by intros ?%elem_of_nil.
  - intros [->|Hin]%elem_of_cons.
    + rewrite Hf. by apply deepDiff_refl.
    + apply (IH (f ∘ S)); [by intros; apply Hf | done].
Qed.

(** Growing or shrinking an array at its end: one [add] (or [remove]) per
    surplus element, at path [/key/index], reported from the last index
    down; the common elements, unchanged, give no entry. *)
Theorem diffConfigs_array_tail (k : string) (xs ys : list json) :
  k ≠ "$schema" → wf_json (JArr xs) = true →
  diffConfigs [(k, JArr (xs ++ ys))] [(k, JArr xs)]
  = reverse (imap (λ i y, {| path := "/" ++ k ++ "/" ++ seg_string (DeepDiff.Idx (length xs + i));
                             type := add; oldValue := None; newValue := Some y |}) ys)
  ∧ diffConfigs [(k, JArr xs)] [(k, JArr (xs ++ ys))]
    = reverse (imap (λ i y, {| path := "/" ++ k ++ "/" ++ seg_string (DeepDiff.Idx (length xs + i));
                               type := remove; oldValue := Some y; newValue := None |}) ys).
Proof.
  intros Hk Hwf. simpl in Hwf. rewrite forallb_forall in Hwf.
  assert (Forall (λ x, wf_json x = true) xs) as Hxs.
  { apply Forall_forall. intros x Hx. apply Hwf. by apply list_elem_of_In. }
  assert (∀ v, without_schema [(k, v)] = [(k, v)]) as Hws.
  { intros v. rewrite without_schema_cons. by rewrite decide_False. }
  assert (∀ v, obj_has k [(k, v)] = true) as Hhas.
  { intros v. apply bool_decide_eq_true. apply list_elem_of_here. }
  split.
  - rewrite diffConfigs_eq, relevant_changes, !Hws, deepDiff_objects.
    cbn [map concat fst snd obj_get]. rewrite decide_True by done. rewrite Hhas.
    rewrite !app_nil_r. cbn [DeepDiff.deepDiff DeepDiff.realTypeOf DeepDiff.real_type_eqb negb].
    rewrite imap_app, drop_app_length' by (by rewrite length_imap).
    rewrite (drop_ge (imap _ xs)) by (rewrite length_imap, length_app; lia).
    rewrite concat_nil_Forall.
    + rewrite ?reverse_nil, ?app_nil_r, ?app_nil_l.
      change (map convertDiff) with (fmap (M:=list) convertDiff).
      rewrite fmap_reverse, fmap_imap.
      f_equal.
    + apply Forall_forall. intros ds Hds. rewrite elem_of_reverse in Hds.
      rewrite <- (app_nil_r xs) in Hds at 1.
      eapply (deepDiff_common_prefix xs [] ys); [| done | by left | done]. done.
  - rewrite diffConfigs_eq, relevant_changes, !Hws, deepDiff_objects.
    cbn [map concat fst snd obj_get]. rewrite decide_True by done. rewrite Hhas.
    rewrite !app_nil_r. cbn [DeepDiff.deepDiff DeepDiff.realTypeOf DeepDiff.real_type_eqb negb].
    rewrite (imap_app _ xs ys), drop_app_length' by (by rewrite length_imap).
    rewrite (drop_ge (imap _ xs)) by (rewrite length_imap, length_app; lia).
    rewrite concat_nil_Forall.
    + rewrite ?reverse_nil, ?app_nil_r, ?app_nil_l.
      change (map convertDiff) with (fmap (M:=list) convertDiff).
      rewrite fmap_reverse, fmap_imap.
      f_equal.
    + apply Forall_forall. intros ds Hds. rewrite elem_of_reverse in Hds.
      rewrite <- (app_nil_r xs) in Hds at 2.
      eapply (deepDiff_common_prefix xs ys []); [| done | by right | done]. done.
Qed.

Lemma diffConfigs_array_tail_witness :
  diffConfigs [("tags", JArr [JStr "a"; JStr "b"; JStr "c"])] [("tags", JArr [JStr "a"])]
  = [ {| path := "/tags/2"; type := add; oldValue := None; newValue := Some (JStr "c") |};
      {| path := "/tags/1"; type := add; oldValue := None; newValue := Some (JStr "b") |} ]
  ∧ diffConfigs [("tags", JArr [JStr "a"])] [("tags", JArr [JStr "a"; JStr "b"; JStr "c"])]
    = [ {| path := "/tags/2"; type := remove; oldValue := Some (JStr "c"); newValue := None |};
        {| path := "/tags/1"; type := remove; oldValue := Some (JStr "b"); newValue := None |} ].
Proof.
  exact (diffConfigs_array_tail "tags" [JStr "a"] [JStr "b"; JStr "c"]
           ltac:(discriminate) eq_refl).
Defined.

(** What the remote side alone holds is removed: [diffConfigs {} remote]
    is, in key order, one [remove] per top-level key of [remote] other
    than [$schema], the empty-string key included. *)
Theorem remote_only_is_removes (remote : obj) :
  diffConfigs [] remote = map remove_of (without_schema remote).
Proof.
  rewrite diffConfigs_eq, relevant_changes, deepDiff_objects.
  change (without_schema []) with (@nil (string * json)).
  cbn [map concat app obj_get]. rewrite app_nil_r.
  induction (without_schema remote) as [|[k v] o IH]; [done|].
  cbn [map concat fst snd app]. f_equal. exact IH.
Qed.

Lemma deepDiff_scalars (old new : json) (currentPath : list DeepDiff.seg) :
  is_scalar old = true → is_scalar new = true → old ≠ new →
  DeepDiff.deepDiff old new currentPath = [DeepDiff.DiffEdit currentPath old new].
Proof.
  intros Hold Hnew Hne.
  assert (json_eqb old new = false) as Heqb.
  { destruct (json_eqb old new) eqn:E; [|done]. by apply json_eqb_spec in E. }
  destruct old, new; try done; cbn [DeepDiff.deepDiff DeepDiff.realTypeOf
    DeepDiff.real_type_eqb negb]; by rewrite Heqb.
Qed.

Lemma concat_map_single {A} (g : string * json → list A) (o : obj) (k : string)
    (x : json) (e : A) :
  NoDup (obj_keys o) → obj_get k o = Some x →
  g (k, x) = [e] → (∀ k' x', (k', x') ∈ o → k' ≠ k → g (k', x') = []) →
  concat (map g o) = [e].
Proof.
  unfold obj_keys. induction o as [|[k0 x0] o IH]; intros Hnd Hget Hg Hrest; [done|].
  csimpl in Hnd. apply NoDup_cons in Hnd as [Hk0 Hnd]. cbn [map concat].
  cbn [obj_get] in Hget. destruct (decide (k0 = k)) as [->|Hk].
  - injection Hget as ->. rewrite Hg. cbn [app]. f_equal.
    apply concat_nil_Forall, Forall_forall. intros ds ([k' x'] & -> & Hin)%list_elem_of_fmap.
    apply Hrest; [by apply list_elem_of_further|].
    intros ->. apply Hk0. apply list_elem_of_fmap. by exists (k, x').
  - rewrite (Hrest k0 x0); [|apply list_elem_of_here | done]. cbn [app].
    apply IH; [done | done | done |].
    intros k' x' Hin. apply Hrest. by apply list_elem_of_further.
Qed.

(** One top-level scalar set to another scalar, the rest as on the remote
    side: the diff is the single [change] of that key, with the remote
    value as [oldValue] and the local one as [newValue]. *)
Theorem one_field_changed (remote : obj) (k : string) (old new : json) :
  wf_obj remote = true → k ≠ "$schema" → obj_get k remote = Some old →
  is_scalar old = true → is_scalar new = true → old ≠ new →
  diffConfigs (obj_set k new remote) remote
  = [ {| path := "/" ++ k; type := change; oldValue := Some old; newValue := Some new |} ].
Proof.
  intros Hwf Hk Hget Hold Hnew Hne.
  pose proof (wf_obj_NoDup _ Hwf) as Hnd.
  rewrite diffConfigs_eq, deepDiff_objects.
  rewrite (concat_map_single _ remote k old (DeepDiff.DiffEdit [DeepDiff.Key k] old new));
    [| done | done | |].
  - rewrite concat_nil_Forall.
    + cbn [app]. rewrite filter_cons.
      rewrite decide_True; [done|]. cbn. by rewrite bool_decide_eq_false_2.
    + apply Forall_forall. intros ds ([k' y] & -> & Hin)%list_elem_of_fmap. cbn [fst snd].
      assert (obj_has k' remote = true) as ->; [|done].
      apply bool_decide_eq_true.
      assert (k' ∈ obj_keys (obj_set k new remote)) as Hk'
        by (apply list_elem_of_fmap; by exists (k', y)).
      rewrite obj_keys_set, bool_decide_eq_true_2 in Hk'; [done|].
      apply dec_stable. intros Hnot. apply obj_get_None in Hnot. congruence.
  - cbn [fst snd]. rewrite obj_get_set, decide_True by done.
    by apply deepDiff_scalars.
  - intros k' x' Hin Hk'. cbn [fst snd]. rewrite obj_get_set, decide_False by done.
    rewrite (obj_get_NoDup k' x' remote) by done.
    apply deepDiff_refl. pose proof (wf_obj_values _ Hwf) as Hvals.
    rewrite Forall_forall in Hvals. by apply (Hvals (k', x')).
Qed.

Lemma one_field_changed_witness :
  diffConfigs [("id", JStr "x"); ("a", JNum 1); ("b", JStr "two")] remote_xab
  = [ {| path := "/b"; type := change; oldValue := Some (JNum 2);
         newValue := Some (JStr "two") |} ].
Proof.
  exact (one_field_changed remote_xab "b" (JNum 2) (JStr "two")
           eq_refl ltac:(discriminate) eq_refl eq_refl eq_refl ltac:(discriminate)).
Defined.

(** ** plan/service.ts *)

Lemma getConfigsToApply_inner (name : string) (cps : list ConfigPlan) (acc : list ApplyEntry) :
  foldl (λ result configPlan,
           match cp_status configPlan with
           | create | update =>
               (result ++ [ {| ae_channel := name; configName := cp_name configPlan;
                               ae_status := cp_status configPlan |} ])%list
           | unchanged => result
           end) acc cps
  = (acc ++ map (λ cp, {| ae_channel := name; configName := cp_name cp;
                          ae_status := cp_status cp |})
              (filter (λ cp, cp_status cp ≠ unchanged) cps))%list.
Proof.
  revert acc. induction cps as [|cp cps IH]; intros acc; simpl; [by rewrite app_nil_r|].
  rewrite IH, filter_cons.
  destruct (cp_status cp) eqn:Hs.
  - rewrite decide_True by done. simpl. by rewrite <- app_assoc, Hs.
  - rewrite decide_True by done. simpl. by rewrite <- app_assoc, Hs.
  - by rewrite decide_False by (by intros H; apply H).
Qed.

(** The apply list, as a comprehension: per channel in plan order, its
    configs that are not [unchanged], in their order. *)
Lemma getConfigsToApply_eq (plan : Plan) :
  getConfigsToApply plan
  = flat_map (λ chp, map (λ cp, {| ae_channel := channel chp; configName := cp_name cp;
                                   ae_status := cp_status cp |})
                         (filter (λ cp, cp_status cp ≠ unchanged) (configs chp)))
             (channels plan).
Proof.
  unfold getConfigsToApply.
  enough (∀ acc chps,
    foldl (λ result channelPlan,
             foldl (λ result configPlan,
                      match cp_status configPlan with
                      | create | update =>
                          (result ++ [ {| ae_channel := channel channelPlan;
                                          configName := cp_name configPlan;
                                          ae_status := cp_status configPlan |} ])%list
                      | unchanged => result
                      end) result (configs channelPlan)) acc chps
    = (acc ++ flat_map (λ chp, map (λ cp, {| ae_channel := channel chp;
                                             configName := cp_name cp;
                                             ae_status := cp_status cp |})
                                   (filter (λ cp, cp_status cp ≠ unchanged) (configs chp)))
                       chps)%list) as Hgen by apply (Hgen []).
  intros acc chps. revert acc. induction chps as [|chp chps IH]; intros acc; simpl.
  - by rewrite app_nil_r.
  - by rewrite getConfigsToApply_inner, IH, <- app_assoc.
Qed.

Lemma count_status_each (cps : list ConfigPlan) (s : PlanSummary) :
  let s' := foldl PlanService.count_status s cps in
  creates s' = creates s + length (filter (λ cp, cp_status cp = create) cps)
  ∧ updates s' = updates s + length (filter (λ cp, cp_status cp = update) cps)
  ∧ unchanged_count s'
    = unchanged_count s + length (filter (λ cp, cp_status cp = unchanged) cps).
Proof.
  revert s. induction cps as [|cp cps IH]; intros s; simpl; [lia|].
  destruct (IH (PlanService.count_status s cp)) as (-> & -> & ->).
  rewrite !filter_cons. unfold PlanService.count_status.
  destruct (cp_status cp); simpl; lia.
Qed.

Lemma count_channels_each (chps : list ChannelPlan) (s : PlanSummary) :
  let s' := foldl (λ s channelPlan, foldl PlanService.count_status s (configs channelPlan))
                  s chps in
  creates s' + updates s'
  = creates s + updates s
    + length (flat_map (λ chp, filter (λ cp, cp_status cp ≠ unchanged) (configs chp)) chps).
Proof.
  revert s. induction chps as [|chp chps IH]; intros s; simpl; [lia|].
  specialize (IH (foldl PlanService.count_status s (configs chp))). simpl in IH.
  rewrite IH, length_app.
  destruct (count_status_each (configs chp) s) as (-> & -> & _).
  enough (length (filter (λ cp, cp_status cp ≠ unchanged) (configs chp))
          = length (filter (λ cp, cp_status cp = create) (configs chp))
            + length (filter (λ cp, cp_status cp = update) (configs chp))) by lia.
  generalize (configs chp). intros l. induction l as [|cp l IHl]; [done|].
  rewrite !filter_cons. destruct (cp_status cp); simpl; lia.
Qed.

(** For every plan [generatePlan] returns: the apply list has
    [creates + updates] entries, none of them [unchanged], and
    [planHasChanges] says whether it is non-empty. *)
Theorem apply_list_matches_summary (w : World) (config : ProjectConfig)
    (options : PlanService.PlanOptions) (plan : Plan) :
  PlanService.generatePlan w config options = Ok plan →
  length (getConfigsToApply plan) = creates (summary plan) + updates (summary plan)
  ∧ Forall (λ e, ae_status e ≠ unchanged) (getConfigsToApply plan)
  ∧ (PlanService.planHasChanges plan = true ↔ getConfigsToApply plan ≠ []).
Proof.
  intros (discovered & loaded & env & secrets & remoteList & plans
          & _ & _ & _ & _ & _ & _ & _ & ->)%generatePlan_Ok.
  assert (length (getConfigsToApply
                    {| merchant := pc_merchant config; timestamp := now w; channels := plans;
                       summary := PlanService.calculateSummary plans
                                    (list_to_set (map rc_name remoteList)) secrets |})
          = creates (PlanService.calculateSummary plans
                       (list_to_set (map rc_name remoteList)) secrets)
            + updates (PlanService.calculateSummary plans
                         (list_to_set (map rc_name remoteList)) secrets)) as Hlen.
  { rewrite getConfigsToApply_eq. cbn [channels]. unfold PlanService.calculateSummary.
    cbn [creates updates]. rewrite count_channels_each. cbn [creates updates].
    rewrite !length_flat_map. cbn [Nat.add]. f_equal.
    apply (list_fmap_ext (A:=ChannelPlan)). intros _ chp _. by rewrite length_map. }
  set (s := PlanService.calculateSummary _ _ _) in *.
  split_and!.
  - exact Hlen.
  - rewrite getConfigsToApply_eq. apply Forall_flat_map, Forall_forall. intros chp _.
    apply Forall_map, Forall_forall. by intros cp [? _]%list_elem_of_filter.
  - unfold PlanService.planHasChanges. cbn [summary] in *.
    rewrite orb_true_iff, !bool_decide_eq_true.
    destruct (getConfigsToApply _) as [|e es]; cbn [length] in Hlen; split.
    + lia.
    + done.
    + done.
    + lia.
Qed.

(** Channel se holds x (to update) and y (unchanged), channel no, absent
    remotely, holds x (to create). *)
Lemma apply_list_matches_summary_witness :
  let remote :=
    {| listChannels := Ok [remote_channel "se"];
       listConfigs := λ _, Ok [remote_xab3; [("id", JStr "y")]] |} in
  let w := example_world [local_channel "no" [config_of "x" local_xab];
                          local_channel "se" [config_of "x" local_xab;
                                              config_of "y" [("id", JStr "y")]]] remote in
  ∃ plan,
    PlanService.generatePlan w example_config
      {| PlanService.opt_channel := None; PlanService.verbose := false |} = Ok plan
    ∧ getConfigsToApply plan
      = [ {| ae_channel := "no"; configName := "x"; ae_status := create |};
          {| ae_channel := "se"; configName := "x"; ae_status := update |} ]
    ∧ creates (summary plan) + updates (summary plan) = 2
    ∧ PlanService.planHasChanges plan = true.
Proof.
  intros remote w.
  destruct (PlanService.generatePlan w example_config
              {| PlanService.opt_channel := None; PlanService.verbose := false |})
    as [plan|e] eqn:Hplan; [|vm_compute in Hplan; discriminate Hplan].
  exists plan. split; [reflexivity|].
  destruct (apply_list_matches_summary _ _ _ _ Hplan) as (Hlen & _ & Hchanges).
  assert (getConfigsToApply plan
          = [ {| ae_channel := "no"; configName := "x"; ae_status := create |};
              {| ae_channel := "se"; configName := "x"; ae_status := update |} ]) as Happly.
  { vm_compute in Hplan. injection Hplan as <-. reflexivity. }
  split_and!.
  - exact Happly.
  - rewrite <- Hlen, Happly. reflexivity.
  - apply Hchanges. rewrite Happly. discriminate.
Defined.

Lemma mapM_ext {A B} (f g : A → result B) (l : list A) :
  (∀ x, x ∈ l → f x = g x) → mapM f l = mapM g l.
Proof.
  induction l as [|x l IH]; intros Hfg; [done|]. simpl.
  rewrite (Hfg x) by apply list_elem_of_here.
  rewrite IH; [done|]. intros y Hy. apply Hfg. by apply list_elem_of_further.
Qed.

(** The configs of a channel are requested from the remote store only when
    the remote channel listing names it: two stores with the same listing
    that agree on the configs of the listed channels give the same run. *)
Theorem configs_fetched_for_listed_channels_only (w : World) (c : ConfigurationApiClient)
    (config : ProjectConfig) (options : PlanService.PlanOptions)
    (remoteChannelList : list RemoteChannel) :
  listChannels (client w) = Ok remoteChannelList →
  listChannels c = Ok remoteChannelList →
  (∀ name, name ∈ map rc_name remoteChannelList →
           listConfigs c name = listConfigs (client w) name) →
  PlanService.generatePlan (with_client w c) config options
  = PlanService.generatePlan w config options.
Proof.
  intros Hw Hc Hsame. unfold PlanService.generatePlan.
  change (validateProject (with_client w c)) with (validateProject w).
  change (discoverChannels (with_client w c)) with (discoverChannels w).
  change (getEnvironment (with_client w c)) with (getEnvironment w).
  change (client (with_client w c)) with c.
  change (now (with_client w c)) with (now w).
  change (loadAllChannelConfigs (with_client w c)) with (loadAllChannelConfigs w).
  change (PlanService.substituteSecretsInChannels (with_client w c))
    with (PlanService.substituteSecretsInChannels w).
  rewrite Hw, Hc.
  destruct (validateProject w (PlanService.opt_channel options)) as [v|]; [|done]. csimpl.
  destruct (negb (valid v)); [done|].
  destruct (discoverChannels w) as [discovered|]; [|done]. csimpl.
  match goal with |- (?m ≫= _) = _ => destruct m as [selected|]; [|done] end. csimpl.
  destruct (loadAllChannelConfigs w selected) as [loaded|]; [|done]. csimpl.
  destruct (getEnvironment w) as [env|]; [|done]. csimpl.
  destruct (PlanService.substituteSecretsInChannels w loaded env) as [secrets|]; [|done]. csimpl.
  destruct (option_set _); [|done]. csimpl.
  rewrite (mapM_ext _ (λ channel, PlanService.generateChannelPlan channel
              (bool_decide (ch_name channel ∈
                 (list_to_set (map rc_name remoteChannelList) : gset string)))
              (client w))); [done|].
  intros ch _. unfold PlanService.generateChannelPlan.
  case_bool_decide as Hin; [|done].
  rewrite Hsame; [done|]. by rewrite elem_of_list_to_set in Hin.
Qed.

(** The store answers for se only; asking it for no would fail the run. *)
Lemma configs_fetched_for_listed_channels_only_witness :
  let locals := [local_channel "no" [config_of "x" local_xab];
                 local_channel "se" [config_of "x" local_xab]] in
  let remote :=
    {| listChannels := Ok [remote_channel "se"];
       listConfigs := λ _, Ok [remote_xab3] |} in
  let failing :=
    {| listChannels := Ok [remote_channel "se"];
       listConfigs := λ name,
         if bool_decide (name = "se") then Ok [remote_xab3]
         else Throw (ApiError "Internal Server Error" 500) |} in
  PlanService.generatePlan (with_client (example_world locals remote) failing) example_config
    {| PlanService.opt_channel := None; PlanService.verbose := false |}
  = PlanService.generatePlan (example_world locals remote) example_config
      {| PlanService.opt_channel := None; PlanService.verbose := false |}.
Proof.
  intros locals remote failing.
  apply (configs_fetched_for_listed_channels_only _ failing _ _ [remote_channel "se"]);
    [reflexivity | reflexivity |].
  intros name Hname. cbn in Hname. apply list_elem_of_singleton in Hname as ->. reflexivity.
Defined.

Lemma generateChannelPlan_configs (ch : Channel) (b : bool) client (chp : ChannelPlan) :
  PlanService.generateChannelPlan ch b client = Ok chp →
  existsRemotely chp = b
  ∧ map cp_name (configs chp) = map cfg_name (ch_configs ch)
  ∧ (b = false → Forall (λ cp, cp_status cp = create) (configs chp)).
Proof.
  intros (m & Hm & [= <-])%bind_Ok. cbn [existsRemotely configs]. split_and!.
  - done.
  - rewrite map_map. apply map_ext. intros c. unfold PlanService.generateConfigPlan.
    destruct (m !! _); [case_bool_decide|]; done.
  - intros ->. injection Hm as <-. apply Forall_map, Forall_forall. intros c _.
    unfold PlanService.generateConfigPlan. by rewrite lookup_empty.
Qed.

(** For every plan [generatePlan] returns: a channel counts as existing
    remotely exactly when the remote listing names it, and every config of
    a channel that does not is planned as [create]. *)
Theorem absent_channel_is_all_creates (w : World) (config : ProjectConfig)
    (options : PlanService.PlanOptions) (plan : Plan) :
  PlanService.generatePlan w config options = Ok plan →
  ∃ remoteChannelList,
    listChannels (client w) = Ok remoteChannelList ∧
    Forall (λ chp,
              existsRemotely chp = bool_decide (channel chp ∈ map rc_name remoteChannelList)
              ∧ (channel chp ∉ map rc_name remoteChannelList →
                 Forall (λ cp, cp_status cp = create) (configs chp)))
           (channels plan).
Proof.
  intros (discovered & loaded & env & secrets & remoteList & plans
          & _ & _ & _ & _ & _ & Hlist & Hplans & ->)%generatePlan_Ok.
  exists remoteList. split; [done|]. cbn [channels].
  induction Hplans as [|ch chp chs chps H _ IH]; constructor; [|done].
  pose proof (generateChannelPlan_channel _ _ _ _ H) as Hname.
  apply generateChannelPlan_configs in H as (Hex & _ & Hcreate).
  rewrite Hname, Hex. split.
  - apply bool_decide_ext. by rewrite elem_of_list_to_set.
  - intros Hnot. apply Hcreate. apply bool_decide_eq_false.
    by rewrite elem_of_list_to_set.
Qed.

Lemma absent_channel_is_all_creates_witness :
  let remote :=
    {| listChannels := Ok [remote_channel "se"];
       listConfigs := λ _, Ok [remote_xab; remote_xab3] |} in
  let w := example_world [local_channel "no" [config_of "x" local_xab];
                          local_channel "se" [config_of "x" local_xab]] remote in
  ∃ plan,
    PlanService.generatePlan w example_config
      {| PlanService.opt_channel := None; PlanService.verbose := false |} = Ok plan
    ∧ Forall (λ chp, channel chp = "no" →
                     Forall (λ cp, cp_status cp = create) (configs chp)) (channels plan).
Proof.
  intros remote w.
  destruct (PlanService.generatePlan w example_config
              {| PlanService.opt_channel := None; PlanService.verbose := false |})
    as [plan|e] eqn:Hplan; [|vm_compute in Hplan; discriminate Hplan].
  exists plan. split; [reflexivity|].
  destruct (absent_channel_is_all_creates _ _ _ _ Hplan) as (l & Hl & Hall).
  injection Hl as <-. eapply Forall_impl; [exact Hall|].
  intros chp [_ Hcreate] Hname. apply Hcreate. rewrite Hname. by_compute.
Defined.

Lemma index_by_id_lookup (configs : list obj) (i : string) :
  PlanService.index_by_id configs !! i
  = last (filter (λ config, remote_id config = Some i) configs).
Proof.
  unfold PlanService.index_by_id.
  enough (∀ m : gmap string obj,
    foldl (λ remoteConfigs config,
             match remote_id config with
             | Some i => <[i := config]> remoteConfigs
             | None => remoteConfigs
             end) m configs !! i
    = match last (filter (λ config, remote_id config = Some i) configs) with
      | Some config => Some config
      | None => m !! i
      end) as Hgen.
  { rewrite Hgen, lookup_empty. by destruct (last _). }
  induction configs as [|config configs IH]; intros m; [done|].
  cbn [foldl]. rewrite IH, filter_cons.
  destruct (decide (remote_id config = Some i)) as [Hid|Hid].
  - rewrite Hid, lookup_insert_eq.
    destruct (filter _ configs) as [|c cs] eqn:Hf; [done|].
    change (last (config :: c :: cs)) with (last (c :: cs)).
    destruct (last (c :: cs)) eqn:Hlast; [done|]. by apply last_None in Hlast.
  - destruct (last (filter _ configs)); [done|].
    destruct (remote_id config) as [j|]; [|done].
    rewrite lookup_insert_ne; [done|]. by intros ->.
Qed.

(** The remote configs of a channel are matched by id, and under an id
    listed more than once the last listed config is the one compared: a
    local config whose id only earlier, overwritten entries carry finds
    that last one, and one whose id no listed config carries is a
    [create]. *)
Theorem remote_index_last_wins (localConfig : ChannelConfig) (configs : list obj) :
  PlanService.generateConfigPlan localConfig (PlanService.index_by_id configs)
  = match last (filter (λ config,
                          remote_id config = Some (default (cfg_name localConfig)
                                                           (id localConfig))) configs) with
    | None =>
        {| cp_name := cfg_name localConfig; cp_status := create;
           cp_diffs := diffConfigs (merged localConfig) [] |}
    | Some remoteConfig =>
        let diffs := diffConfigs (merged localConfig) remoteConfig in
        {| cp_name := cfg_name localConfig;
           cp_status := if bool_decide (diffs = []) then unchanged else update;
           cp_diffs := diffs |}
    end.
Proof.
  unfold PlanService.generateConfigPlan. rewrite index_by_id_lookup.
  destruct (last _) as [remoteConfig|]; [|done]. cbn zeta.
  destruct (diffConfigs (merged localConfig) remoteConfig) as [|d ds] eqn:Hd; [done|].
  rewrite bool_decide_eq_false_2 by done. by rewrite bool_decide_eq_false_2.
Qed.

Lemma substituteSecretsInChannels_configs (w : World) (channels out : list Channel) env :
  PlanService.substituteSecretsInChannels w channels env = Ok out →
  Forall2 (λ ch ch', ch_name ch' = ch_name ch
                     ∧ map cfg_name (ch_configs ch') = map cfg_name (ch_configs ch))
          channels out.
Proof.
  intros H%mapM_Ok. eapply Forall2_impl; [exact H|].
  intros ch ch' (cs & Hcs & [= <-])%bind_Ok. split; [done|]. cbn [ch_configs].
  eapply mapM_Ok_map; [|exact Hcs].
  intros c c' Hc. cbn beta in Hc.
  destruct (substituteSecrets w (merged c) env) as [s|[]]; try done.
  by injection Hc as <-.
Qed.

(** For every plan [generatePlan] returns: its channel plans are those of
    the planned local channels, in their order, and each holds one
    [ConfigPlan] per loaded config of its channel, in the order they were
    loaded and under the config's name. *)
Theorem plan_follows_local_configs (w : World) (config : ProjectConfig)
    (options : PlanService.PlanOptions) (plan : Plan) :
  PlanService.generatePlan w config options = Ok plan →
  ∃ discovered,
    discoverChannels w = Ok discovered ∧
    Forall2 (λ ch chp,
               channel chp = ch_name ch
               ∧ ∃ loaded, loadChannelConfigs w ch = Ok loaded
                           ∧ map cp_name (configs chp) = map cfg_name loaded)
            (planned_channels discovered options) (channels plan).
Proof.
  intros (discovered & loaded & env & secrets & remoteList & plans
          & Hdisc & _ & Hload & _ & Hsec & _ & Hplans & ->)%generatePlan_Ok.
  exists discovered. split; [done|]. cbn [channels].
  apply mapM_Ok in Hload. apply substituteSecretsInChannels_configs in Hsec.
  revert loaded secrets plans Hload Hsec Hplans.
  induction (planned_channels discovered options) as [|ch chs IH];
    intros loaded secrets plans Hload Hsec Hplans.
  - inversion Hload; subst. inversion Hsec; subst. inversion Hplans; subst. constructor.
  - inversion Hload as [|? l ? loaded' Hl Hload']; subst.
    inversion Hsec as [|? s ? secrets' Hs Hsec']; subst.
    inversion Hplans as [|? chp ? plans' Hp Hplans']; subst.
    constructor; [|by eapply IH].
    apply bind_Ok in Hl as (cfgs & Hcfgs & [= <-]).
    destruct Hs as [Hname Hnames]. cbn [ch_name ch_configs] in Hname, Hnames.
    pose proof (generateChannelPlan_channel _ _ _ _ Hp) as Hch.
    apply generateChannelPlan_configs in Hp as (_ & Hcp & _).
    split; [congruence|]. exists cfgs. split; [done|]. congruence.
Qed.

Lemma plan_follows_local_configs_witness :
  let remote :=
    {| listChannels := Ok [remote_channel "se"];
       listConfigs := λ _, Ok [remote_xab3] |} in
  let w := example_world [local_channel "no" [config_of "x" local_xab];
                          local_channel "se" [config_of "b" local_ab;
                                              config_of "a" local_xab]] remote in
  ∃ plan,
    PlanService.generatePlan w example_config
      {| PlanService.opt_channel := None; PlanService.verbose := false |} = Ok plan
    ∧ map (λ chp, (channel chp, map cp_name (configs chp))) (channels plan)
      = [("no", ["x"]); ("se", ["b"; "a"])].
Proof.
  intros remote w.
  destruct (PlanService.generatePlan w example_config
              {| PlanService.opt_channel := None; PlanService.verbose := false |})
    as [plan|e] eqn:Hplan; [|vm_compute in Hplan; discriminate Hplan].
  exists plan. split; [reflexivity|].
  destruct (plan_follows_local_configs _ _ _ _ Hplan) as (d & Hd & Hall).
  injection Hd as <-. unfold planned_channels in Hall. cbn in Hall.
  apply Forall2_cons_inv_l in Hall as (chp1 & k1 & (Hn1 & l1 & Hl1 & Hc1) & Hall & ->).
  apply Forall2_cons_inv_l in Hall as (chp2 & k2 & (Hn2 & l2 & Hl2 & Hc2) & Hall & ->).
  apply Forall2_nil_inv_l in Hall as ->.
  injection Hl1 as <-. injection Hl2 as <-.
  cbn [map]. rewrite Hn1, Hn2, Hc1, Hc2. reflexivity.
Defined.

(** ** secrets/substitute.ts *)

Lemma string_app_nil_r (s : string) : s ++ "" = s.
Proof.
  induction s as [|c s IH]; [done|].
  change (String c (s ++ "") = String c s). by rewrite IH.
Qed.

Lemma string_app_assoc (a b c : string) : (a ++ b) ++ c = a ++ (b ++ c).
Proof.
  induction a as [|x a IH]; [done|].
  change (String x ((a ++ b) ++ c) = String x (a ++ (b ++ c))). by rewrite IH.
Qed.

Lemma concat_empty_cons (x : string) (xs : list string) :
  String.concat "" (x :: xs) = x ++ String.concat "" xs.
Proof. destruct xs; simpl; [by rewrite string_app_nil_r | done]. Qed.

(** The text a piece stands for, given the text of each placeholder. *)
Lemma replace_eq (f : string → string) (s : string) :
  Secrets.replace f s
  = String.concat ""
      (map (λ p, match p with
                 | Secrets.Text c => String c ""
                 | Secrets.Placeholder varName => f varName
                 end) (Secrets.pieces s)).
Proof. done. Qed.

Lemma render_text (f : string → string) (name : string) :
  String.concat ""
    (map (λ p, match p with
               | Secrets.Text c => String c ""
               | Secrets.Placeholder varName => f varName
               end) (map Secrets.Text (String.list_ascii_of_string name)))
  = name.
Proof.
  induction name as [|c name IH]; [done|].
  cbn [String.list_ascii_of_string map]. by rewrite concat_empty_cons, IH.
Qed.

(** Rendering each placeholder as it was written gives the scanned text
    back: the scanner loses nothing. *)
Lemma pieces_from_lossless (st : Secrets.scan_state) (s : string) :
  String.concat ""
    (map (λ p, match p with
               | Secrets.Text c => String c ""
               | Secrets.Placeholder varName => "${" ++ varName ++ "}"
               end) (Secrets.pieces_from st s))
  = match st with
    | Secrets.Outside => ""
    | Secrets.AfterDollar => "$"
    | Secrets.InName name => "${" ++ name
    end ++ s.
Proof.
  revert st. induction s as [|c s IH]; intros st.
  - destruct st as [| |name]; cbn [Secrets.pieces_from map]; [done | done |].
    rewrite !concat_empty_cons, render_text. simpl. by rewrite string_app_nil_r.
  - destruct st as [| |name]; cbn [Secrets.pieces_from].
    + destruct (decide (c = "$"%char)) as [->|Hc].
      * by rewrite IH.
      * cbn [map]. by rewrite concat_empty_cons, IH.
    + destruct (decide (c = "{"%char)) as [->|Hc]; [by rewrite IH|].
      destruct (decide (c = "$"%char)) as [->|Hd].
      * cbn [map]. by rewrite concat_empty_cons, IH.
      * cbn [map]. by rewrite !concat_empty_cons, IH.
    + destruct (decide (c = "}"%char)) as [->|Hc].
      * destruct (decide (name = "")) as [->|Hname].
        -- cbn [map]. by rewrite !concat_empty_cons, IH.
        -- cbn [map]. rewrite concat_empty_cons, IH. simpl.
           by rewrite !string_app_assoc.
      * rewrite IH. simpl. by rewrite !string_app_assoc.
Qed.

(** Every name the pattern captures is non-empty. *)
Lemma pieces_from_names (st : Secrets.scan_state) (s : string) (name : string) :
  Secrets.Placeholder name ∈ Secrets.pieces_from st s → name ≠ "".
Proof.
  revert st. induction s as [|c s IH]; intros st.
  - destruct st as [| |n]; cbn [Secrets.pieces_from].
    + by intros ?%elem_of_nil.
    + by intros [?|?%elem_of_nil]%elem_of_cons.
    + intros [?|[?|Hin]%elem_of_cons]%elem_of_cons; [done | done |].
      by apply list_elem_of_fmap in Hin as (? & ? & _).
  - destruct st as [| |n]; cbn [Secrets.pieces_from]; repeat case_decide; intros Hin;
      repeat match goal with
             | H : _ ∈ _ :: _ |- _ => apply elem_of_cons in H as [H|H]
             | H : Secrets.Placeholder _ = Secrets.Text _ |- _ => discriminate H
             | H : Secrets.Placeholder _ = Secrets.Placeholder _ |- _ => injection H as ->
             end; first [done | by eapply IH].
Qed.

Lemma replace_ext (f g : string → string) (s : string) :
  (∀ name, Secrets.Placeholder name ∈ Secrets.pieces s → f name = g name) →
  Secrets.replace f s = Secrets.replace g s.
Proof.
  intros Hfg. rewrite !replace_eq. f_equal. apply map_ext_in.
  intros [c|name] Hin; [done|]. apply Hfg. by apply list_elem_of_In.
Qed.

Lemma replace_self (f : string → string) (s : string) :
  (∀ name, Secrets.Placeholder name ∈ Secrets.pieces s → f name = "${" ++ name ++ "}") →
  Secrets.replace f s = s.
Proof.
  intros Hf. rewrite (replace_ext f (λ name, "${" ++ name ++ "}")) by done.
  rewrite replace_eq. unfold Secrets.pieces. by rewrite pieces_from_lossless.
Qed.

Lemma foldl_invariant {A B} (P : B → Prop) (f : B → A → B) (l : list A) (acc : B) :
  (∀ b a, a ∈ l → P b → P (f b a)) → P acc → P (foldl f acc l).
Proof.
  revert acc. induction l as [|a l IH]; intros acc Hf Hacc; [done|]. simpl.
  apply IH.
  - intros b a' Ha'. apply Hf. by apply list_elem_of_further.
  - apply Hf; [apply list_elem_of_here | done].
Qed.

(** [traverse] only ever appends a name that is non-empty and not yet
    listed: whatever such appends keep, it keeps. *)
Lemma traverse_invariant (P : list string → Prop) :
  (∀ acc name, P acc → name ≠ "" → name ∉ acc → P (acc ++ [name])%list) →
  ∀ v acc, P acc → P (Secrets.traverse v acc).
Proof.
  intros Hpush.
  induction v as [| | |s|items IH|fields IH] using json_ind'; intros acc Hacc; try done.
  - cbn [Secrets.traverse]. apply foldl_invariant; [|done].
    intros b [c|name] _ Hb; [done|].
    case_bool_decide as Hname; [done|]. case_bool_decide as Hin; [done|].
    by apply Hpush.
  - cbn [Secrets.traverse]. apply foldl_invariant; [|done].
    intros b item Hitem Hb. rewrite Forall_forall in IH. by apply IH.
  - cbn [Secrets.traverse]. apply foldl_invariant; [|done].
    intros b kv Hkv Hb. rewrite Forall_forall in IH. by apply IH.
Qed.

Lemma traverse_mono (v : json) (acc : list string) (name : string) :
  name ∈ acc → name ∈ Secrets.traverse v acc.
Proof.
  apply (traverse_invariant (λ acc, name ∈ acc)).
  intros acc' n Hin _ _. apply elem_of_app. by left.
Qed.

Lemma foldl_traverse_mono {A} (g : A → json) (l : list A) (acc : list string) (name : string) :
  name ∈ acc → name ∈ foldl (λ placeholders x, Secrets.traverse (g x) placeholders) acc l.
Proof.
  apply (foldl_invariant (λ acc, name ∈ acc)). intros b a _. apply traverse_mono.
Qed.

Lemma traverse_distinct (value : json) :
  NoDup (Secrets.findPlaceholders value)
  ∧ Forall (λ name, name ≠ "") (Secrets.findPlaceholders value).
Proof.
  unfold Secrets.findPlaceholders.
  apply (traverse_invariant (λ acc, NoDup acc ∧ Forall (λ name, name ≠ "") acc)).
  - intros acc name [Hnd Hne] Hname Hin. split.
    + apply NoDup_app. split_and!; [done | | apply NoDup_singleton].
      intros x Hx ->%list_elem_of_singleton. done.
    + apply Forall_app. split; [done|]. by apply Forall_singleton.
  - split; [apply NoDup_nil_2 | apply Forall_nil_2].
Qed.

(** The names [findPlaceholders] returns are distinct and non-empty. *)
Theorem findPlaceholders_distinct (value : json) :
  NoDup (Secrets.findPlaceholders value)
  ∧ Forall (λ name, name ≠ "") (Secrets.findPlaceholders value).
Proof. apply traverse_distinct. Qed.

(** The placeholders of a string are found, whatever was found before. *)
Lemma traverse_string (s : string) (acc : list string) (name : string) :
  Secrets.Placeholder name ∈ Secrets.pieces s → name ∈ Secrets.traverse (JStr s) acc.
Proof.
  intros Hin. pose proof (pieces_from_names _ _ _ Hin) as Hne.
  cbn [Secrets.traverse]. revert acc.
  induction (Secrets.pieces s) as [|p ps IH]; intros acc; [by apply elem_of_nil in Hin|].
  apply elem_of_cons in Hin as [<-|Hin]; [|by apply IH].
  cbn [foldl].
  apply (foldl_invariant (λ acc, name ∈ acc)).
  - intros b [c|n] _ Hb; [done|]. case_bool_decide; [done|]. case_bool_decide; [done|].
    apply elem_of_app. by left.
  - rewrite bool_decide_eq_false_2 by done. case_bool_decide as Hacc; [done|].
    apply elem_of_app. right. apply list_elem_of_here.
Qed.

(** Where the environment gives every placeholder of a value its own
    text, substitution leaves the value as it is, when none of the value's
    keys is [__proto__] or an array index. *)
Lemma substituteValue_self (prototype_text : string → string) (env : gmap string string)
    (v : json) (acc : list string) :
  wf_json v = true → ordinary_keys v = true →
  (∀ name, name ∈ Secrets.traverse v acc →
           Secrets.env_text prototype_text env name = "${" ++ name ++ "}") →
  Secrets.substituteValue prototype_text v env = v.
Proof.
  revert acc.
  induction v as [| | |s|items IH|fields IH] using json_ind';
    intros acc Hwf Hkeys Henv; try done.
  - cbn [Secrets.substituteValue]. f_equal. apply replace_self.
    intros name Hin. apply Henv. by apply traverse_string.
  - cbn [Secrets.substituteValue]. f_equal.
    cbn [wf_json] in Hwf. rewrite forallb_forall in Hwf.
    cbn [ordinary_keys] in Hkeys. rewrite forallb_forall in Hkeys.
    cbn [Secrets.traverse] in Henv. revert acc Henv.
    induction IH as [|x items Hx _ IHitems]; intros acc Henv; [done|].
    cbn [map]. f_equal.
    + apply (Hx acc); [apply Hwf; by left | apply Hkeys; by left |].
      intros name Hname. apply Henv. cbn [foldl].
      by apply (foldl_traverse_mono (λ item, item)).
    + apply (IHitems ltac:(intros y Hy; apply Hwf; by right)
                     ltac:(intros y Hy; apply Hkeys; by right)
                     (Secrets.traverse x acc)).
      exact Henv.
  - cbn [Secrets.substituteValue]. f_equal.
    rewrite (foldl_ext_in _
               (λ result '(key, val),
                  obj_set key (Secrets.substituteValue prototype_text val env) result)).
    2: { intros result [k x] Hin.
         destruct (ordinary_keys_field fields k x Hkeys Hin) as (Hproto & Hindex & _).
         by apply assign_ordinary. }
    cbn [wf_json] in Hwf.
    apply andb_true_iff in Hwf as [Hnd Hall]. apply bool_decide_eq_true in Hnd.
    rewrite forallb_forall in Hall.
    assert (∀ kv, In kv fields → ordinary_keys kv.2 = true) as Hvalues.
    { intros [k x] Hin. apply list_elem_of_In in Hin.
      by destruct (ordinary_keys_field fields k x Hkeys Hin) as (_ & _ & ?). }
    clear Hkeys.
    rewrite clone_fields; [done | | done].
    cbn [Secrets.traverse] in Henv. revert acc Henv. clear Hnd.
    induction IH as [|kv fields Hkv _ IHfields]; intros acc Henv; [constructor|].
    constructor.
    + apply (Hkv acc); [apply Hall; by left | apply Hvalues; by left |].
      intros name Hname. apply Henv. cbn [foldl].
      by apply (foldl_traverse_mono (λ kv, kv.2)).
    + apply (IHfields ltac:(intros y Hy; apply Hall; by right)
                      ltac:(intros y Hy; apply Hvalues; by right)
                      (Secrets.traverse kv.2 acc)).
      exact Henv.
Qed.

Lemma substituteSecrets_fields (prototype_text : string → string) (config : obj)
    (env : gmap string string) :
  wf_obj config = true → ordinary_keys (JObj config) = true →
  (∀ name, name ∈ Secrets.findPlaceholders (JObj config) →
           Secrets.env_text prototype_text env name = "${" ++ name ++ "}") →
  foldl (λ result '(key, val),
           assign key (Secrets.substituteValue prototype_text val env) result) [] config
  = config.
Proof.
  intros Hwf Hkeys Henv.
  pose proof (substituteValue_self prototype_text env (JObj config) [] Hwf Hkeys Henv)
    as Hself.
  cbn [Secrets.substituteValue] in Hself. by injection Hself.
Qed.

Lemma substituteSecrets_plain (prototype_text : string → string)
    (config : obj) (env : gmap string string) :
  wf_obj config = true → ordinary_keys (JObj config) = true →
  Secrets.findPlaceholders (JObj config) = [] →
  Secrets.substituteSecrets prototype_text config env = Ok config.
Proof.
  intros Hwf Hkeys Hnone. unfold Secrets.substituteSecrets. rewrite Hnone.
  cbn [filter list_filter length]. rewrite bool_decide_eq_false_2 by (simpl; lia).
  f_equal. apply substituteSecrets_fields; [done | done |].
  rewrite Hnone. by intros name ?%elem_of_nil.
Qed.

(** A configuration without any placeholder, and without a key
    [__proto__] or an array-index key, passes [substituteSecrets]
    unchanged, whatever the environment holds. *)
Theorem substituteSecrets_without_placeholders (prototype_text : string → string)
    (config : obj) (env : gmap string string) :
  wf_obj config = true → ordinary_keys (JObj config) = true →
  Secrets.findPlaceholders (JObj config) = [] →
  Secrets.substituteSecrets prototype_text config env = Ok config.
Proof. apply substituteSecrets_plain. Qed.

Lemma substituteSecrets_without_placeholders_witness :
  Secrets.substituteSecrets (λ _, "")
    [("price", JStr "$ 5 {net}"); ("tags", JArr [JStr "${}"; JNum 1])] ∅
  = Ok [("price", JStr "$ 5 {net}"); ("tags", JArr [JStr "${}"; JNum 1])].
Proof.
  exact (substituteSecrets_without_placeholders (λ _, "")
           [("price", JStr "$ 5 {net}"); ("tags", JArr [JStr "${}"; JNum 1])] ∅
           eq_refl eq_refl eq_refl).
Defined.

Lemma substituteSecrets_cases (prototype_text : string → string)
    (config : obj) (env : gmap string string) :
  match Secrets.substituteSecrets prototype_text config env with
  | Ok _ => Secrets.checkMissingEnvVars config env = []
  | Throw e =>
      let missingVars := Secrets.checkMissingEnvVars config env in
      e = MissingEnvVarError
            ("Missing environment variables: " ++ String.concat ", " missingVars) missingVars
      ∧ missingVars ≠ []
      ∧ NoDup missingVars
      ∧ Forall (λ name, env !! name = None ∧ name ≠ "") missingVars
  end.
Proof.
  unfold Secrets.substituteSecrets, Secrets.checkMissingEnvVars.
  destruct (traverse_distinct (JObj config)) as [Hnd Hne].
  case_bool_decide as Hlen.
  - cbn zeta. split_and!.
    + done.
    + intros Hnil. rewrite Hnil in Hlen. simpl in Hlen. lia.
    + by apply NoDup_filter.
    + apply Forall_forall. intros name [Hmissing Hin]%list_elem_of_filter. split.
      * unfold Secrets.env_has in Hmissing.
        apply orb_false_iff in Hmissing as [Hown _].
        apply bool_decide_eq_false in Hown. by apply eq_None_not_Some.
      * rewrite Forall_forall in Hne. by apply Hne.
  - destruct (filter _ _); [done|]. simpl in Hlen. lia.
Qed.

(** [substituteSecrets] returns exactly when [checkMissingEnvVars] finds
    nothing; otherwise it throws a [MissingEnvVarError] that carries the
    names [checkMissingEnvVars] reports, joined in its message: each a
    distinct, non-empty name without a value in the environment. *)
Theorem substituteSecrets_outcome (prototype_text : string → string)
    (config : obj) (env : gmap string string) :
  match Secrets.substituteSecrets prototype_text config env with
  | Ok _ => Secrets.checkMissingEnvVars config env = []
  | Throw e =>
      let missingVars := Secrets.checkMissingEnvVars config env in
      e = MissingEnvVarError
            ("Missing environment variables: " ++ String.concat ", " missingVars) missingVars
      ∧ missingVars ≠ []
      ∧ NoDup missingVars
      ∧ Forall (λ name, env !! name = None ∧ name ≠ "") missingVars
  end.
Proof. apply substituteSecrets_cases. Qed.

Lemma env_has_placeholders (missingVars : list string) (env : gmap string string)
    (name : string) :
  Secrets.env_has name env = true ∨ name ∈ missingVars →
  Secrets.env_has name
    (foldl (λ envWithPlaceholders varName,
              <[varName := "${" ++ varName ++ "}"]> envWithPlaceholders)
           env missingVars) = true.
Proof.
  revert env. induction missingVars as [|v vs IH]; intros env; cbn [foldl].
  - by intros [?|?%elem_of_nil].
  - intros [Hhas|[->|Hin]%elem_of_cons]; apply IH; [left | left | by right].
    + unfold Secrets.env_has in *. apply orb_true_iff in Hhas as [Hown|Hproto].
      * apply orb_true_iff. left. apply bool_decide_eq_true.
        apply bool_decide_eq_true in Hown.
        destruct (decide (v = name)) as [->|Hv];
          [by rewrite lookup_insert_eq | by rewrite lookup_insert_ne].
      * by rewrite Hproto, orb_true_r.
    + unfold Secrets.env_has. apply orb_true_iff. left. apply bool_decide_eq_true.
      by rewrite lookup_insert_eq.
Qed.

Lemma env_text_placeholders (prototype_text : string → string) (missingVars : list string)
    (env : gmap string string) (name : string) :
  name ∈ missingVars →
  Secrets.env_text prototype_text
    (foldl (λ envWithPlaceholders varName,
              <[varName := "${" ++ varName ++ "}"]> envWithPlaceholders)
           env missingVars) name
  = "${" ++ name ++ "}".
Proof.
  intros Hin. unfold Secrets.env_text.
  enough (foldl (λ envWithPlaceholders varName,
                   <[varName := "${" ++ varName ++ "}"]> envWithPlaceholders)
                env missingVars !! name = Some ("${" ++ name ++ "}")) as -> by done.
  revert env Hin.
  assert (∀ (vs : list string) (env : gmap string string),
            env !! name = Some ("${" ++ name ++ "}") →
            foldl (λ envWithPlaceholders varName,
                     <[varName := "${" ++ varName ++ "}"]> envWithPlaceholders)
                  env vs !! name = Some ("${" ++ name ++ "}")) as Hkeep.
  { induction vs as [|v vs IH]; intros env Henv; [done|]. cbn [foldl]. apply IH.
    destruct (decide (v = name)) as [->|Hv];
      [by rewrite lookup_insert_eq | by rewrite lookup_insert_ne]. }
  induction missingVars as [|v vs IH]; intros env Hin; [by apply elem_of_nil in Hin|].
  cbn [foldl]. apply elem_of_cons in Hin as [->|Hin]; [|by apply IH].
  apply Hkeep. by rewrite lookup_insert_eq.
Qed.

Lemma filter_none {A} (P : A → Prop) `{∀ x, Decision (P x)} (l : list A) :
  (∀ x, x ∈ l → ¬ P x) → filter P l = [].
Proof.
  induction l as [|x l IH]; intros Hnot; [done|].
  rewrite filter_cons, decide_False by (apply Hnot, list_elem_of_here).
  apply IH. intros y Hy. apply Hnot. by apply list_elem_of_further.
Qed.

(** Ahead of schema validation the substitution never fails: whatever the
    environment lacks, a substituted configuration comes back, the other
    fields of the [ChannelConfig] as they were. *)
Theorem substituteSecretsForValidation_returns (prototype_text : string → string)
    (config : ChannelConfig) (env : gmap string string) :
  ∃ substituted,
    substituteSecretsForValidation prototype_text config env
    = Ok {| cfg_name := cfg_name config; cfg_path := cfg_path config;
            raw := raw config; merged := substituted;
            schemaUrl := schemaUrl config; id := id config;
            inheritsFromRoot := inheritsFromRoot config |}.
Proof.
  unfold substituteSecretsForValidation.
  assert (∀ env', Secrets.checkMissingEnvVars (merged config) env' = [] →
                  ∃ substituted,
                    Secrets.substituteSecrets prototype_text (merged config) env'
                    = Ok substituted) as Hok.
  { intros env' Hnone.
    pose proof (substituteSecrets_cases prototype_text (merged config) env') as Hout.
    destruct (Secrets.substituteSecrets prototype_text (merged config) env') as [s|e];
      [by exists s|].
    by destruct Hout as (_ & Hne & _). }
  case_bool_decide as Hlen.
  - destruct (Hok env) as [s ->]; [by apply length_zero_iff_nil|]. by exists s.
  - edestruct Hok as [s ->]; [|by exists s].
    unfold Secrets.checkMissingEnvVars at 1.
    apply filter_none.
    intros name Hname. rewrite env_has_placeholders; [done|].
    destruct (Secrets.env_has name env) eqn:Hhas; [by left|]. right.
    unfold Secrets.checkMissingEnvVars. by apply list_elem_of_filter.
Qed.

(** Ahead of schema validation, a configuration none of whose variables
    the environment has keeps every placeholder as written: it comes back
    as it went in, when none of its keys is [__proto__] or an array
    index. *)
Theorem validation_keeps_missing_placeholders (prototype_text : string → string)
    (config : ChannelConfig) (env : gmap string string) :
  wf_obj (merged config) = true → ordinary_keys (JObj (merged config)) = true →
  (∀ name, name ∈ Secrets.findPlaceholders (JObj (merged config)) →
           Secrets.env_has name env = false) →
  substituteSecretsForValidation prototype_text config env = Ok config.
Proof.
  intros Hwf Hkeys Hmissing. unfold substituteSecretsForValidation.
  assert (Secrets.checkMissingEnvVars (merged config) env
          = Secrets.findPlaceholders (JObj (merged config))) as Hall.
  { unfold Secrets.checkMissingEnvVars.
    induction (Secrets.findPlaceholders (JObj (merged config))) as [|n ns IH]; [done|].
    rewrite filter_cons, decide_True by (apply Hmissing, list_elem_of_here).
    f_equal. apply IH. intros name Hname. apply Hmissing. by apply list_elem_of_further. }
  rewrite Hall.
  case_bool_decide as Hlen.
  - apply length_zero_iff_nil in Hlen.
    rewrite substituteSecrets_plain by done. by destruct config.
  - set (env' := foldl _ env _).
    assert (Secrets.substituteSecrets prototype_text (merged config) env'
            = Ok (merged config)) as ->; [|by destruct config].
    unfold Secrets.substituteSecrets.
    rewrite filter_none.
    + cbn [length]. rewrite bool_decide_eq_false_2 by lia. f_equal.
      apply substituteSecrets_fields; [done | done |].
      intros name Hname. by apply env_text_placeholders.
    + intros name Hname. unfold env'. rewrite env_has_placeholders; [done | by right].
Qed.

Lemma validation_keeps_missing_placeholders_witness :
  let config := config_of "klarna" [("id", JStr "klarna");
                                     ("secret", JStr "Bearer ${KLARNA_KEY}:${KLARNA_SECRET}")] in
  substituteSecretsForValidation (λ _, "") config {[ "OTHER" := "1" ]} = Ok config.
Proof.
  intros config. apply validation_keeps_missing_placeholders; [reflexivity | reflexivity |].
  intros name Hname. vm_compute in Hname.
  apply elem_of_cons in Hname as [->|Hname]; [reflexivity|].
  apply list_elem_of_singleton in Hname as ->. reflexivity.
Defined.

Lemma mapM_Throw {A B} (f : A → result B) (l : list A) (e : exn) :
  mapM f l = Throw e →
  ∃ pre x post, l = (pre ++ x :: post)%list ∧ f x = Throw e ∧ Forall (λ y, ∃ z, f y = Ok z) pre.
Proof.
  induction l as [|x l IH]; [done|]. simpl.
  destruct (f x) as [y|e'] eqn:Hx.
  - csimpl. destruct (mapM f l) as [ys|e'] eqn:Hl; [done|]. intros [= ->].
    destruct IH as (pre & x' & post & -> & Hx' & Hpre); [done|].
    exists (x :: pre), x', post. split_and!; [done | done |].
    constructor; [by exists y | done].
  - intros [= ->]. exists [], x, l. split_and!; [done | done | constructor].
Qed.

Lemma mapM_returns {A B} (f : A → result B) (l : list A) :
  Forall (λ x, ∃ y, f x = Ok y) l → ∃ l', mapM f l = Ok l'.
Proof.
  induction 1 as [|x l [y Hy] _ [l' IH]]; [by exists []|].
  exists (y :: l'). simpl. by rewrite Hy, IH.
Qed.

(** With the substitution of secrets/substitute.ts, the secrets step of a
    plan returns exactly when no config of any channel names a variable
    the environment lacks.  Otherwise it throws a plain [Error] (never the
    [MissingEnvVarError] itself) whose message gives the path of the first
    config, in channel order and then config order, that misses a
    variable, and the variables it misses. *)
Theorem missing_secret_names_the_file (w : World) (prototype_text : string → string)
    (channels : list Channel) (env : gmap string string) :
  match PlanService.substituteSecretsInChannels (with_secrets w prototype_text) channels env with
  | Ok _ =>
      Forall (λ ch, Forall (λ config, Secrets.checkMissingEnvVars (merged config) env = [])
                           (ch_configs ch)) channels
  | Throw e =>
      ∃ earlier ch later before config after,
        channels = (earlier ++ ch :: later)%list ∧
        ch_configs ch = (before ++ config :: after)%list ∧
        Forall (λ ch, Forall (λ c, Secrets.checkMissingEnvVars (merged c) env = [])
                             (ch_configs ch)) earlier ∧
        Forall (λ c, Secrets.checkMissingEnvVars (merged c) env = []) before ∧
        Secrets.checkMissingEnvVars (merged config) env ≠ [] ∧
        e = Error ("Missing environment variables in " ++ cfg_path config ++ ": "
                   ++ String.concat ", " (Secrets.checkMissingEnvVars (merged config) env))
  end.
Proof.
  unfold PlanService.substituteSecretsInChannels.
  change (substituteSecrets (with_secrets w prototype_text))
    with (Secrets.substituteSecrets prototype_text).
  set (one := λ config : ChannelConfig, match Secrets.substituteSecrets _ _ _ with
                                        | Ok _ => _ | Throw _ => _ end).
  assert (∀ config,
            match one config with
            | Ok _ => Secrets.checkMissingEnvVars (merged config) env = []
            | Throw e =>
                Secrets.checkMissingEnvVars (merged config) env ≠ [] ∧
                e = Error ("Missing environment variables in " ++ cfg_path config ++ ": "
                           ++ String.concat ", "
                                (Secrets.checkMissingEnvVars (merged config) env))
            end) as Hone.
  { intros config. unfold one.
    pose proof (substituteSecrets_cases prototype_text (merged config) env) as Hout.
    destruct (Secrets.substituteSecrets prototype_text (merged config) env) as [s|e];
      [done|].
    destruct Hout as (-> & Hne & _). done. }
  assert (∀ (ch : Channel) (z : Channel),
            (mapM one (ch_configs ch)
             ≫= λ configs, Ok {| ch_name := ch_name ch; ch_path := ch_path ch;
                                 ch_configs := configs |}) = Ok z →
            Forall (λ c, Secrets.checkMissingEnvVars (merged c) env = []) (ch_configs ch))
    as Hchannel.
  { intros ch z (cs & Hcs%mapM_Ok & _)%bind_Ok.
    apply Forall_forall. intros config [i Hi]%list_elem_of_lookup.
    destruct (Forall2_lookup_l _ _ _ _ _ Hcs Hi) as (c' & _ & Hc').
    specialize (Hone config). by rewrite Hc' in Hone. }
  destruct (mapM _ channels) as [out|e] eqn:Hrun.
  - apply mapM_Ok in Hrun. apply Forall_forall. intros ch [j Hj]%list_elem_of_lookup.
    destruct (Forall2_lookup_l _ _ _ _ _ Hrun Hj) as (ch' & _ & Hch').
    by eapply Hchannel.
  - apply mapM_Throw in Hrun as (earlier & ch & later & -> & Hch & Hearlier).
    destruct (mapM one (ch_configs ch)) as [cs|e'] eqn:Hcs; [done|].
    injection Hch as ->.
    apply mapM_Throw in Hcs as (before & config & after & Hconfigs & Hconfig & Hbefore).
    exists earlier, ch, later, before, config, after. split_and!.
    + done.
    + done.
    + eapply Forall_impl; [exact Hearlier|]. intros c [z Hz]. by eapply Hchannel.
    + eapply Forall_impl; [exact Hbefore|]. intros c [z Hz].
      specialize (Hone c). by rewrite Hz in Hone.
    + specialize (Hone config). rewrite Hconfig in Hone. apply Hone.
    + specialize (Hone config). rewrite Hconfig in Hone. apply Hone.
Qed.

Lemma concat_empty_app (xs ys : list string) :
  String.concat "" (xs ++ ys) = String.concat "" xs ++ String.concat "" ys.
Proof.
  induction xs as [|x xs IH]; [done|].
  change ((x :: xs) ++ ys)%list with (x :: (xs ++ ys))%list.
  by rewrite !concat_empty_cons, IH, string_app_assoc.
Qed.

Lemma pieces_plain_prefix (pre rest : string) :
  "$"%char ∉ String.list_ascii_of_string pre →
  Secrets.pieces_from Secrets.Outside (pre ++ rest)
  = (map Secrets.Text (String.list_ascii_of_string pre)
     ++ Secrets.pieces_from Secrets.Outside rest)%list.
Proof.
  induction pre as [|c pre IH]; intros Hpre; [done|].
  change (String c pre ++ rest) with (String c (pre ++ rest)).
  cbn [Secrets.pieces_from String.list_ascii_of_string map app].
  cbn [String.list_ascii_of_string] in Hpre. apply not_elem_of_cons in Hpre as [Hc Hpre].
  rewrite decide_False by done. by rewrite IH.
Qed.

Lemma pieces_name (n0 name post : string) :
  "}"%char ∉ String.list_ascii_of_string name → n0 ++ name ≠ "" →
  Secrets.pieces_from (Secrets.InName n0) (name ++ String "}" post)
  = Secrets.Placeholder (n0 ++ name) :: Secrets.pieces_from Secrets.Outside post.
Proof.
  revert n0. induction name as [|c name IH]; intros n0 Hname Hne.
  - rewrite string_app_nil_r in *. change ("" ++ String "}" post) with (String "}" post).
    cbn [Secrets.pieces_from]. rewrite decide_True by done. by rewrite decide_False.
  - change (String c name ++ String "}" post) with (String c (name ++ String "}" post)).
    cbn [Secrets.pieces_from].
    cbn [String.list_ascii_of_string] in Hname. apply not_elem_of_cons in Hname as [Hc Hname].
    rewrite decide_False by done.
    rewrite IH; [| done |].
    + by rewrite string_app_assoc.
    + by rewrite string_app_assoc.
Qed.

(** One substitution step on a string: the text before the first [$] is
    kept, the placeholder [${name}] behind it gives way to the text of
    [name], and the search resumes behind its closing brace. *)
Theorem placeholder_is_replaced (prototype_text : string → string)
    (env : gmap string string) (pre name post : string) :
  "$"%char ∉ String.list_ascii_of_string pre →
  name ≠ "" → "}"%char ∉ String.list_ascii_of_string name →
  Secrets.substituteValue prototype_text (JStr (pre ++ "${" ++ name ++ "}" ++ post)) env
  = JStr (pre ++ Secrets.env_text prototype_text env name
              ++ Secrets.replace (Secrets.env_text prototype_text env) post).
Proof.
  intros Hpre Hne Hname. cbn [Secrets.substituteValue]. f_equal.
  rewrite !replace_eq. unfold Secrets.pieces.
  rewrite pieces_plain_prefix by done.
  change ("${" ++ name ++ "}" ++ post)
    with (String "$" (String "{" (name ++ String "}" post))).
  cbn [Secrets.pieces_from]. rewrite decide_True by done. rewrite decide_True by done.
  rewrite pieces_name by done.
  rewrite map_app, concat_empty_app, map_cons, concat_empty_cons.
  by rewrite render_text.
Qed.

Lemma placeholder_is_replaced_witness :
  Secrets.substituteValue (λ _, "") (JStr "Bearer ${TOKEN}, ${USER}")
    {[ "TOKEN" := "t0k3n"; "USER" := "ada" ]}
  = JStr "Bearer t0k3n, ada".
Proof.
  exact (placeholder_is_replaced (λ _, "") {[ "TOKEN" := "t0k3n"; "USER" := "ada" ]}
           "Bearer " "TOKEN" ", ${USER}" ltac:(by_compute) ltac:(discriminate)
           ltac:(by_compute)).
Defined.

(** ** compare/service.ts *)

Lemma map_get_set {V} (k key : string) (value : V) (m : list (string * V)) :
  CompareService.map_get k (CompareService.map_set key value m)
  = if decide (k = key) then Some value else CompareService.map_get k m.
Proof.
  induction m as [|[k' v'] m IH]; simpl.
  - destruct (decide (key = k)) as [->|Hk]; [by rewrite decide_True|].
    by rewrite decide_False by (by intros ->).
  - destruct (decide (k' = key)) as [->|Hk']; simpl.
    + destruct (decide (key = k)) as [->|Hk]; [by rewrite decide_True|].
      by rewrite decide_False by (by intros ->).
    + destruct (decide (k' = k)) as [->|Hk]; [|done].
      by rewrite decide_False.
Qed.

(** A [Map] built from entries answers with the last entry of the key. *)
Lemma new_Map_get {V} (entries : list (string * V)) (k : string) :
  CompareService.map_get k (CompareService.new_Map entries)
  = snd <$> last (filter (λ kv, kv.1 = k) entries).
Proof.
  unfold CompareService.new_Map.
  enough (∀ m : list (string * V),
    CompareService.map_get k (foldl (λ m kv, CompareService.map_set kv.1 kv.2 m) m entries)
    = match last (filter (λ kv, kv.1 = k) entries) with
      | Some kv => Some kv.2
      | None => CompareService.map_get k m
      end) as Hgen.
  { rewrite Hgen. by destruct (last _). }
  induction entries as [|[k' v'] entries IH]; intros m; [done|].
  cbn [foldl]. rewrite IH, filter_cons, map_get_set. cbn [fst snd].
  destruct (decide (k' = k)) as [->|Hk].
  - rewrite decide_True by done.
    destruct (filter _ entries) as [|e es] eqn:Hf; [done|].
    change (last ((k, v') :: e :: es)) with (last (e :: es)).
    destruct (last (e :: es)) eqn:Hlast; [done|]. by apply last_None in Hlast.
  - by rewrite decide_False by (by intros ->).
Qed.

Lemma new_Map_get_Some {V} (entries : list (string * V)) (k : string) (v : V) :
  CompareService.map_get k (CompareService.new_Map entries) = Some v → (k, v) ∈ entries.
Proof.
  rewrite new_Map_get. destruct (last _) as [[k' v']|] eqn:Hlast; [|done].
  intros [= <-]. apply last_Some in Hlast as [l' Hl'].
  assert ((k', v') ∈ filter (λ kv : string * V, kv.1 = k) entries) as Hin.
  { rewrite Hl'. apply elem_of_app. right. apply list_elem_of_here. }
  apply list_elem_of_filter in Hin as [Hk Hin]. simpl in Hk. by subst.
Qed.

Lemma new_Map_get_None {V} (entries : list (string * V)) (k : string) :
  CompareService.map_get k (CompareService.new_Map entries) = None ↔ k ∉ entries.*1.
Proof.
  rewrite new_Map_get. split.
  - intros Hnone ([k' v'] & Hk & Hin)%list_elem_of_fmap. simpl in Hk. subst k'.
    destruct (last _) eqn:Hlast; [done|]. apply last_None in Hlast.
    assert ((k, v') ∈ filter (λ kv : string * V, kv.1 = k) entries) as Hf
      by by apply list_elem_of_filter.
    rewrite Hlast in Hf. by apply elem_of_nil in Hf.
  - intros Hnot. rewrite filter_none; [done|].
    intros [k' v'] Hin Hk. simpl in Hk. subst k'. apply Hnot.
    apply list_elem_of_fmap. by exists (k, v').
Qed.

Lemma set_add_elem (x y : string) (s : list string) :
  y ∈ CompareService.set_add x s ↔ y = x ∨ y ∈ s.
Proof.
  unfold CompareService.set_add. case_bool_decide as Hin.
  - split; [by right | by intros [->|?]].
  - rewrite elem_of_app, list_elem_of_singleton. tauto.
Qed.

Lemma new_Set_spec (xs : list string) :
  NoDup (CompareService.new_Set xs) ∧ ∀ x, x ∈ CompareService.new_Set xs ↔ x ∈ xs.
Proof.
  unfold CompareService.new_Set.
  enough (∀ s, NoDup s →
            NoDup (foldl (λ s x, CompareService.set_add x s) s xs)
            ∧ ∀ x, x ∈ foldl (λ s x, CompareService.set_add x s) s xs ↔ x ∈ s ∨ x ∈ xs)
    as Hgen.
  { destruct (Hgen [] (NoDup_nil_2)) as [Hnd Hin]. split; [done|].
    intros x. rewrite Hin, elem_of_nil. tauto. }
  induction xs as [|x xs IH]; intros s Hs; cbn [foldl].
  - split; [done|]. intros x. rewrite elem_of_nil. tauto.
  - destruct (IH (CompareService.set_add x s)) as [Hnd Hin].
    { unfold CompareService.set_add. case_bool_decide as Hx; [done|].
      apply NoDup_app. split_and!; [done | | apply NoDup_singleton].
      by intros y Hy ->%list_elem_of_singleton. }
    split; [done|]. intros y. rewrite Hin, set_add_elem, elem_of_cons. tauto.
Qed.

Lemma map_get_keys {V} (m : list (string * V)) (k : string) :
  CompareService.map_get k m = None ↔ k ∉ m.*1.
Proof.
  induction m as [|[k' v'] m IH]; simpl.
  - split; [by intros _ ?%elem_of_nil | done].
  - destruct (decide (k' = k)) as [->|Hk].
    + split; [done|]. intros Hnot. exfalso. apply Hnot, list_elem_of_here.
    + rewrite IH, not_elem_of_cons. split; [by intros ?; split; [intros ->|] | tauto].
Qed.

Lemma new_Map_keys {V} (entries : list (string * V)) (k : string) :
  k ∈ (CompareService.new_Map entries).*1 ↔ k ∈ entries.*1.
Proof.
  pose proof (map_get_keys (CompareService.new_Map entries) k) as H1.
  pose proof (new_Map_get_None entries k) as H2.
  destruct (decide (k ∈ (CompareService.new_Map entries).*1));
    destruct (decide (k ∈ entries.*1)); tauto.
Qed.

(** Exchanging the two sides of a comparison exchanges [only_in_a] with
    [only_in_b] and keeps [identical] and [different], for objects without
    an empty-string key. *)
Theorem compareConfig_swap (name : string) (configA configB : option obj) :
  is_Some configA ∨ is_Some configB →
  (∀ a, configA = Some a → wf_obj a = true ∧ no_empty_key (JObj a) = true) →
  (∀ b, configB = Some b → wf_obj b = true ∧ no_empty_key (JObj b) = true) →
  CompareService.cc_status (CompareService.compareConfig name configB configA)
  = swap_status (CompareService.cc_status (CompareService.compareConfig name configA configB))
  ∧ CompareService.configA (CompareService.compareConfig name configB configA)
    = CompareService.configB (CompareService.compareConfig name configA configB)
  ∧ CompareService.configB (CompareService.compareConfig name configB configA)
    = CompareService.configA (CompareService.compareConfig name configA configB).
Proof.
  intros Hsome HA HB.
  destruct configA as [a|], configB as [b|]; cbn [CompareService.compareConfig];
    [| done | done | by destruct Hsome as [[? [=]]|[? [=]]]].
  destruct (HA a eq_refl) as [Hwa Hna]. destruct (HB b eq_refl) as [Hwb Hnb].
  cbn [default].
  pose proof (diffConfigs_nil_iff a b Hwa Hwb Hna) as Hab.
  pose proof (diffConfigs_nil_iff b a Hwb Hwa Hnb) as Hba.
  rewrite <- !length_zero_iff_nil in Hab, Hba.
  destruct (decide (length (diffConfigs a b) = 0)) as [H0|H0].
  - rewrite (bool_decide_eq_true_2 _ H0).
    rewrite bool_decide_eq_true_2; [done|].
    apply Hba, differ_only_in_schema_sym, Hab, H0.
  - rewrite (bool_decide_eq_false_2 _ H0).
    rewrite bool_decide_eq_false_2; [done|].
    intros H1. apply H0, Hab, differ_only_in_schema_sym, Hba, H1.
Qed.

Lemma compareConfig_swap_witness :
  let a : obj := [("$schema", JStr "v1"); ("timeout", JNum 30); ("mode", JStr "live")] in
  let b : obj := [("mode", JStr "test"); ("timeout", JNum 30)] in
  CompareService.cc_status (CompareService.compareConfig "klarna" (Some b) (Some a))
  = CompareService.different
  ∧ CompareService.cc_status (CompareService.compareConfig "klarna" None (Some a))
    = CompareService.only_in_b.
Proof.
  intros a b. split.
  - destruct (compareConfig_swap "klarna" (Some a) (Some b)) as (-> & _).
    + left. by eexists.
    + by intros ? [= <-].
    + by intros ? [= <-].
    + reflexivity.
  - destruct (compareConfig_swap "klarna" (Some a) None) as (-> & _).
    + left. by eexists.
    + by intros ? [= <-].
    + by intros ? [=].
    + reflexivity.
Defined.

Lemma loadAllChannelConfigs_configs (w : World) (channels loaded : list Channel)
    (ch : Channel) :
  loadAllChannelConfigs w channels = Ok loaded → ch ∈ loaded →
  ∃ source, source ∈ channels ∧ ch_name ch = ch_name source
            ∧ loadChannelConfigs w source = Ok (ch_configs ch).
Proof.
  intros Hload%mapM_Ok [i Hi]%list_elem_of_lookup.
  destruct (Forall2_lookup_r _ _ _ _ _ Hload Hi) as (source & Hsource & Hrun).
  apply bind_Ok in Hrun as (cfgs & Hcfgs & [= <-]).
  exists source. split_and!; [by eapply list_elem_of_lookup_2 | done | done].
Qed.

Lemma compareChannels_Ok (w : World) (config : ProjectConfig) (channelA channelB : string)
    (options : CompareService.CompareOptions) (r : CompareService.CompareResult) :
  CompareService.compareChannels w config channelA channelB options = Ok r →
  ∃ discovered loaded chA chB,
    discoverChannels w = Ok discovered ∧
    loadAllChannelConfigs w discovered = Ok loaded ∧
    find (λ ch, bool_decide (ch_name ch = channelA)) loaded = Some chA ∧
    find (λ ch, bool_decide (ch_name ch = channelB)) loaded = Some chB ∧
    let configsA := CompareService.new_Map (map (λ c, (cfg_name c, merged c)) (ch_configs chA)) in
    let configsB := CompareService.new_Map (map (λ c, (cfg_name c, merged c)) (ch_configs chB)) in
    let allConfigNames := CompareService.new_Set (configsA.*1 ++ configsB.*1) in
    let comparisons := CompareService.compare_all options configsA configsB allConfigNames in
    CompareService.cr_configs r = comparisons ∧
    CompareService.cr_summary r
    = CompareService.calculateSummary comparisons (length configsA) (length configsB)
        (length allConfigNames).
Proof.
  unfold CompareService.compareChannels.
  intros (discovered & Hdisc & (loaded & Hload & Hrun)%bind_Ok)%bind_Ok.
  destruct (find _ loaded) as [chA|] eqn:HA; [|done].
  destruct (find (λ ch, bool_decide (ch_name ch = channelB)) loaded) as [chB|] eqn:HB; [|done].
  injection Hrun as <-. by exists discovered, loaded, chA, chB.
Qed.

Lemma compareConfig_name (name : string) (configA configB : option obj) :
  CompareService.cc_name (CompareService.compareConfig name configA configB) = name.
Proof.
  destruct configA, configB; cbn [CompareService.compareConfig];
    try case_bool_decide; done.
Qed.

Lemma config_entries_keys (configs : list ChannelConfig) :
  (map (λ c, (cfg_name c, merged c)) configs).*1 = map cfg_name configs.
Proof. induction configs as [|c configs IH]; [done|]. csimpl. by rewrite IH. Qed.

(** A full comparison (without [differencesOnly]) holds one entry per
    config name of either channel, each name once; an entry is
    [only_in_a] exactly when channel B has no config of its name, and
    [only_in_b] exactly when channel A has none. *)
Theorem comparison_per_name (w : World) (config : ProjectConfig)
    (channelA channelB : string) (r : CompareService.CompareResult) :
  CompareService.compareChannels w config channelA channelB
    {| CompareService.differencesOnly := false |} = Ok r →
  ∃ discovered loaded chA chB,
    discoverChannels w = Ok discovered ∧
    loadAllChannelConfigs w discovered = Ok loaded ∧
    find (λ ch, bool_decide (ch_name ch = channelA)) loaded = Some chA ∧
    find (λ ch, bool_decide (ch_name ch = channelB)) loaded = Some chB ∧
    let namesA := map cfg_name (ch_configs chA) in
    let namesB := map cfg_name (ch_configs chB) in
    NoDup (map CompareService.cc_name (CompareService.cr_configs r)) ∧
    (∀ name, name ∈ map CompareService.cc_name (CompareService.cr_configs r)
             ↔ name ∈ namesA ∨ name ∈ namesB) ∧
    Forall (λ c, (CompareService.cc_status c = CompareService.only_in_a
                  ↔ CompareService.cc_name c ∉ namesB)
                 ∧ (CompareService.cc_status c = CompareService.only_in_b
                    ↔ CompareService.cc_name c ∉ namesA))
           (CompareService.cr_configs r).
Proof.
  intros (discovered & loaded & chA & chB & Hdisc & Hload & HA & HB & Hconfigs & _)
    %compareChannels_Ok.
  exists discovered, loaded, chA, chB. split_and!; try done. cbn zeta.
  rewrite Hconfigs, compare_all_full. clear Hconfigs.
  set (entriesA := map (λ c, (cfg_name c, merged c)) (ch_configs chA)).
  set (entriesB := map (λ c, (cfg_name c, merged c)) (ch_configs chB)).
  set (names := CompareService.new_Set _).
  assert (∀ name, name ∈ names
                  ↔ name ∈ map cfg_name (ch_configs chA) ∨ name ∈ map cfg_name (ch_configs chB))
    as Hnames.
  { intros name. unfold names.
    rewrite (proj2 (new_Set_spec _)), elem_of_app, !new_Map_keys.
    unfold entriesA, entriesB. by rewrite !config_entries_keys. }
  assert (map CompareService.cc_name
            (map (λ name, CompareService.compareConfig name
                            (CompareService.map_get name (CompareService.new_Map entriesA))
                            (CompareService.map_get name (CompareService.new_Map entriesB)))
                 names) = names) as Hcc.
  { rewrite map_map. erewrite map_ext; [apply map_id|].
    intros name. apply compareConfig_name. }
  split_and!.
  - rewrite Hcc. apply new_Set_spec.
  - intros name. by rewrite Hcc.
  - apply Forall_map, Forall_forall. intros name Hname. rewrite compareConfig_name.
    apply Hnames in Hname.
    pose proof (new_Map_get_None entriesA name) as HnoneA.
    pose proof (new_Map_get_None entriesB name) as HnoneB.
    unfold entriesA, entriesB in HnoneA, HnoneB. rewrite config_entries_keys in HnoneA, HnoneB.
    fold entriesA in HnoneA. fold entriesB in HnoneB.
    destruct (CompareService.map_get name (CompareService.new_Map entriesA)) as [a|];
      destruct (CompareService.map_get name (CompareService.new_Map entriesB)) as [b|];
      cbn [CompareService.compareConfig]; try case_bool_decide;
      cbn [CompareService.cc_status]; split; split; try done; try tauto.
    all: intros Hnot; try (by apply HnoneA in Hnot); try (by apply HnoneB in Hnot).
Qed.

Lemma comparison_per_name_witness :
  let w := example_world [local_channel "no" [config_of "klarna" local_ab;
                                              config_of "vipps" local_xab];
                          local_channel "se" [config_of "swish" local_ab;
                                              config_of "klarna" local_xab]]
                         {| listChannels := Ok []; listConfigs := λ _, Ok [] |} in
  ∃ r,
    CompareService.compareChannels w example_config "no" "se"
      {| CompareService.differencesOnly := false |} = Ok r
    ∧ NoDup (map CompareService.cc_name (CompareService.cr_configs r))
    ∧ ("swish" ∈ map CompareService.cc_name (CompareService.cr_configs r)).
Proof.
  intros w.
  destruct (CompareService.compareChannels w example_config "no" "se"
              {| CompareService.differencesOnly := false |}) as [r|e] eqn:Hr;
    [|vm_compute in Hr; discriminate Hr].
  exists r. split; [reflexivity|].
  destruct (comparison_per_name _ _ _ _ _ Hr)
    as (d & l & chA & chB & Hd & Hl & HA & HB & Hnd & Hin & _).
  split; [exact Hnd|]. apply Hin. right.
  injection Hd as <-. vm_compute in Hl. injection Hl as <-.
  vm_compute in HB. injection HB as <-. by_compute.
Defined.

(** A channel compared with itself: every comparison is [identical], so
    nothing is listed under [differencesOnly], and the summary counts no
    [different], [onlyInA] or [onlyInB]. *)
Theorem channel_compared_with_itself (w : World) (config : ProjectConfig)
    (channelName : string) (options : CompareService.CompareOptions)
    (r : CompareService.CompareResult) :
  (∀ ch loaded, loadChannelConfigs w ch = Ok loaded →
                Forall (λ c, wf_obj (merged c) = true) loaded) →
  CompareService.compareChannels w config channelName channelName options = Ok r →
  Forall (λ c, CompareService.cc_status c = CompareService.identical)
         (CompareService.cr_configs r)
  ∧ (CompareService.differencesOnly options = true → CompareService.cr_configs r = [])
  ∧ CompareService.sum_different (CompareService.cr_summary r) = 0
  ∧ CompareService.onlyInA (CompareService.cr_summary r) = 0
  ∧ CompareService.onlyInB (CompareService.cr_summary r) = 0.
Proof.
  intros Hwf (discovered & loaded & chA & chB & Hdisc & Hload & HA & HB & Hconfigs & Hsummary)
    %compareChannels_Ok.
  rewrite HA in HB. injection HB as <-. cbn zeta in Hconfigs, Hsummary.
  set (entries := map (λ c, (cfg_name c, merged c)) (ch_configs chA)) in *.
  set (names := CompareService.new_Set _) in *.
  set (full := map (λ name, CompareService.compareConfig name
                              (CompareService.map_get name (CompareService.new_Map entries))
                              (CompareService.map_get name (CompareService.new_Map entries)))
                   names).
  assert (Forall (λ c, CompareService.cc_status c = CompareService.identical) full) as Hfull.
  { apply Forall_map, Forall_forall. intros name Hname.
    destruct (CompareService.map_get name (CompareService.new_Map entries)) as [a|] eqn:Ha.
    - apply new_Map_get_Some in Ha.
      apply list_elem_of_fmap in Ha as (c & [= -> ->] & Hc).
      apply find_some in HA as [HinA _]. apply list_elem_of_In in HinA.
      destruct (loadAllChannelConfigs_configs _ _ _ _ Hload HinA) as (source & _ & _ & Hsrc).
      apply Hwf in Hsrc. rewrite Forall_forall in Hsrc.
      cbn [CompareService.compareConfig default].
      rewrite diffConfigs_refl by by apply Hsrc. done.
    - exfalso. apply map_get_keys in Ha. apply Ha.
      unfold names in Hname. rewrite (proj2 (new_Set_spec _)) in Hname.
      by apply elem_of_app in Hname as [?|?]. }
  assert (CompareService.cr_configs r = full
          ∨ (CompareService.differencesOnly options = true ∧ CompareService.cr_configs r = []))
    as Hcases.
  { rewrite Hconfigs. destruct options as [[]].
    - right. split; [done|]. rewrite compare_all_differences. apply filter_none.
      fold full. rewrite Forall_forall in Hfull. intros c Hc Hnot. by apply Hnot, Hfull.
    - left. by rewrite compare_all_full. }
  assert (Forall (λ c, CompareService.cc_status c = CompareService.identical)
                 (CompareService.cr_configs r)) as Hall.
  { destruct Hcases as [->|[_ ->]]; [done | constructor]. }
  split_and!.
  - done.
  - intros Hopt. destruct Hcases as [Hr|[_ Hr]]; [|done].
    rewrite Hconfigs. destruct options as [[]]; [|done].
    rewrite compare_all_differences. apply filter_none.
    fold full. rewrite Forall_forall in Hfull. intros c Hc Hnot. by apply Hnot, Hfull.
  - rewrite Hsummary, <- Hconfigs. unfold CompareService.calculateSummary.
    cbn [CompareService.sum_different].
    destruct (compare_count_status (CompareService.cr_configs r)
                {| CompareService.sum_identical := 0; CompareService.sum_different := 0;
                   CompareService.onlyInA := 0; CompareService.onlyInB := 0 |})
      as (_ & -> & _). cbn [CompareService.sum_different].
    rewrite filter_none; [done|]. rewrite Forall_forall in Hall.
    intros c Hc Hs. by rewrite (Hall c Hc) in Hs.
  - rewrite Hsummary, <- Hconfigs. unfold CompareService.calculateSummary.
    cbn [CompareService.onlyInA].
    destruct (compare_count_status (CompareService.cr_configs r)
                {| CompareService.sum_identical := 0; CompareService.sum_different := 0;
                   CompareService.onlyInA := 0; CompareService.onlyInB := 0 |})
      as (_ & _ & -> & _). cbn [CompareService.onlyInA].
    rewrite filter_none; [done|]. rewrite Forall_forall in Hall.
    intros c Hc Hs. by rewrite (Hall c Hc) in Hs.
  - rewrite Hsummary, <- Hconfigs. unfold CompareService.calculateSummary.
    cbn [CompareService.onlyInB].
    destruct (compare_count_status (CompareService.cr_configs r)
                {| CompareService.sum_identical := 0; CompareService.sum_different := 0;
                   CompareService.onlyInA := 0; CompareService.onlyInB := 0 |})
      as (_ & _ & _ & ->). cbn [CompareService.onlyInB].
    rewrite filter_none; [done|]. rewrite Forall_forall in Hall.
    intros c Hc Hs. by rewrite (Hall c Hc) in Hs.
Qed.

Lemma channel_compared_with_itself_witness :
  let w := example_world [local_channel "no" [config_of "klarna" local_ab;
                                              config_of "vipps" local_xab]]
                         {| listChannels := Ok []; listConfigs := λ _, Ok [] |} in
  ∃ r,
    CompareService.compareChannels w example_config "no" "no"
      {| CompareService.differencesOnly := true |} = Ok r
    ∧ CompareService.cr_configs r = []
    ∧ CompareService.sum_different (CompareService.cr_summary r) = 0.
Proof.
  intros w.
  destruct (CompareService.compareChannels w example_config "no" "no"
              {| CompareService.differencesOnly := true |}) as [r|e] eqn:Hr;
    [|vm_compute in Hr; discriminate Hr].
  exists r. split; [reflexivity|].
  destruct (channel_compared_with_itself w example_config "no"
              {| CompareService.differencesOnly := true |} r) as (_ & Hnone & Hdiff & _).
  - intros ch loaded [= <-]. cbn.
    destruct (bool_decide ("no" = ch_name ch)); cbn; repeat constructor.
  - exact Hr.
  - split; [by apply Hnone | exact Hdiff].
Defined.

(** ** plan/service.ts: the order of the steps *)

(** Without an API token a run fails and never reaches the remote store:
    its outcome is the same against any store.  The token is missing when
    the environment has no [NCOCTL_API_TOKEN] and the project config none
    or an empty one, and also when [NCOCTL_API_TOKEN] is set to the empty
    string, whatever the project config holds. *)
Theorem no_token_no_remote_call (w : World) (c : ConfigurationApiClient)
    (config : ProjectConfig) (options : PlanService.PlanOptions)
    (env : gmap string string) :
  getEnvironment w = Ok env →
  (env !! "NCOCTL_API_TOKEN" = None ∧ option_set (api_token config) = None)
  ∨ env !! "NCOCTL_API_TOKEN" = Some "" →
  (∃ e, PlanService.generatePlan w config options = Throw e)
  ∧ PlanService.generatePlan (with_client w c) config options
    = PlanService.generatePlan w config options.
Proof.
  intros Henv Htoken. unfold PlanService.generatePlan.
  change (validateProject (with_client w c)) with (validateProject w).
  change (discoverChannels (with_client w c)) with (discoverChannels w).
  change (getEnvironment (with_client w c)) with (getEnvironment w).
  change (loadAllChannelConfigs (with_client w c)) with (loadAllChannelConfigs w).
  change (PlanService.substituteSecretsInChannels (with_client w c))
    with (PlanService.substituteSecretsInChannels w).
  assert (option_set (match env !! "NCOCTL_API_TOKEN" with
                      | Some t => Some t
                      | None => api_token config
                      end) = None) as Hnone.
  { by destruct Htoken as [[-> ->]| ->]. }
  rewrite Henv.
  destruct (validateProject w (PlanService.opt_channel options)) as [v|e]; [|by split; [eexists|]].
  csimpl. destruct (negb (valid v)); [by split; [eexists|]|].
  destruct (discoverChannels w) as [discovered|e]; [|by split; [eexists|]]. csimpl.
  match goal with |- (∃ e, (?m ≫= _) = _) ∧ _ =>
    destruct m as [selected|e]; [|by split; [eexists|]] end. csimpl.
  destruct (loadAllChannelConfigs w selected) as [loaded|e]; [|by split; [eexists|]]. csimpl.
  destruct (PlanService.substituteSecretsInChannels w loaded env) as [secrets|e];
    [|by split; [eexists|]]. csimpl.
  rewrite Hnone. by split; [eexists|].
Qed.

Lemma no_token_no_remote_call_witness :
  let remote := {| listChannels := Ok [remote_channel "se"]; listConfigs := λ _, Ok [] |} in
  let w :=
    {| validateProject := λ _, Ok {| valid := true; vr_channels := [] |};
       discoverChannels := Ok [local_channel "se" []];
       loadChannelConfigs := λ _, Ok [config_of "x" local_xab];
       getEnvironment := Ok {[ "NCOCTL_API_TOKEN" := "" ]};
       substituteSecrets := λ config _, Ok config;
       client := remote;
       now := "2026-01-30T12:00:00.000Z" |} in
  PlanService.generatePlan w
    {| pc_merchant := "acme"; api_baseUrl := "https://acme.example"; api_token := Some "t0k3n" |}
    {| PlanService.opt_channel := None; PlanService.verbose := false |}
  = Throw (Error "API token required. Set NCOCTL_API_TOKEN environment variable or api.token in config.").
Proof.
  intros remote w.
  destruct (no_token_no_remote_call w remote
              {| pc_merchant := "acme"; api_baseUrl := "https://acme.example";
                 api_token := Some "t0k3n" |}
              {| PlanService.opt_channel := None; PlanService.verbose := false |}
              {[ "NCOCTL_API_TOKEN" := "" ]} eq_refl (or_intror eq_refl))
    as [[e He] _].
  rewrite He. vm_compute in He. symmetry. exact He.
Defined.

(** ** plan/service.ts: planning what was just applied *)

(** When the remote store lists, for a channel, exactly the local
    (resolved) configs, each under the id the local config is looked up
    by and no id twice, the channel plan has nothing but [unchanged]
    entries without diffs. *)
Theorem plan_of_applied_channel (ch : Channel) (client : ConfigurationApiClient) :
  Forall (λ c, wf_obj (merged c) = true
               ∧ remote_id (merged c) = Some (default (cfg_name c) (id c)))
         (ch_configs ch) →
  NoDup (map (λ c, default (cfg_name c) (id c)) (ch_configs ch)) →
  listConfigs client (ch_name ch) = Ok (map merged (ch_configs ch)) →
  PlanService.generateChannelPlan ch true client
  = Ok {| channel := ch_name ch; existsRemotely := true;
          configs := map (λ c, {| cp_name := cfg_name c; cp_status := unchanged;
                                  cp_diffs := [] |}) (ch_configs ch) |}.
Proof.
  intros Hall Hnd Hlist. unfold PlanService.generateChannelPlan. rewrite Hlist. csimpl.
  f_equal. f_equal. apply map_ext_in. intros c Hc%list_elem_of_In.
  rewrite Forall_forall in Hall. destruct (Hall c Hc) as [Hwf Hid].
  unfold PlanService.generateConfigPlan. rewrite index_by_id_lookup.
  set (i := default (cfg_name c) (id c)) in *.
  assert (last (filter (λ config, remote_id config = Some i) (map merged (ch_configs ch)))
          = Some (merged c)) as ->.
  { clear Hlist. revert Hnd Hall Hc. generalize (ch_configs ch). intros cs.
    induction cs as [|c0 cs IH]; intros Hnd Hall Hc; [by apply elem_of_nil in Hc|].
    cbn [map] in *. apply NoDup_cons in Hnd as [Hc0 Hnd]. rewrite filter_cons.
    destruct (Hall c0 (list_elem_of_here _ _)) as [_ Hid0].
    assert (∀ c', c' ∈ cs → wf_obj (merged c') = true
                            ∧ remote_id (merged c') = Some (default (cfg_name c') (id c')))
      as Hall' by (intros c' Hc'; by apply Hall, list_elem_of_further).
    apply elem_of_cons in Hc as [->|Hc].
    - rewrite decide_True by done.
      rewrite filter_none; [done|].
      intros m (c' & -> & Hc')%list_elem_of_fmap Hm.
      destruct (Hall' c' Hc') as [_ Hid']. rewrite Hid' in Hm. injection Hm as Hm.
      apply Hc0. apply list_elem_of_fmap. exists c'. by split.
    - rewrite decide_False.
      + by apply IH.
      + rewrite Hid0. intros [= Heq]. apply Hc0. apply list_elem_of_fmap.
        exists c. by split. }
  by rewrite diffConfigs_refl.
Qed.

Lemma plan_of_applied_channel_witness :
  let ch := local_channel "se" [config_of "x" local_xab;
                                config_of "y" [("id", JStr "y"); ("a", JNum 7)]] in
  PlanService.generateChannelPlan ch true
    {| listChannels := Ok [remote_channel "se"];
       listConfigs := λ _, Ok [local_xab; [("id", JStr "y"); ("a", JNum 7)]] |}
  = Ok {| channel := "se"; existsRemotely := true;
          configs := [ {| cp_name := "x"; cp_status := unchanged; cp_diffs := [] |};
                       {| cp_name := "y"; cp_status := unchanged; cp_diffs := [] |} ] |}.
Proof.
  intros ch.
  apply (plan_of_applied_channel ch); [| by_compute | reflexivity].
  repeat constructor.
Defined.
